(** * Binary Prime Engine: a shallow embedding of the professional engine

    The development follows [binary_prime_engine_pro_en.py]: the bounded
    recency cache [PrimeCache], the engine [BinaryPrimeEngine] with its
    primality test, its successor search, its statistics, its generator and
    its persisted state.  Python objects are modelled by explicit state
    passing; an exception is an outcome of a computation, next to a normal
    return, and the state reached when it is raised is kept, as in Python. *)

From Stdlib Require Import ZArith Lia List String Ascii Sorted.
From Corelib Require Import PrimInt63.
From Stdlib Require Uint63.
From Stdlib Require Import Floats.PrimFloat Floats.SpecFloat Floats.FloatOps.
From Stdlib Require Import Floats.FloatAxioms.
From Equations Require Import Equations.
From Bignums Require BigN.BigN.
From stdpp Require Import gmap list strings sorting.

Open Scope Z_scope.

(** ** Outcomes and the state monad *)

(** The Python exceptions the modelled code can raise. *)
Inductive exn : Type :=
| ValueError | KeyError | TypeError | AttributeError
| OverflowError | ZeroDivisionError | OSError | JSONDecodeError.

(** A call returns, raises, or is cut by the bound put on an unbounded
    [while] loop ([OutOfFuel] is an artefact of the model, not a Python
    outcome: no [try] catches it). *)
Inductive outcome (A : Type) : Type :=
| Ret (a : A)
| Raise (e : exn)
| OutOfFuel.
Arguments Ret {A} a.
Arguments Raise {A} e.
Arguments OutOfFuel {A}.

Definition M (S A : Type) : Type := S -> outcome A * S.

Definition ret {S A : Type} (a : A) : M S A := fun s => (Ret a, s).
Definition raise {S A : Type} (e : exn) : M S A := fun s => (Raise e, s).
Definition bind {S A B : Type} (m : M S A) (k : A -> M S B) : M S B :=
  fun s =>
    match m s with
    | (Ret a, s') => k a s'
    | (Raise e, s') => (Raise e, s')
    | (OutOfFuel, s') => (OutOfFuel, s')
    end.
Definition get_state {S : Type} : M S S := fun s => (Ret s, s).
Definition modify {S : Type} (f : S -> S) : M S unit := fun s => (Ret tt, f s).

(** [try: body except Exception: handler]. *)
Definition try_except {S A : Type} (body : M S A) (handler : exn -> M S A) : M S A :=
  fun s =>
    match body s with
    | (Raise e, s') => handler e s'
    | r => r
    end.


(** A computation keeps a relation between the state it starts in and the
    state it ends in, whatever its outcome. *)
Definition preserves {S A : Type} (R : S -> S -> Prop) (m : M S A) : Prop :=
  forall s, R s (snd (m s)).

Declare Scope py_scope.
Delimit Scope py_scope with py.
Notation "'let*' x ':=' m 'in' k" := (bind m (fun x => k))
  (at level 10, x name, m at level 100, k at level 200) : py_scope.
Open Scope py_scope.

(** ** PrimeCache: the bounded recency cache *)

Module PrimeCache.

(** [self.cache] is a dict from integers to verdicts, [self.access_order]
    a deque of keys, oldest first.  The lock serialises the calls and has
    no state of its own in a sequential model. *)
Record t : Type := mk {
  max_size : Z;
  cache : gmap Z bool;
  access_order : list Z
}.

(** [PrimeCache.__init__]: the capacity is stored as given. *)
Definition init (max_size : Z) : t := mk max_size ∅ [].

(** [deque.remove(n)]: drops the first occurrence; [None] stands for the
    [ValueError] raised when there is none. *)
Fixpoint deque_remove (n : Z) (l : list Z) : option (list Z) :=
  match l with
  | [] => None
  | x :: l' => if decide (x = n) then Some l' else cons x <$> deque_remove n l'
  end.

Definition get (n : Z) : M t (option bool) := fun c =>
  match cache c !! n with
  | Some v =>
      match deque_remove n (access_order c) with
      | None => (Raise ValueError, c)
      | Some l => (Ret (Some v), mk (max_size c) (cache c) (l ++ [n]))
      end
  | None => (Ret None, c)
  end.

(** The last two statements of [put]: [self.cache[n] = is_prime] and
    [self.access_order.append(n)]. *)
Definition store (n : Z) (is_prime : bool) : M t unit := fun c =>
  (Ret tt, mk (max_size c) (<[n := is_prime]> (cache c)) (access_order c ++ [n])).

Definition put (n : Z) (is_prime : bool) : M t unit := fun c =>
  if max_size c =? 0 then (Ret tt, c)
  else
    match cache c !! n with
    | Some _ =>
        match deque_remove n (access_order c) with
        | None => (Raise ValueError, c)
        | Some l => store n is_prime (mk (max_size c) (cache c) l)
        end
    | None =>
        if Z.of_nat (size (cache c)) >=? max_size c then
          match access_order c with
          | [] => store n is_prime c
          | oldest :: rest =>
              match cache c !! oldest with
              | None => (Raise KeyError, mk (max_size c) (cache c) rest)
              | Some _ => store n is_prime (mk (max_size c) (delete oldest (cache c)) rest)
              end
          end
        else store n is_prime c
    end.

Definition size (c : t) : Z := Z.of_nat (stdpp.base.size (cache c)).

(** A call of the public interface, and a finite sequence of calls. *)
Inductive op : Type :=
| Get (n : Z)
| Put (n : Z) (is_prime : bool).

Definition key (o : op) : Z :=
  match o with Get n => n | Put n _ => n end.

Definition run_op (o : op) : M t unit :=
  match o with
  | Get n => let* _ := get n in ret tt
  | Put n v => put n v
  end.

Fixpoint run (ops : list op) : M t unit :=
  match ops with
  | [] => ret tt
  | o :: ops' => let* _ := run_op o in run ops'
  end.

(** The dict and the deque agree: the deque lists the keys of the dict,
    each once. *)
Definition consistent (c : t) : Prop :=
  NoDup (access_order c) ∧ ∀ k, k ∈ access_order c ↔ is_Some (cache c !! k).

Definition bounded (c : t) : Prop := size c <= max_size c.

(** [more_recent ops b a]: in the history [ops], key [b] was looked up or
    recorded after the last time key [a] was. *)
Definition more_recent (ops : list op) (b a : Z) : Prop :=
  ∃ ops1 ops2, ops = ops1 ++ ops2
    ∧ (∃ o, o ∈ ops2 ∧ key o = b)
    ∧ (∀ o, o ∈ ops2 → key o ≠ a).

(** The deque runs from the least to the most recently used key. *)
Definition recency_sorted (ops : list op) (c : t) : Prop :=
  StronglySorted (fun a b => more_recent ops b a) (access_order c).

End PrimeCache.

(** ** Python values *)

(** The values [json.load] returns, which are also the values an attribute
    of the statistics object may hold.  In a [PDict] the keys are pairwise
    distinct, as in a Python dict; the entries are kept in insertion order. *)
#[warnings="-register-all"]
Inductive pyval : Type :=
| PNone
| PBool (b : bool)
| PInt (z : Z)
| PFloat (f : float)
| PStr (s : string)
| PList (l : list pyval)
| PDict (d : list (string * pyval)).

Definition lift {S A : Type} (o : outcome A) : M S A := fun s => (o, s).

(** [float(z)] for an int [z]: rounded to the nearest binary64 value, ties
    to even; [OverflowError] when that is no finite float. *)
Definition Z2float (z : Z) : float := SF2Prim (binary_normalize prec emax z 0 false).

Definition float_of_int (z : Z) : outcome float :=
  let f := Z2float z in
  if is_infinity f then Raise OverflowError else Ret f.
Arguments float_of_int : simpl never.

(** Python compares an int with a float by value, without rounding the
    int.  [None]: the float is a NaN, every comparison is false. *)
Definition Z_compare_float (z : Z) (f : float) : option comparison :=
  match Prim2SF f with
  | S754_nan => None
  | S754_infinity s => Some (if s then Gt else Lt)
  | S754_zero _ => Some (z ?= 0)
  | S754_finite s m e =>
      let v := if s then Z.neg m else Z.pos m in
      Some (if 0 <=? e then z ?= v * 2 ^ e else z * 2 ^ (- e) ?= v)
  end.

(** [x + 1], as in the statement [x += 1]. *)
Definition py_add_one (x : pyval) : outcome pyval :=
  match x with
  | PInt z => Ret (PInt (z + 1))
  | PBool b => Ret (PInt (Z.b2z b + 1))
  | PFloat f => Ret (PFloat (f + 1)%float)
  | _ => Raise TypeError
  end.

(** [g > x] and [g < x] for an int [g]. *)
Definition py_int_gt (g : Z) (x : pyval) : outcome bool :=
  match x with
  | PInt z => Ret (z <? g)
  | PBool b => Ret (Z.b2z b <? g)
  | PFloat f => Ret (match Z_compare_float g f with Some Gt => true | _ => false end)
  | _ => Raise TypeError
  end.

Definition py_int_lt (g : Z) (x : pyval) : outcome bool :=
  match x with
  | PInt z => Ret (g <? z)
  | PBool b => Ret (g <? Z.b2z b)
  | PFloat f => Ret (match Z_compare_float g f with Some Lt => true | _ => false end)
  | _ => Raise TypeError
  end.

(** [max(x, g)] and [min(x, g)]: the second argument replaces the first
    when it is strictly greater (smaller), else the first is returned as it
    is. *)
Definition py_max (x : pyval) (g : Z) : outcome pyval :=
  match py_int_gt g x with
  | Ret b => Ret (if b then PInt g else x)
  | Raise e => Raise e
  | OutOfFuel => OutOfFuel
  end.

Definition py_min (x : pyval) (g : Z) : outcome pyval :=
  match py_int_lt g x with
  | Ret b => Ret (if b then PInt g else x)
  | Raise e => Raise e
  | OutOfFuel => OutOfFuel
  end.

(** [x == k] for an int [k]; [==] never raises. *)
Definition py_eq_int (x : pyval) (k : Z) : bool :=
  match x with
  | PInt z => z =? k
  | PBool b => Z.b2z b =? k
  | PFloat f => match Z_compare_float k f with Some Eq => true | _ => false end
  | _ => false
  end.

(** The number [x] as a float operand of [*] or [/]. *)
Definition py_as_float (x : pyval) : outcome float :=
  match x with
  | PFloat f => Ret f
  | PInt z => float_of_int z
  | PBool b => float_of_int (Z.b2z b)
  | _ => Raise TypeError
  end.

(** [c * x] for a float [c], and [x / d] for a float [d] that is not zero. *)
Definition py_float_mul (c : float) (x : pyval) : outcome float :=
  match py_as_float x with
  | Ret f => Ret (c * f)%float
  | Raise e => Raise e
  | OutOfFuel => OutOfFuel
  end.

Definition py_div_float (x : pyval) (d : float) : outcome float :=
  match py_as_float x with
  | Ret f => Ret (f / d)%float
  | Raise e => Raise e
  | OutOfFuel => OutOfFuel
  end.

(** ** Binary strings *)

Fixpoint zeros (k : nat) : string :=
  match k with
  | O => EmptyString
  | S k' => String "0" (zeros k')
  end.

(** The binary digits of a positive number, most significant first. *)
Fixpoint bin_digits (p : positive) : string :=
  match p with
  | xH => "1"
  | xO p' => bin_digits p' ++ "0"
  | xI p' => bin_digits p' ++ "1"
  end.

(** [format(n, '0{width}b')] for [width >= 0]: sign, then zeros up to the
    width, then the digits; a number wider than [width] is printed in full. *)
Definition format_0b (n : Z) (width : Z) : string :=
  let sign := match n with Zneg _ => "-" | _ => EmptyString end in
  let digits := match n with Z0 => "0" | Zpos p => bin_digits p | Zneg p => bin_digits p end in
  let pad := Z.to_nat (width - Z.of_nat (String.length sign) - Z.of_nat (String.length digits)) in
  sign ++ zeros pad ++ digits.

(** [n.bit_length()]. *)
Definition bit_length (n : Z) : Z :=
  if n =? 0 then 0 else Z.log2 (Z.abs n) + 1.

(** The number a string of binary digits denotes. *)
Fixpoint bin_value_acc (acc : Z) (s : string) : Z :=
  match s with
  | EmptyString => acc
  | String c s' => bin_value_acc (2 * acc + (if Ascii.eqb c "1" then 1 else 0)) s'
  end.
Definition bin_value (s : string) : Z := bin_value_acc 0 s.

Fixpoint binary_string (s : string) : Prop :=
  match s with
  | EmptyString => True
  | String c s' => (c = "0"%char \/ c = "1"%char) /\ binary_string s'
  end.

(** ** BinaryPrimeEngine *)

Module BinaryPrimeEngine.

(** The dataclass [PrimeStats].  An attribute holds whatever value was
    last assigned to it: the annotations are not enforced, and the
    statistics restored from a file are stored as they were read.
    [dataclass_fields] is the instance attribute [__dataclass_fields__],
    when the instance has one: it then hides the attribute of the class,
    which is the list of fields [asdict] goes by. *)
Record PrimeStats : Type := mkStats {
  total_primes : pyval;
  total_candidates : pyval;
  total_time : pyval;
  avg_gap : pyval;
  max_gap : pyval;
  min_gap : pyval;
  primes_per_second : pyval;
  cache_hits : pyval;
  cache_size : pyval;
  dataclass_fields : option pyval
}.

(** [PrimeStats()]: the declared defaults; [min_gap] starts at
    [float('inf')]; the instance has no attribute besides the fields. *)
Definition PrimeStats_default : PrimeStats :=
  mkStats (PInt 0) (PInt 0) (PFloat 0) (PFloat 0) (PInt 0)
          (PFloat infinity) (PFloat 0) (PInt 0) (PInt 0) None.

(** What is found at the path [self.db_file]: nothing, a file that
    [open] refuses, a file that [json.load] refuses, or a file that
    parses to [data]. *)
Inductive file_state : Type :=
| NoFile
| Unreadable
| Unparsable
| Content (data : pyval).

(** The engine object, with the part of the world its methods touch: the
    file behind [db_file], whether it can be written, and the successive
    readings of [time.time()].  A set of codes is modelled by the list of
    its elements, in no particular order. *)
Record t : Type := mk {
  cache : PrimeCache.t;
  stats : PrimeStats;
  code_db : list pyval;
  running : bool;
  save_interval : Z;
  progress_interval : Z;
  db_file : file_state;
  db_writable : bool;
  clock : nat -> float;
  ticks : nat
}.

Definition set_cache (c : PrimeCache.t) (e : t) : t :=
  mk c (stats e) (code_db e) (running e) (save_interval e) (progress_interval e)
     (db_file e) (db_writable e) (clock e) (ticks e).
Definition set_stats (s : PrimeStats) (e : t) : t :=
  mk (cache e) s (code_db e) (running e) (save_interval e) (progress_interval e)
     (db_file e) (db_writable e) (clock e) (ticks e).
Definition set_code_db (d : list pyval) (e : t) : t :=
  mk (cache e) (stats e) d (running e) (save_interval e) (progress_interval e)
     (db_file e) (db_writable e) (clock e) (ticks e).
Definition set_db_file (f : file_state) (e : t) : t :=
  mk (cache e) (stats e) (code_db e) (running e) (save_interval e) (progress_interval e)
     f (db_writable e) (clock e) (ticks e).
Definition set_ticks (k : nat) (e : t) : t :=
  mk (cache e) (stats e) (code_db e) (running e) (save_interval e) (progress_interval e)
     (db_file e) (db_writable e) (clock e) k.

Definition set_total_primes (v : pyval) (s : PrimeStats) : PrimeStats :=
  mkStats v (total_candidates s) (total_time s) (avg_gap s) (max_gap s) (min_gap s)
          (primes_per_second s) (cache_hits s) (cache_size s)
          (dataclass_fields s).
Definition set_total_candidates (v : pyval) (s : PrimeStats) : PrimeStats :=
  mkStats (total_primes s) v (total_time s) (avg_gap s) (max_gap s) (min_gap s)
          (primes_per_second s) (cache_hits s) (cache_size s)
          (dataclass_fields s).
Definition set_total_time (v : pyval) (s : PrimeStats) : PrimeStats :=
  mkStats (total_primes s) (total_candidates s) v (avg_gap s) (max_gap s) (min_gap s)
          (primes_per_second s) (cache_hits s) (cache_size s)
          (dataclass_fields s).
Definition set_avg_gap (v : pyval) (s : PrimeStats) : PrimeStats :=
  mkStats (total_primes s) (total_candidates s) (total_time s) v (max_gap s) (min_gap s)
          (primes_per_second s) (cache_hits s) (cache_size s)
          (dataclass_fields s).
Definition set_max_gap (v : pyval) (s : PrimeStats) : PrimeStats :=
  mkStats (total_primes s) (total_candidates s) (total_time s) (avg_gap s) v (min_gap s)
          (primes_per_second s) (cache_hits s) (cache_size s)
          (dataclass_fields s).
Definition set_min_gap (v : pyval) (s : PrimeStats) : PrimeStats :=
  mkStats (total_primes s) (total_candidates s) (total_time s) (avg_gap s) (max_gap s) v
          (primes_per_second s) (cache_hits s) (cache_size s)
          (dataclass_fields s).
Definition set_primes_per_second (v : pyval) (s : PrimeStats) : PrimeStats :=
  mkStats (total_primes s) (total_candidates s) (total_time s) (avg_gap s) (max_gap s)
          (min_gap s) v (cache_hits s) (cache_size s)
          (dataclass_fields s).
Definition set_cache_hits (v : pyval) (s : PrimeStats) : PrimeStats :=
  mkStats (total_primes s) (total_candidates s) (total_time s) (avg_gap s) (max_gap s)
          (min_gap s) (primes_per_second s) v (cache_size s)
          (dataclass_fields s).
Definition set_cache_size (v : pyval) (s : PrimeStats) : PrimeStats :=
  mkStats (total_primes s) (total_candidates s) (total_time s) (avg_gap s) (max_gap s)
          (min_gap s) (primes_per_second s) (cache_hits s) v
          (dataclass_fields s).
Definition set_dataclass_fields (v : option pyval) (s : PrimeStats) : PrimeStats :=
  mkStats (total_primes s) (total_candidates s) (total_time s) (avg_gap s) (max_gap s)
          (min_gap s) (primes_per_second s) (cache_hits s) (cache_size s) v.

(** A method of [self.cache] called from the engine. *)
Definition with_cache {A : Type} (m : M PrimeCache.t A) : M t A := fun e =>
  let (r, c) := m (cache e) in (r, set_cache c e).

(** Reading and assigning an attribute of [self.stats]. *)
Definition stat (field : PrimeStats -> pyval) : M t pyval := fun e =>
  (Ret (field (stats e)), e).
Definition assign (setter : pyval -> PrimeStats -> PrimeStats) (v : pyval) : M t unit :=
  modify (fun e => set_stats (setter v (stats e)) e).

(** [time.time()]. *)
Definition time_time : M t float := fun e =>
  (Ret (clock e (ticks e)), set_ticks (S (ticks e)) e).

(** *** binary_code *)

Definition binary_code (n : Z) (bits : option Z) : outcome string :=
  match bits with
  | None =>
      if n =? 0 then Ret "0"%string
      else
        let bits := bit_length n in
        let bits := ((bits + 3) / 4) * 4 in
        let bits := Z.max bits 8 in
        Ret (format_0b n bits)
  | Some bits =>
      (* a negative width is no format specification *)
      if bits <? 0 then Raise ValueError else Ret (format_0b n bits)
  end.

(** [self.code_db.add(code)] for a string [code]. *)
Definition code_mem (code : string) (db : list pyval) : bool :=
  existsb (fun v => match v with PStr s => String.eqb s code | _ => false end) db.
Definition code_db_add (code : string) : M t unit :=
  modify (fun e =>
    if code_mem code (code_db e) then e else set_code_db (code_db e ++ [PStr code]) e).

(** *** is_prime_optimized *)

(** [math.sqrt(n)] for an int [n].  The argument is converted to a
    float first, which fails from [2^1024] on; a negative argument is
    outside the domain; the root is the correctly rounded binary64 one. *)
Definition math_sqrt (n : Z) : outcome float :=
  match float_of_int n with
  | Ret f => if (f <? 0)%float then Raise ValueError else Ret (PrimFloat.sqrt f)
  | Raise e => Raise e
  | OutOfFuel => OutOfFuel
  end.

(** [int(f)] for a float [f]: the integer part, read off the mantissa and
    the exponent of [f].  [frshiftexp f] is [(m, e)] with
    [f = m * 2^(e - 2101)] and [1/2 <= |m| < 1], and [normfr_mantissa m]
    is [|m| * 2^53]. *)
Definition int_of_float (f : float) : outcome Z :=
  if is_nan f then Raise ValueError
  else if is_infinity f then Raise OverflowError
  else
    let (m, e) := frshiftexp f in
    let mant := Uint63.to_Z (normfr_mantissa m) in
    let ex := Uint63.to_Z e - 2154 in
    let a := if 0 <=? ex then mant * 2 ^ ex else mant / 2 ^ (- ex) in
    Ret (if get_sign f then - a else a).

(** [int(math.sqrt(n))]. *)
Definition int_sqrt (n : Z) : outcome Z :=
  match math_sqrt n with
  | Ret root => int_of_float root
  | Raise e => Raise e
  | OutOfFuel => OutOfFuel
  end.

(** The same computation on a machine integer [i], with the test that it
    goes through and that its result is the integer square root of [i];
    [sqrt_check] runs the test over consecutive machine integers. *)
Definition sqrt_exact (i : PrimInt63.int) : bool :=
  let f := of_uint63 i in
  let root := PrimFloat.sqrt f in
  let (m, e) := frshiftexp root in
  let r := PrimInt63.lsr (normfr_mantissa m) (PrimInt63.sub 2154%uint63 e) in
  negb (is_infinity f) && negb (f <? 0)%float
  && negb (is_nan root) && negb (is_infinity root) && negb (get_sign root)
  && PrimInt63.ltb e 2154%uint63
  && PrimInt63.leb r 2000%uint63
  && PrimInt63.leb (PrimInt63.mul r r) i
  && PrimInt63.ltb i (PrimInt63.mul (PrimInt63.add r 1%uint63) (PrimInt63.add r 1%uint63)).

Definition sqrt_check_step (st : PrimInt63.int * bool) : PrimInt63.int * bool :=
  let (i, ok) := st in (PrimInt63.add i 1%uint63, ok && sqrt_exact i).

Definition sqrt_check (count : positive) : PrimInt63.int * bool :=
  Pos.iter sqrt_check_step (0%uint63, true) count.

Definition small_primes : list Z := [3; 5; 7; 11; 13; 17; 19; 23; 29; 31].

(** The [for] loop over [small_primes]: [true] when it hits a divisor
    (the code then returns [False]), [false] when it breaks or ends. *)
Fixpoint small_divisor (n limit : Z) (ps : list Z) : bool :=
  match ps with
  | [] => false
  | p :: ps' =>
      if p >=? limit then false
      else if n mod p =? 0 then true
      else small_divisor n limit ps'
  end.

(** The [while d < limit] loop: [true] when it hits a divisor. *)
Equations? odd_divisor (n limit d : Z) : bool by wf (Z.to_nat (limit - d)) lt :=
  odd_divisor n limit d with Z_lt_dec d limit => {
    | left _ => if n mod d =? 0 then true else odd_divisor n limit (d + 2)
    | right _ => false }.
Proof. lia. Qed.

(** The two statements before each [return False]. *)
Definition record_composite (n : Z) : M t unit :=
  let* _ := with_cache (PrimeCache.put n false) in
  let* code := lift (binary_code n None) in
  code_db_add code.

Definition is_prime_optimized (n : Z) : M t bool :=
  if n <? 2 then ret false
  else if n =? 2 then ret true
  else if n mod 2 =? 0 then ret false
  else
    let* cached := with_cache (PrimeCache.get n) in
    match cached with
    | Some v =>
        let* hits := stat cache_hits in
        let* hits := lift (py_add_one hits) in
        let* _ := assign set_cache_hits hits in
        ret v
    | None =>
        let* root := lift (math_sqrt n) in
        let* root := lift (int_of_float root) in
        let limit := root + 1 in
        if small_divisor n limit small_primes then
          let* _ := record_composite n in ret false
        else if odd_divisor n limit 37 then
          let* _ := record_composite n in ret false
        else
          let* _ := with_cache (PrimeCache.put n true) in ret true
    end.

(** What the two loops compute with a given limit, and what the test
    answers when the cache plays no part. *)
Definition trial_division (n limit : Z) : bool :=
  negb (small_divisor n limit small_primes) && negb (odd_divisor n limit 37).

Definition verdict (n : Z) : outcome bool :=
  if n <? 2 then Ret false
  else if n =? 2 then Ret true
  else if n mod 2 =? 0 then Ret false
  else
    match int_sqrt n with
    | Ret root => Ret (trial_division n (root + 1))
    | Raise e => Raise e
    | OutOfFuel => OutOfFuel
    end.

(** The cache is a memo of the test: a cached verdict is the one the test
    would compute again. *)
Definition cache_sound (e : t) : Prop :=
  forall n v, PrimeCache.cache (cache e) !! n = Some v -> verdict n = Ret v.

(** The reference definition of primality. *)
Definition ref_prime (n : Z) : Prop :=
  2 <= n /\ forall d, 2 <= d < n -> ~ (d | n).

(** The divisors the test tries: the small odd primes, then every odd
    number from 37 on. *)
Definition trial_divisor (d : Z) : Prop :=
  d ∈ small_primes \/ exists k, 0 <= k /\ d = 37 + 2 * k.

(** *** next_prime *)

(** [self.stats.total_candidates += 1]. *)
Definition count_candidate : M t unit :=
  let* c := stat total_candidates in
  let* c := lift (py_add_one c) in
  assign set_total_candidates c.

(** The [while not self.is_prime_optimized(n)] loop; [fuel] bounds the
    number of times its condition is evaluated. *)
Fixpoint next_prime_loop (fuel : nat) (n : Z) : M t Z :=
  match fuel with
  | O => lift OutOfFuel
  | S fuel' =>
      let* p := is_prime_optimized n in
      if p then ret n
      else
        let n := n + 2 in
        let* _ := count_candidate in
        next_prime_loop fuel' n
  end.

Definition next_prime (fuel : nat) (n : Z) : M t Z :=
  let* _ := count_candidate in
  if n <? 2 then ret 2
  else if n =? 2 then ret 3
  else
    let n := if n mod 2 =? 0 then n + 1 else n in
    next_prime_loop fuel n.

(** *** _update_stats *)

#[warnings="-inexact-float"]
Definition alpha : float := 0.1%float.

Definition _update_stats (gap : Z) (elapsed : float) : M t unit :=
  let* n := stat total_primes in
  let* n := lift (py_add_one n) in
  let* _ := assign set_total_primes n in
  let* _ := assign set_total_time (PFloat elapsed) in
  let* e := get_state in
  let* _ := assign set_cache_size (PInt (PrimeCache.size (cache e))) in
  let* _ :=
    if gap >? 0 then
      let* m := stat max_gap in
      let* m := lift (py_max m gap) in
      let* _ := assign set_max_gap m in
      let* m := stat min_gap in
      let* m := lift (py_min m gap) in
      let* _ := assign set_min_gap m in
      let* n := stat total_primes in
      if py_eq_int n 1 then assign set_avg_gap (PInt gap)
      else
        let* a := stat avg_gap in
        let* x := lift (py_float_mul (1 - alpha)%float a) in
        let* y := lift (py_float_mul alpha (PInt gap)) in
        assign set_avg_gap (PFloat (x + y)%float)
    else ret tt in
  if (0 <? elapsed)%float then
    let* n := stat total_primes in
    let* r := lift (py_div_float n elapsed) in
    assign set_primes_per_second (PFloat r)
  else ret tt.

(** *** The persisted state *)

(** The nine fields with their values, in the order of their declaration. *)
Definition stats_record (s : PrimeStats) : pyval :=
  PDict [("total_primes", total_primes s); ("total_candidates", total_candidates s);
         ("total_time", total_time s); ("avg_gap", avg_gap s); ("max_gap", max_gap s);
         ("min_gap", min_gap s); ("primes_per_second", primes_per_second s);
         ("cache_hits", cache_hits s); ("cache_size", cache_size s)]%string.

(** [asdict(self.stats)].  The fields are those of
    [self.stats.__dataclass_fields__], looked up on the instance: the nine
    declared ones as long as the class attribute is in sight.  An instance
    attribute of that name stands in for it: [asdict] calls its [values()]
    and reads [_field_type] off each, so that an empty dict gives an empty
    record, and any other value read from a file has no [values], or has
    values without [_field_type]. *)
Definition asdict (s : PrimeStats) : outcome pyval :=
  match dataclass_fields s with
  | None => Ret (stats_record s)
  | Some (PDict []) => Ret (PDict [])
  | Some _ => Raise AttributeError
  end.

(** [_save_database]: the record is built, statistics before timestamp,
    and then written: the file gets the whole record, or, when the record
    cannot be built or the file cannot be opened for writing, stays as it
    was; the error is logged. *)
Definition _save_database : M t unit :=
  try_except
    (let* e := get_state in
     let* st := lift (asdict (stats e)) in
     let* now := time_time in
     let data := PDict [("codes", PList (code_db e)); ("stats", st);
                        ("timestamp", PFloat now); ("version", PStr "2.0")]%string in
     if db_writable e then modify (set_db_file (Content data)) else raise OSError)
    (fun _ => ret tt).

Definition hashable (v : pyval) : bool :=
  match v with
  | PList _ | PDict _ => false
  | _ => true
  end.

(** [x == y] between two values a set can hold, as the set compares its
    elements: numbers by value whatever their types ([True == 1 == 1.0]),
    strings with strings, [None] with itself.  [json.load] returns one and
    the same object for every [NaN] it reads, and a set takes an object for
    equal to itself. *)
Definition py_eqb (x y : pyval) : bool :=
  match x, y with
  | PNone, PNone => true
  | PStr s, PStr s' => String.eqb s s'
  | PBool a, PBool b => Bool.eqb a b
  | PBool a, PInt b => Z.b2z a =? b
  | PInt a, PBool b => a =? Z.b2z b
  | PInt a, PInt b => a =? b
  | PBool a, PFloat g =>
      match Z_compare_float (Z.b2z a) g with Some Eq => true | _ => false end
  | PInt a, PFloat g => match Z_compare_float a g with Some Eq => true | _ => false end
  | PFloat f, PBool b =>
      match Z_compare_float (Z.b2z b) f with Some Eq => true | _ => false end
  | PFloat f, PInt b => match Z_compare_float b f with Some Eq => true | _ => false end
  | PFloat f, PFloat g => (f =? g)%float || (is_nan f && is_nan g)
  | _, _ => false
  end.

(** The elements of [l] as a set takes them in, one after the other: an
    element equal to one of [seen], the elements taken in before, is
    dropped. *)
Fixpoint py_dedup (seen l : list pyval) : list pyval :=
  match l with
  | [] => []
  | x :: l' =>
      if existsb (py_eqb x) seen then py_dedup seen l'
      else x :: py_dedup (x :: seen) l'
  end.


(** [set(x)]: the elements of a list, when all can be hashed, the
    characters of a string, the keys of a dict, each once; nothing else
    iterates. *)
Definition py_set (x : pyval) : outcome (list pyval) :=
  match x with
  | PList l => if forallb hashable l then Ret (py_dedup [] l) else Raise TypeError
  | PStr s =>
      Ret (py_dedup [] (map (fun c => PStr (String c EmptyString)) (list_ascii_of_string s)))
  | PDict d => Ret (py_dedup [] (map (fun kv => PStr (fst kv)) d))
  | _ => Raise TypeError
  end.

(** [d.get(key)] on a dict. *)
Fixpoint dict_get (key : string) (d : list (string * pyval)) : option pyval :=
  match d with
  | [] => None
  | (k, v) :: d' => if String.eqb k key then Some v else dict_get key d'
  end.

(** [x.items()]: only a dict has the method. *)
Definition py_items (x : pyval) : outcome (list (string * pyval)) :=
  match x with
  | PDict d => Ret d
  | _ => Raise AttributeError
  end.

(** The instance attributes a dict [d] assigned to [__dict__] gives the
    statistics object: a field is read from [d], or from the class, where
    the dataclass keeps its default; [__dataclass_fields__] is an instance
    attribute when [d] has it. *)
Definition stats_of_dict (d : list (string * pyval)) : PrimeStats :=
  let field name dflt := default (dflt PrimeStats_default) (dict_get name d) in
  mkStats (field "total_primes" total_primes) (field "total_candidates" total_candidates)
          (field "total_time" total_time) (field "avg_gap" avg_gap)
          (field "max_gap" max_gap) (field "min_gap" min_gap)
          (field "primes_per_second" primes_per_second)
          (field "cache_hits" cache_hits) (field "cache_size" cache_size)
          (dict_get "__dataclass_fields__" d)%string.

(** [if hasattr(self.stats, key): setattr(self.stats, key, value)].  A
    field takes the value.  Of the names an instance inherits, three have a
    setter of their own: [__class__] refuses what is not a class,
    [__dict__] what is not a dict, [__weakref__] everything.
    [__dataclass_fields__] becomes an instance attribute, which [asdict]
    reads from then on.  Any other name is absent, or becomes an instance
    attribute that nothing modelled here reads. *)
Definition setattr_stats (key : string) (v : pyval) (s : PrimeStats) : outcome PrimeStats :=
  if String.eqb key "total_primes" then Ret (set_total_primes v s)
  else if String.eqb key "total_candidates" then Ret (set_total_candidates v s)
  else if String.eqb key "total_time" then Ret (set_total_time v s)
  else if String.eqb key "avg_gap" then Ret (set_avg_gap v s)
  else if String.eqb key "max_gap" then Ret (set_max_gap v s)
  else if String.eqb key "min_gap" then Ret (set_min_gap v s)
  else if String.eqb key "primes_per_second" then Ret (set_primes_per_second v s)
  else if String.eqb key "cache_hits" then Ret (set_cache_hits v s)
  else if String.eqb key "cache_size" then Ret (set_cache_size v s)
  else if String.eqb key "__class__" then Raise TypeError
  else if String.eqb key "__dict__" then
    match v with
    | PDict d => Ret (stats_of_dict d)
    | _ => Raise TypeError
    end
  else if String.eqb key "__weakref__" then Raise AttributeError
  else if String.eqb key "__dataclass_fields__" then Ret (set_dataclass_fields (Some v) s)
  else Ret s.

(** The names on which [setattr] can raise. *)
Definition guarded_name (key : string) : bool :=
  String.eqb key "__class__" || String.eqb key "__dict__" || String.eqb key "__weakref__".

(** The loop over [data['stats'].items()]. *)
Fixpoint restore_stats (items : list (string * pyval)) : M t unit :=
  match items with
  | [] => ret tt
  | (key, value) :: items' =>
      let* e := get_state in
      let* s := lift (setattr_stats key value (stats e)) in
      let* _ := modify (set_stats s) in
      restore_stats items'
  end.

(** The statistics the loop leaves when no [setattr] raises. *)
Fixpoint restored (items : list (string * pyval)) (s : PrimeStats) : PrimeStats :=
  match items with
  | [] => s
  | (key, value) :: items' =>
      restored items'
        (match setattr_stats key value s with Ret s' => s' | _ => s end)
  end.

(** The nine fields by name. *)
Definition stats_fields : list (string * (PrimeStats -> pyval)) :=
  [("total_primes", total_primes); ("total_candidates", total_candidates);
   ("total_time", total_time); ("avg_gap", avg_gap); ("max_gap", max_gap);
   ("min_gap", min_gap); ("primes_per_second", primes_per_second);
   ("cache_hits", cache_hits); ("cache_size", cache_size)]%string.

(** The statistics [s'] are [s] with the entries of the dict [st] taken
    in: a field that [st] names has the value [st] gives it, a field that
    [st] does not name has the value it had; so has the instance attribute
    [__dataclass_fields__]. *)
Definition restored_from (st : list (string * pyval)) (s s' : PrimeStats) : Prop :=
  (forall name get, (name, get) ∈ stats_fields ->
     get s' = default (get s) (dict_get name st))
  /\ dataclass_fields s'
     = match dict_get "__dataclass_fields__" st with
       | Some v => Some v
       | None => dataclass_fields s
       end.


(** The body of the [try] in [_load_database]. *)
Definition load_body : M t unit :=
  let* e := get_state in
  match db_file e with
  | NoFile => ret tt
  | Unreadable => raise OSError
  | Unparsable => raise JSONDecodeError
  | Content data =>
      match data with
      | PList _ =>
          let* codes := lift (py_set data) in
          modify (set_code_db codes)
      | PDict d =>
          let* codes := lift (py_set (default (PList []) (dict_get "codes" d))) in
          let* _ := modify (set_code_db codes) in
          match dict_get "stats" d with
          | Some st =>
              let* items := lift (py_items st) in
              restore_stats items
          | None => ret tt
          end
      | _ => raise AttributeError
      end
  end.

Definition _load_database : M t unit :=
  try_except load_body (fun _ => modify (set_code_db [])).

(** *** __init__ *)

(** The entries of the configuration dict the constructor reads;
    [db_file] may hold any value. *)
Record Config : Type := mkConfig {
  cfg_db_file : option pyval;
  cfg_cache_size : option Z;
  cfg_save_interval : option Z;
  cfg_progress_interval : option Z
}.

(** [Path(x)]: a string is a path; no other value read here is. *)
Definition py_Path (x : pyval) : outcome unit :=
  match x with
  | PStr _ => Ret tt
  | _ => Raise TypeError
  end.

(** [signal.signal(signum, self._signal_handler)]: a handler can be
    installed from the main thread only.  The handler itself runs on a
    signal, which the model does not deliver. *)
Definition signal_signal (main_thread : bool) : M t unit :=
  if main_thread then ret tt else raise ValueError.

(** [BinaryPrimeEngine(config)], in a world where the file at the
    configured path is [file], can be written or not, the clock reads
    [clock 0], [clock 1], ..., and the caller runs in the main thread or
    not.  The path is made before anything else, outside any [try]. *)
Definition init (config : option Config) (file : file_state) (writable : bool)
    (clock : nat -> float) (main_thread : bool) : outcome unit * t :=
  let config := default (mkConfig None None None None) config in
  (let* _ := lift (py_Path (default (PStr "binary_codes.json") (cfg_db_file config))) in
   let* _ := _load_database in
   let* _ := signal_signal main_thread in
   signal_signal main_thread)
    (mk (PrimeCache.init (default 10000 (cfg_cache_size config)))
        PrimeStats_default [] true
        (default 1000 (cfg_save_interval config))
        (default 100 (cfg_progress_interval config))
        file writable clock O).

(** *** _log_progress *)

(** The log line is built before it is handed to the logger, and building
    it formats [self.stats.primes_per_second] with [:.2f]: a number is
    rendered, an int through its conversion to a float; a string has no
    such format code, and the other values no format at all.  The line
    itself has no part in the model. *)
Definition _log_progress : M t unit :=
  let* v := stat primes_per_second in
  match v with
  | PFloat _ | PBool _ => ret tt
  | PInt z => let* _ := lift (float_of_int z) in ret tt
  | PStr _ => raise ValueError
  | _ => raise TypeError
  end.

(** *** generate_primes *)

(** A generator object: not started yet, suspended at its [yield] with
    the values of its local variables, or finished. *)
Inductive generator : Type :=
| GenCreated (start : Z) (limit : option Z)
| GenSuspended (limit : option Z) (start_time : float) (count p : Z)
| GenDone.

(** One yielded triple [(count, p, gap)]. *)
Definition emission : Type := Z * Z * Z.

(** From the test of the [while] to the [yield], or to the end. *)
Definition gen_loop (fuel : nat) (limit : option Z) (start_time : float)
    (n : Z) (last_prime : option Z) (count : Z) : M t (option emission * generator) :=
  let* e := get_state in
  if running e && match limit with None => true | Some l => count <? l end then
    let* p := next_prime fuel n in
    let count := count + 1 in
    let gap := match last_prime with None => 0 | Some q => p - q end in
    let* now := time_time in
    let* _ := _update_stats gap (now - start_time)%float in
    ret (Some (count, p, gap), GenSuspended limit start_time count p)
  else
    let* _ := _save_database in
    ret (None, GenDone).

(** [next(g)]: runs the generator to its next [yield]; [None] is
    [StopIteration].  [count % 0] raises. *)
Definition gen_next (fuel : nat) (g : generator) : M t (option emission * generator) :=
  match g with
  | GenCreated start limit =>
      let* start_time := time_time in
      gen_loop fuel limit start_time start None 0
  | GenSuspended limit start_time count p =>
      let* e := get_state in
      let* _ :=
        if save_interval e =? 0 then raise ZeroDivisionError
        else if count mod save_interval e =? 0 then _save_database
        else ret tt in
      let* _ :=
        if progress_interval e =? 0 then raise ZeroDivisionError
        else if count mod progress_interval e =? 0 then _log_progress
        else ret tt in
      let last_prime := Some p in
      let n := p + 1 in
      gen_loop fuel limit start_time n last_prime count
  | GenDone => ret (None, GenDone)
  end.

(** The run of a generator: its emissions, each with the engine as the
    consumer finds it at that point, up to [k] of them; the run stops at
    the first call that yields nothing. *)
Fixpoint generate (fuel : nat) (k : nat) (g : generator) (e : t) : list (emission * t) :=
  match k with
  | O => []
  | S k' =>
      match gen_next fuel g e with
      | (Ret (Some r, g'), e') => (r, e') :: generate fuel k' g' e'
      | _ => []
      end
  end.

(** What the calls of the methods leave alone. *)
Definition same_env (e e' : t) : Prop :=
  running e' = running e /\ save_interval e' = save_interval e
  /\ progress_interval e' = progress_interval e
  /\ db_file e' = db_file e /\ db_writable e' = db_writable e
  /\ clock e' = clock e /\ ticks e' = ticks e
  /\ PrimeCache.max_size (cache e') = PrimeCache.max_size (cache e).

(** The attributes [_update_stats] keeps on the gaps, which no other
    method assigns. *)
Definition gap_stats_unchanged (s s' : PrimeStats) : Prop :=
  total_primes s' = total_primes s /\ avg_gap s' = avg_gap s
  /\ max_gap s' = max_gap s /\ min_gap s' = min_gap s.

(** The update of the gap statistics from [s0] to [s1] by an emission of
    gap [gap > 0] that is not the first: the average is smoothed with
    factor 0.1, the extrema take the gap in. *)
#[warnings="-inexact-float"]
Definition smoothed_update (s0 : PrimeStats) (gap : Z) (s1 : PrimeStats) : Prop :=
  0 < gap
  /\ (exists a g,
        avg_gap s0 = PFloat a /\ float_of_int gap = Ret g
        /\ avg_gap s1 = PFloat (0.9 * a + 0.1 * g)%float)
  /\ py_max (max_gap s0) gap = Ret (max_gap s1)
  /\ py_min (min_gap s0) gap = Ret (min_gap s1).

(** An engine in working order after [n] emissions: the cache is
    consistent and memoises the test, the loop flag is up, the intervals
    divide, and the statistics hold numbers of the declared kinds. *)
Definition ready (e : t) (n : Z) : Prop :=
  PrimeCache.consistent (cache e) /\ cache_sound e
  /\ running e = true /\ save_interval e <> 0 /\ progress_interval e <> 0
  /\ total_primes (stats e) = PInt n
  /\ (exists c, total_candidates (stats e) = PInt c)
  /\ (exists h, cache_hits (stats e) = PInt h)
  /\ (exists a, avg_gap (stats e) = PFloat a)
  /\ (exists m, max_gap (stats e) = PInt m)
  /\ (min_gap (stats e) = PFloat infinity \/ exists m, min_gap (stats e) = PInt m)
  /\ (exists r, primes_per_second (stats e) = PFloat r).

Definition keeps_gap_stats (e e' : t) : Prop := gap_stats_unchanged (stats e) (stats e').

(** [next_prime fuel n] returns [q] on [e] and leaves the engine in
    order. *)
Definition finds (fuel : nat) (n : Z) (e : t) (q : Z) : Prop :=
  exists e1 c h,
    next_prime fuel n e = (Ret q, e1)
    /\ PrimeCache.consistent (cache e1) /\ cache_sound e1 /\ same_env e e1
    /\ stats e1 = set_cache_hits (PInt h) (set_total_candidates (PInt c) (stats e)).

(** *** What the persistence and the bookkeeping leave alone *)

(** The record [_save_database] writes at the time [now], with all the
    statistics. *)
Definition saved_record (e : t) (now : float) : pyval :=
  PDict [("codes", PList (code_db e)); ("stats", stats_record (stats e));
         ("timestamp", PFloat now); ("version", PStr "2.0")]%string.

(** The record it writes when [asdict] finds no field. *)
Definition saved_record_no_stats (e : t) (now : float) : pyval :=
  PDict [("codes", PList (code_db e)); ("stats", PDict []);
         ("timestamp", PFloat now); ("version", PStr "2.0")]%string.

(** What the bookkeeping leaves alone: the cache, the registry and the
    environment. *)
Definition only_stats (e e' : t) : Prop :=
  cache e' = cache e /\ code_db e' = code_db e /\ same_env e e'.

(** The loop flag and the configured values, which only the constructor
    and the signal handler assign. *)
Definition same_config (e e' : t) : Prop :=
  running e' = running e /\ save_interval e' = save_interval e
  /\ progress_interval e' = progress_interval e /\ db_writable e' = db_writable e.

(** Each element of [l] after the first is the least prime above the
    element before it, as far as one million. *)
Definition consecutive_primes (l : list Z) : Prop :=
  forall i p0 p, l !! i = Some p0 -> l !! S i = Some p -> p <= 10 ^ 6 ->
    p0 < p /\ ref_prime p /\ forall q, p0 < q < p -> ~ ref_prime q.

(** *** generate_primes_to_count *)

(** The [for] loop over the generator: [next] is called until it raises
    [StopIteration], each yielded prime being appended to [primes];
    [steps] bounds the number of calls. *)
Fixpoint collect_primes (steps fuel : nat) (g : generator) (primes : list Z)
    : M t (list Z) :=
  match steps with
  | O => lift OutOfFuel
  | S steps' =>
      let* r := gen_next fuel g in
      match r with
      | (Some (count, prime, gap), g') => collect_primes steps' fuel g' (primes ++ [prime])
      | (None, _) => ret primes
      end
  end.

Definition generate_primes_to_count (steps fuel : nat) (target_count : Z) : M t (list Z) :=
  collect_primes steps fuel (GenCreated 1 (Some target_count)) [].

(** *** prime_engine_context *)


End BinaryPrimeEngine.

(** ** The fixed-width encoder of [binary_prime_engine_pro.py] *)

Module BinaryPrimeEnginePro.

(** [binary_code(n, bits=16)]: [n] is masked to its low [bits] bits before
    it is formatted.  [None] is the omitted argument.  A negative [bits]
    is a negative shift count. *)
Definition binary_code (n : Z) (bits : option Z) : outcome string :=
  let bits := default 16 bits in
  if bits <? 0 then Raise ValueError
  else Ret (format_0b (Z.land n (Z.shiftl 1 bits - 1)) bits).

End BinaryPrimeEnginePro.

(** ** A prime beyond the floats *)

(** [29 * 2^1053 + 1]: an odd number above every binary64 number, of the
    form [k * 2^m + 1] with [k < 2^m]. *)
Definition beyond_float : Z := 29 * 2 ^ 1053 + 1.

(** The check that makes a number [n] of that form a prime: for some [b],
    squaring [b] [m - 1] times modulo [n] gives [n - 1].  It is run on
    big numbers. *)
Definition square_mod (n x : Z) : Z := x * x mod n.

Definition big_square_mod (n x : BigN.BigN.t) : BigN.BigN.t :=
  BigN.BigN.modulo (BigN.BigN.mul x x) n.

Definition big_check (n b : N) (t : positive) : bool :=
  BigN.BigN.eqb
    (BigN.BigN.succ (Pos.iter (big_square_mod (BigN.BigN.of_N n)) (BigN.BigN.of_N b) t))
    (BigN.BigN.of_N n).

(** * Properties *)

(** ** The monad *)

Lemma bind_Ret {S A B : Type} (m : M S A) (k : A -> M S B) (s s' : S) (a : A) :
  m s = (Ret a, s') -> bind m k s = k a s'.
Proof. intros H. unfold bind. rewrite H. reflexivity. Qed.

Lemma bind_Raise {S A B : Type} (m : M S A) (k : A -> M S B) (s s' : S) (e : exn) :
  m s = (Raise e, s') -> bind m k s = (Raise e, s').
Proof. intros H. unfold bind. rewrite H. reflexivity. Qed.

Lemma bind_inv_Ret {S A B : Type} (m : M S A) (k : A -> M S B) (s s2 : S) (b : B) :
  bind m k s = (Ret b, s2) ->
  exists a s1, m s = (Ret a, s1) /\ k a s1 = (Ret b, s2).
Proof.
  unfold bind. destruct (m s) as [[a | e |] s1]; intros H; try discriminate.
  exists a, s1. split; [reflexivity | exact H].
Qed.

Lemma bind_assoc {S A B C : Type} (m : M S A) (k : A -> M S B) (h : B -> M S C) (s : S) :
  bind (bind m k) h s = bind m (fun a => bind (k a) h) s.
Proof. unfold bind. destruct (m s) as [[a | e |] s1]; reflexivity. Qed.

Lemma bind_ext {S A B : Type} (m : M S A) (k k' : A -> M S B) (s : S) :
  (forall a s1, k a s1 = k' a s1) -> bind m k s = bind m k' s.
Proof. intros H. unfold bind. destruct (m s) as [[a | e |] s1]; auto. Qed.

(** ** The cache *)

Section cache_facts.
Import PrimeCache.

Lemma deque_remove_split (n : Z) (l l' : list Z) :
  deque_remove n l = Some l' ->
  exists l1 l2, l = l1 ++ (n :: l2) /\ (n ∉ l1) /\ l' = l1 ++ l2.
Proof.
  revert l'. induction l as [| x l IH]; intros l' H; simpl in H; [discriminate |].
  destruct (decide (x = n)) as [-> | Hne].
  - injection H as <-. exists [], l. split_and!; [reflexivity | apply not_elem_of_nil | reflexivity].
  - destruct (deque_remove n l) as [r |] eqn:E; simpl in H; [| discriminate].
    injection H as <-. destruct (IH r eq_refl) as (l1 & l2 & -> & Hn & ->).
    exists (x :: l1), l2. split_and!; [reflexivity | | reflexivity].
    rewrite not_elem_of_cons. split; [congruence | exact Hn].
Qed.

Lemma deque_remove_is_Some (n : Z) (l : list Z) :
  n ∈ l -> is_Some (deque_remove n l).
Proof.
  induction l as [| x l IH]; intros H; [by apply elem_of_nil in H |].
  simpl. destruct (decide (x = n)) as [| Hne]; [by eexists |].
  apply elem_of_cons in H as [-> | H]; [congruence |].
  destruct (IH H) as [r ->]. by eexists.
Qed.

(** Removing a key from a duplicate-free deque leaves the other keys, in
    their order. *)
Lemma deque_remove_NoDup (n : Z) (l l' : list Z) :
  NoDup l -> deque_remove n l = Some l' ->
  NoDup l' /\ (forall k, k ∈ l' <-> k ∈ l /\ k <> n) /\ l' `sublist_of` l.
Proof.
  intros Hnd H. destruct (deque_remove_split _ _ _ H) as (l1 & l2 & -> & Hn & ->).
  apply NoDup_app in Hnd as (Hnd1 & Hdisj & Hnd2).
  apply NoDup_cons in Hnd2 as [Hn2 Hnd2].
  split_and!.
  - apply NoDup_app. split_and!; [done | | done].
    intros x Hx Hx2. apply (Hdisj x Hx). by apply elem_of_cons; right.
  - intros k. rewrite !elem_of_app, elem_of_cons. split.
    + intros [Hk | Hk]; (split; [tauto |]); intros ->; tauto.
    + tauto.
  - apply sublist_app; [done |]. by apply sublist_cons.
Qed.

Lemma consistent_init (m : Z) : consistent (init m).
Proof.
  split; simpl; [apply NoDup_nil_2 |].
  intros k. rewrite lookup_empty. split; [by intros H%elem_of_nil | by intros [? ?]].
Qed.

Lemma consistent_size (c : t) :
  consistent c -> stdpp.base.size (cache c) = length (access_order c).
Proof.
  intros [Hnd Hel].
  rewrite <- size_dom, <- (size_list_to_set (C := gset Z)) by exact Hnd.
  f_equal. apply set_eq. intros k.
  rewrite elem_of_dom, elem_of_list_to_set. symmetry. apply Hel.
Qed.

Lemma consistent_store (n : Z) (v : bool) (c : t) :
  consistent c -> cache c !! n = None ->
  consistent (snd (store n v c)) /\ fst (store n v c) = Ret tt.
Proof.
  intros [Hnd Hel] Hn. split; [| reflexivity]. split; simpl.
  - apply NoDup_app. split_and!; [done | | apply NoDup_singleton].
    intros x Hx ->%list_elem_of_singleton.
    apply Hel in Hx as [? Hx]. congruence.
  - intros k. rewrite elem_of_app, list_elem_of_singleton, lookup_insert_is_Some, Hel.
    split; [intros [? | ->] | intros [-> | [? ?]]]; auto.
    destruct (decide (n = k)); auto.
Qed.

Lemma get_consistent (n : Z) (c : t) :
  consistent c ->
  exists r c', get n c = (Ret r, c') /\ consistent c'
    /\ cache c' = cache c /\ max_size c' = max_size c /\ r = cache c !! n.
Proof.
  intros [Hnd Hel]. unfold get.
  destruct (cache c !! n) as [v |] eqn:Hn.
  - destruct (deque_remove_is_Some n (access_order c)) as [l Hl];
      [apply Hel; by eexists |].
    rewrite Hl. eexists _, _. split; [reflexivity |].
    destruct (deque_remove_NoDup _ _ _ Hnd Hl) as (Hnd' & Hel' & _).
    split_and!; try reflexivity. split; simpl.
    + apply NoDup_app. split_and!; [done | | apply NoDup_singleton].
      intros x Hx ->%list_elem_of_singleton. apply Hel' in Hx. tauto.
    + intros k. rewrite elem_of_app, list_elem_of_singleton, Hel', Hel.
      split; [intros [[? ?] | ->]; [done | by eexists] |].
      intros ?. destruct (decide (k = n)); auto.
  - eexists _, _. split; [reflexivity |]. by split_and!.
Qed.

Lemma put_consistent (n : Z) (v : bool) (c : t) :
  consistent c ->
  exists c', put n v c = (Ret tt, c') /\ consistent c' /\ max_size c' = max_size c.
Proof.
  intros Hc. pose proof Hc as [Hnd Hel]. unfold put.
  destruct (max_size c =? 0); [by eexists |].
  destruct (cache c !! n) as [w |] eqn:Hn.
  - destruct (deque_remove_is_Some n (access_order c)) as [l Hl];
      [apply Hel; by eexists |].
    rewrite Hl. eexists. split; [reflexivity |]. split; [| reflexivity].
    destruct (deque_remove_NoDup _ _ _ Hnd Hl) as (Hnd' & Hel' & _).
    split; simpl.
    + apply NoDup_app. split_and!; [done | | apply NoDup_singleton].
      intros x Hx ->%list_elem_of_singleton. apply Hel' in Hx. tauto.
    + intros k. rewrite elem_of_app, list_elem_of_singleton, lookup_insert_is_Some, Hel', Hel.
      split; [intros [[? ?] | ->]; auto |].
      intros [-> | [? ?]]; auto.
  - destruct (Z.of_nat (stdpp.base.size (cache c)) >=? max_size c).
    + destruct (access_order c) as [| oldest rest] eqn:Ho.
      * eexists. split; [reflexivity |]. split; [| reflexivity].
        apply (consistent_store n v c Hc Hn).
      * destruct (cache c !! oldest) as [w |] eqn:Hold.
        2:{ exfalso. destruct (proj1 (Hel oldest)) as [? ?]; [left | congruence]. }
        eexists. split; [reflexivity |]. split; [| reflexivity].
        apply NoDup_cons in Hnd as [Hnot Hnd].
        assert (Hne : oldest <> n) by congruence.
        set (c1 := mk (max_size c) (delete oldest (cache c)) rest).
        apply (consistent_store n v c1).
        -- split; simpl; [done |]. intros k. rewrite lookup_delete_is_Some.
           rewrite <- Hel, elem_of_cons. split; [intros ?; split; [congruence | auto] |].
           intros [? [? | ?]]; congruence.
        -- simpl. rewrite lookup_delete_ne; done.
    + eexists. split; [reflexivity |]. split; [| reflexivity].
      apply (consistent_store n v c Hc Hn).
Qed.

Lemma get_bounded (n : Z) (c : t) :
  bounded c -> bounded (snd (get n c)).
Proof.
  unfold bounded, size, get. intros H.
  destruct (cache c !! n); [| exact H].
  destruct (deque_remove n (access_order c)); exact H.
Qed.

Lemma put_bounded (n : Z) (v : bool) (c : t) :
  0 <= max_size c -> consistent c -> bounded c -> bounded (snd (put n v c)).
Proof.
  intros Hm Hc Hb. pose proof (consistent_size c Hc) as Hsz.
  destruct Hc as [Hnd Hel]. unfold bounded, size, put in *.
  destruct (max_size c =? 0) eqn:Hz; [exact Hb |].
  apply Z.eqb_neq in Hz.
  destruct (cache c !! n) as [w |] eqn:Hn.
  - destruct (deque_remove n (access_order c)); [| exact Hb].
    simpl. rewrite map_size_insert_Some; [exact Hb | by eexists].
  - destruct (Z.of_nat (stdpp.base.size (cache c)) >=? max_size c) eqn:Hfull.
    + destruct (access_order c) as [| oldest rest] eqn:Ho.
      * simpl in Hsz. apply Z.geb_le in Hfull. lia.
      * destruct (cache c !! oldest) as [w |] eqn:Hold; [| exact Hb].
        simpl. rewrite map_size_insert_None by (rewrite lookup_delete_ne; congruence).
        rewrite map_size_delete_Some by (by eexists).
        simpl in Hsz. lia.
    + simpl. rewrite map_size_insert_None by done.
      rewrite Z.geb_leb in Hfull. apply Z.leb_gt in Hfull. lia.
Qed.

(** From a consistent cache within its bound, every sequence of calls
    returns and keeps both. *)
Lemma run_invariant (ops : list op) (c : t) :
  0 <= max_size c -> consistent c -> bounded c ->
  exists c', run ops c = (Ret tt, c')
    /\ consistent c' /\ bounded c' /\ max_size c' = max_size c.
Proof.
  revert c. induction ops as [| o ops IH]; intros c Hm Hc Hb.
  - exists c. by split_and!.
  - assert (exists c1, run_op o c = (Ret tt, c1)
              /\ consistent c1 /\ bounded c1 /\ max_size c1 = max_size c)
      as (c1 & Ho & Hc1 & Hb1 & Hm1).
    { destruct o as [n | n v]; simpl.
      - destruct (get_consistent n c Hc) as (r & c1 & Hg & Hc1 & _ & Hm1 & _).
        exists c1. split_and!; [| done | | done].
        + by rewrite (bind_Ret _ _ _ _ _ Hg).
        + pose proof (get_bounded n c Hb) as Hb'. by rewrite Hg in Hb'.
      - destruct (put_consistent n v c Hc) as (c1 & Hp & Hc1 & Hm1).
        exists c1. split_and!; try done.
        pose proof (put_bounded n v c Hm Hc Hb) as Hb'. by rewrite Hp in Hb'. }
    destruct (IH c1) as (c' & Hr & Hc' & Hb' & Hm'); [lia | done | done |].
    exists c'. split_and!; try done; [| congruence].
    simpl. by rewrite (bind_Ret _ _ _ _ _ Ho).
Qed.

(** *** Recency order *)

Lemma run_snoc (ops : list op) (o : op) (c : t) :
  run (ops ++ [o]) c = (let* _ := run ops in run_op o) c.
Proof.
  revert c. induction ops as [| o' ops IH]; intros c; simpl.
  - unfold bind, ret. destruct (run_op o c) as [[[] | e |] c1]; reflexivity.
  - rewrite bind_assoc. apply bind_ext. intros _ c1. apply IH.
Qed.

Lemma more_recent_snoc_keep (ops : list op) (o : op) (a b : Z) :
  more_recent ops b a -> key o <> a -> more_recent (ops ++ [o]) b a.
Proof.
  intros (ops1 & ops2 & -> & (o' & Ho' & Hk) & Hno) Hne.
  exists ops1, (ops2 ++ [o]). split_and!.
  - by rewrite app_assoc.
  - exists o'. split; [| done]. apply elem_of_app. by left.
  - intros x [Hx | ->%list_elem_of_singleton]%elem_of_app; auto.
Qed.

Lemma more_recent_snoc_new (ops : list op) (o : op) (a : Z) :
  key o <> a -> more_recent (ops ++ [o]) (key o) a.
Proof.
  intros Hne. exists ops, [o]. split_and!; [done | |].
  - exists o. split; [apply list_elem_of_singleton |]; done.
  - by intros x ->%list_elem_of_singleton.
Qed.

(** The last call of a history is more recent than nothing. *)
Lemma more_recent_last (ops : list op) (o : op) (b : Z) :
  ¬ more_recent (ops ++ [o]) b (key o).
Proof.
  intros (ops1 & ops2 & Heq & (o' & Ho' & _) & Hno).
  destruct ops2 as [| x ops2 _] using rev_ind; [by apply elem_of_nil in Ho' |].
  rewrite app_assoc in Heq. apply app_inj_tail in Heq as [_ ->].
  apply (Hno x); [| done]. apply elem_of_app. right. by apply list_elem_of_singleton.
Qed.

Lemma StronglySorted_sublist {A : Type} (R : relation A) (l1 l2 : list A) :
  l1 `sublist_of` l2 -> StronglySorted R l2 -> StronglySorted R l1.
Proof.
  induction 1 as [| x l1 l2 Hs IH | x l1 l2 Hs IH]; intros H.
  - constructor.
  - apply StronglySorted_cons in H as [Hx H].
    apply StronglySorted_cons. split; [| auto].
    rewrite Forall_forall in *. intros y Hy. apply Hx. by eapply elem_of_sublist.
  - apply StronglySorted_cons in H as [_ H]. auto.
Qed.

Lemma StronglySorted_weaken {A : Type} (R R' : relation A) (l : list A) :
  (forall a b, a ∈ l -> b ∈ l -> R a b -> R' a b) ->
  StronglySorted R l -> StronglySorted R' l.
Proof.
  induction l as [| x l IH]; intros Himp H; [constructor |].
  apply StronglySorted_cons in H as [Hx H]. apply StronglySorted_cons. split.
  - rewrite Forall_forall in *. intros y Hy.
    apply Himp; [left | by right | by apply Hx].
  - apply IH; [| done]. intros a b Ha Hb. apply Himp; by right.
Qed.

(** What one call does to the deque: nothing, the key being absent from
    it, or the key moves (or comes) to the end, the other keys keeping
    their order, the oldest possibly leaving. *)
Lemma run_op_order (o : op) (c c1 : t) :
  0 <= max_size c -> consistent c -> bounded c ->
  run_op o c = (Ret tt, c1) ->
  (access_order c1 = access_order c /\ key o ∉ access_order c)
  \/ (exists l', access_order c1 = l' ++ [key o]
        /\ l' `sublist_of` access_order c /\ key o ∉ l').
Proof.
  intros Hm Hc Hb. pose proof (consistent_size c Hc) as Hsz.
  destruct Hc as [Hnd Hel].
  assert (Hrem : forall n l, deque_remove n (access_order c) = Some l ->
            l `sublist_of` access_order c /\ n ∉ l).
  { intros n l Hl. destruct (deque_remove_NoDup _ _ _ Hnd Hl) as (_ & Hel' & Hs).
    split; [done |]. rewrite Hel'. tauto. }
  destruct o as [n | n v]; simpl.
  - unfold bind, get, ret. destruct (cache c !! n) as [w |] eqn:Hn.
    + destruct (deque_remove n (access_order c)) as [l |] eqn:Hl; [| discriminate].
      intros [= <-]. right. exists l. simpl. destruct (Hrem n l Hl). done.
    + intros [= <-]. left. split; [done |]. rewrite Hel, Hn. by intros [? ?].
  - unfold put, store. destruct (max_size c =? 0) eqn:Hz.
    + intros [= <-]. left. split; [done |].
      apply Z.eqb_eq in Hz. unfold bounded, size in Hb.
      destruct (access_order c); [apply not_elem_of_nil | simpl in Hsz; lia].
    + destruct (cache c !! n) as [w |] eqn:Hn.
      * destruct (deque_remove n (access_order c)) as [l |] eqn:Hl; [| discriminate].
        intros [= <-]. right. exists l. simpl. destruct (Hrem n l Hl). done.
      * assert (Hnot : n ∉ access_order c) by (rewrite Hel, Hn; by intros [? ?]).
        destruct (Z.of_nat (stdpp.base.size (cache c)) >=? max_size c).
        -- destruct (access_order c) as [| oldest rest] eqn:Ho.
           ++ intros [= <-]. right. exists []. simpl. split_and!; [done | apply sublist_nil_l | apply not_elem_of_nil].
           ++ destruct (cache c !! oldest); [| discriminate].
              intros [= <-]. right. exists rest. simpl. split_and!; [done | | ].
              ** by apply sublist_cons.
              ** intros ?. apply Hnot. by right.
        -- intros [= <-]. right. exists (access_order c). done.
Qed.

Lemma run_op_recency (ops : list op) (o : op) (c c1 : t) :
  0 <= max_size c -> consistent c -> bounded c ->
  recency_sorted ops c ->
  run_op o c = (Ret tt, c1) ->
  recency_sorted (ops ++ [o]) c1.
Proof.
  intros Hm Hc Hb Hs Ho. unfold recency_sorted in *.
  destruct (run_op_order o c c1 Hm Hc Hb Ho) as [[-> Hnot] | (l' & -> & Hsub & Hnot)].
  - eapply StronglySorted_weaken; [| exact Hs]. simpl.
    intros a b Ha _ H. apply more_recent_snoc_keep; [done | congruence].
  - apply StronglySorted_app_2.
    + intros a b Ha ->%list_elem_of_singleton. apply more_recent_snoc_new. congruence.
    + eapply StronglySorted_weaken; [| eapply StronglySorted_sublist; eauto]. simpl.
      intros a b Ha _ H. apply more_recent_snoc_keep; [done | congruence].
    + repeat constructor.
Qed.

(** After any history, the deque is ordered by recency of use, oldest
    first. *)
Lemma run_recency (ops : list op) (m : Z) (c : t) :
  0 <= m -> run ops (init m) = (Ret tt, c) ->
  consistent c /\ bounded c /\ max_size c = m /\ recency_sorted ops c.
Proof.
  intros Hm. revert c. induction ops as [| o ops IH] using rev_ind; intros c Hr.
  - injection Hr as <-. split_and!; [apply consistent_init | | done | constructor].
    unfold bounded, size. simpl. rewrite map_size_empty. lia.
  - rewrite run_snoc in Hr. apply bind_inv_Ret in Hr as ([] & c0 & Hr0 & Ho).
    destruct (IH c0 Hr0) as (Hc0 & Hb0 & Hm0 & Hs0).
    assert (Hm0' : 0 <= max_size c0) by lia.
    destruct (run_invariant [o] c0 Hm0' Hc0 Hb0) as (c' & Hr' & Hc' & Hb' & Hm').
    simpl in Hr'. unfold bind, ret in Hr'. rewrite Ho in Hr'. injection Hr' as <-.
    split_and!; [done | done | congruence |].
    by apply (run_op_recency ops o c0 c).
Qed.

End cache_facts.

(** C10.  A cache built with a capacity [max_size >= 0] answers every finite
    sequence of [get] and [put] calls without raising, and afterwards holds
    at most [max_size] entries, while [access_order] lists exactly the keys
    of the verdict dict, each of them once.  As the sequence is arbitrary,
    this holds after each of its prefixes too. *)
Theorem cache_invariant (max_size : Z) (ops : list PrimeCache.op) :
  0 <= max_size ->
  exists c, PrimeCache.run ops (PrimeCache.init max_size) = (Ret tt, c)
    /\ PrimeCache.size c <= max_size
    /\ NoDup (PrimeCache.access_order c)
    /\ (forall k, k ∈ PrimeCache.access_order c <-> is_Some (PrimeCache.cache c !! k)).
Proof.
  intros Hm.
  destruct (run_invariant ops (PrimeCache.init max_size)) as (c & Hr & [Hnd Hel] & Hb & Hms).
  - exact Hm.
  - apply consistent_init.
  - unfold PrimeCache.bounded, PrimeCache.size. simpl. rewrite map_size_empty. lia.
  - exists c. unfold PrimeCache.bounded in Hb. simpl in Hms. split_and!; try done. lia.
Qed.

Lemma cache_invariant_witness :
  exists c, PrimeCache.run
      [PrimeCache.Put 3 true; PrimeCache.Put 5 true; PrimeCache.Get 3; PrimeCache.Put 9 false]
      (PrimeCache.init 2) = (Ret tt, c)
    /\ PrimeCache.size c <= 2
    /\ NoDup (PrimeCache.access_order c)
    /\ (forall k, k ∈ PrimeCache.access_order c <-> is_Some (PrimeCache.cache c !! k)).
Proof. apply (cache_invariant 2); lia. Defined.

(** C4, as amended.  A cache of capacity [k > 0] that holds [k] entries
    after a history [ops] of calls answers the [put] of a key it does not
    hold by evicting exactly one entry, [victim], and storing the new key:
    every other entry was looked up or recorded more recently than [victim]
    (a history being a sequence, no two keys tie).  When [k >= 2], the key
    looked up by the last call of the history is not the victim. *)
Theorem put_evicts_least_recent
    (k : Z) (ops : list PrimeCache.op) (c : PrimeCache.t) (n : Z) (v : bool) :
  0 < k ->
  PrimeCache.run ops (PrimeCache.init k) = (Ret tt, c) ->
  PrimeCache.size c = k ->
  PrimeCache.cache c !! n = None ->
  exists victim c',
    PrimeCache.put n v c = (Ret tt, c')
    /\ is_Some (PrimeCache.cache c !! victim)
    /\ PrimeCache.cache c' = <[n := v]> (delete victim (PrimeCache.cache c))
    /\ PrimeCache.size c' = k
    /\ (forall m, is_Some (PrimeCache.cache c !! m) -> m <> victim ->
          PrimeCache.more_recent ops m victim)
    /\ (2 <= k -> forall ops0 a, ops = ops0 ++ [PrimeCache.Get a] -> victim <> a).
Proof.
  intros Hk Hr Hsz Hn.
  destruct (run_recency ops k c) as (Hc & Hb & Hm & Hs); [lia | done |].
  pose proof (consistent_size c Hc) as Hlen. destruct Hc as [Hnd Hel].
  unfold PrimeCache.size in Hsz. unfold PrimeCache.recency_sorted in Hs.
  unfold PrimeCache.put, PrimeCache.store.
  destruct (PrimeCache.max_size c =? 0) eqn:Hz; [apply Z.eqb_eq in Hz; lia |].
  rewrite Hn.
  destruct (Z.of_nat (size (PrimeCache.cache c)) >=? PrimeCache.max_size c) eqn:Hfull;
    [| rewrite Z.geb_leb in Hfull; apply Z.leb_gt in Hfull; lia].
  destruct (PrimeCache.access_order c) as [| oldest rest] eqn:Ho; [simpl in Hlen; lia |].
  assert (Hold : is_Some (PrimeCache.cache c !! oldest)) by (apply Hel; left).
  destruct Hold as [w Hold]. rewrite Hold.
  apply StronglySorted_cons in Hs as [Hrest _]. rewrite Forall_forall in Hrest.
  exists oldest. eexists. split_and!; [reflexivity | by eexists | reflexivity | | |].
  - unfold PrimeCache.size. simpl.
    rewrite map_size_insert_None by (rewrite lookup_delete_ne; congruence).
    rewrite map_size_delete_Some by (by eexists). simpl in Hlen. lia.
  - intros m Hm' Hne. apply Hrest. apply Hel in Hm'.
    apply elem_of_cons in Hm' as [-> | Hm']; [done | exact Hm'].
  - intros Hk2 ops0 a -> ->.
    destruct rest as [| m rest]; [simpl in Hlen; lia |].
    apply (more_recent_last ops0 (PrimeCache.Get a) m).
    apply Hrest. left.
Qed.

Lemma put_evicts_least_recent_witness :
  exists victim c',
    PrimeCache.put 3 true (PrimeCache.mk 2 (<[1 := true]> (<[2 := false]> ∅)) [2; 1])
      = (Ret tt, c')
    /\ is_Some ((<[1 := true]> (<[2 := false]> ∅) : gmap Z bool) !! victim)
    /\ PrimeCache.cache c'
       = <[3 := true]> (delete victim (<[1 := true]> (<[2 := false]> ∅)))
    /\ PrimeCache.size c' = 2
    /\ (forall m, is_Some ((<[1 := true]> (<[2 := false]> ∅) : gmap Z bool) !! m) ->
          m <> victim ->
          PrimeCache.more_recent
            [PrimeCache.Put 1 true; PrimeCache.Put 2 false; PrimeCache.Get 1] m victim)
    /\ (2 <= 2 -> forall ops0 a,
          [PrimeCache.Put 1 true; PrimeCache.Put 2 false; PrimeCache.Get 1]
            = ops0 ++ [PrimeCache.Get a] -> victim <> a).
Proof.
  refine (put_evicts_least_recent 2
            [PrimeCache.Put 1 true; PrimeCache.Put 2 false; PrimeCache.Get 1]
            (PrimeCache.mk 2 (<[1 := true]> (<[2 := false]> ∅)) [2; 1]) 3 true _ _ _ _).
  - lia.
  - vm_compute. reflexivity.
  - vm_compute. reflexivity.
  - vm_compute. reflexivity.
Defined.

(** C4, the statement as it stands fails at capacity one: the single entry,
    key 1, is looked up immediately before the overflowing insert of key 2,
    and key 1 is the entry evicted. *)
Lemma capacity_one_evicts_looked_up_key :
  exists c c',
    PrimeCache.run [PrimeCache.Put 1 true; PrimeCache.Get 1] (PrimeCache.init 1) = (Ret tt, c)
    /\ PrimeCache.size c = 1
    /\ PrimeCache.cache c !! 1 = Some true
    /\ PrimeCache.cache c !! 2 = None
    /\ PrimeCache.put 2 true c = (Ret tt, c')
    /\ PrimeCache.cache c' !! 1 = None
    /\ PrimeCache.cache c' !! 2 = Some true.
Proof.
  eexists _, _. split_and!; [vm_compute; reflexivity | ..]; vm_compute; reflexivity.
Qed.

(** ** Trial division *)

Section trial_division_facts.
Import BinaryPrimeEngine.

Lemma small_divisor_true (n limit : Z) (ps : list Z) :
  small_divisor n limit ps = true ->
  exists p, p ∈ ps /\ p < limit /\ n mod p = 0.
Proof.
  induction ps as [| p ps IH]; simpl; [discriminate |].
  destruct (p >=? limit) eqn:Hp; [discriminate |].
  rewrite Z.geb_leb in Hp. apply Z.leb_gt in Hp.
  destruct (n mod p =? 0) eqn:Hd.
  - intros _. exists p. apply Z.eqb_eq in Hd. split_and!; [left | lia | done].
  - intros (q & Hq & ? & ?)%IH. exists q. split_and!; [by right | done | done].
Qed.

(** On an increasing list the [break] loses nothing: what comes after it is
    at least as large. *)
Lemma small_divisor_complete (n limit p : Z) (ps : list Z) :
  StronglySorted Z.lt ps ->
  p ∈ ps -> p < limit -> n mod p = 0 ->
  small_divisor n limit ps = true.
Proof.
  induction ps as [| q ps IH]; intros Hs Hin Hp Hd; [by apply elem_of_nil in Hin |].
  apply StronglySorted_cons in Hs as [Hq Hs]. rewrite Forall_forall in Hq.
  simpl. apply elem_of_cons in Hin as [<- | Hin].
  - destruct (p >=? limit) eqn:E; [rewrite Z.geb_leb in E; apply Z.leb_le in E; lia |].
    by rewrite Hd.
  - specialize (Hq p Hin).
    destruct (q >=? limit) eqn:E; [rewrite Z.geb_leb in E; apply Z.leb_le in E; lia |].
    destruct (n mod q =? 0); [done | by apply IH].
Qed.

Lemma small_primes_sorted : StronglySorted Z.lt small_primes.
Proof. unfold small_primes. repeat (constructor; [| repeat constructor; lia]). constructor. Qed.

Lemma odd_divisor_true (n limit d : Z) :
  odd_divisor n limit d = true ->
  exists k, 0 <= k /\ d + 2 * k < limit /\ n mod (d + 2 * k) = 0.
Proof.
  funelim (odd_divisor n limit d); [| discriminate].
  clear Heqcall. destruct (n mod d =? 0) eqn:Hd.
  - intros _. exists 0. apply Z.eqb_eq in Hd. rewrite Z.add_0_r. split_and!; [lia | done | done].
  - intros (k & Hk & Hlt & Hm)%H. exists (k + 1).
    replace (d + 2 * (k + 1)) with (d + 2 + 2 * k) by lia. split_and!; [lia | done | done].
Qed.

Lemma odd_divisor_complete (n limit d k : Z) :
  0 <= k -> d + 2 * k < limit -> n mod (d + 2 * k) = 0 ->
  odd_divisor n limit d = true.
Proof.
  intros Hk. revert d. pattern k. apply (natlike_ind _) with (x := k); [| | exact Hk].
  - intros d Hlt Hm. rewrite Z.add_0_r in *. simp odd_divisor.
    destruct (Z_lt_dec d limit); [| lia]. simpl. by rewrite Hm.
  - intros j Hj IH d Hlt Hm. simp odd_divisor.
    destruct (Z_lt_dec d limit); [| lia]. simpl.
    destruct (n mod d =? 0); [done |]. apply IH.
    + lia.
    + by replace (d + 2 + 2 * j) with (d + 2 * Z.succ j) by lia.
Qed.

(** Every number from 2 on has a least divisor above 1. *)
Lemma least_divisor (n : Z) :
  2 <= n ->
  exists q, 2 <= q <= n /\ (q | n) /\ forall d, 2 <= d < q -> ~ (d | n).
Proof.
  intros Hn.
  assert (H : forall k, 0 <= k ->
            (exists q, 2 <= q < 2 + k /\ (q | n) /\ forall d, 2 <= d < q -> ~ (d | n))
            \/ (forall d, 2 <= d < 2 + k -> ~ (d | n))).
  { apply natlike_ind.
    - right. intros d Hd. lia.
    - intros k Hk [(q & Hq & Hdiv & Hmin) | IH].
      + left. exists q. split_and!; [lia | lia | done | done].
      + destruct (n mod (2 + k) =? 0) eqn:E.
        * left. exists (2 + k). apply Z.eqb_eq in E. apply Z.mod_divide in E; [| lia].
          split_and!; [lia | lia | done | done].
        * right. intros d Hd Hdiv. destruct (decide (d = 2 + k)) as [-> | Hne].
          -- apply Z.mod_divide in Hdiv; [| lia]. apply Z.eqb_neq in E. done.
          -- apply (IH d); [lia | done]. }
  destruct (H (n - 1)) as [(q & Hq & Hdiv & Hmin) | Hnone]; [lia | |].
  - exists q. split_and!; [lia | lia | done | done].
  - exfalso. apply (Hnone n); [lia | apply Z.divide_refl].
Qed.

(** The least divisor of a number that has a proper divisor is at most its
    square root. *)
Lemma least_divisor_sqrt (n q : Z) :
  2 <= q < n -> (q | n) -> (forall d, 2 <= d < q -> ~ (d | n)) -> q <= Z.sqrt n.
Proof.
  intros Hq [m Hm] Hmin. apply Z.sqrt_le_square; [lia | lia |].
  assert (Hm2 : 2 <= m) by nia.
  destruct (Z_lt_dec m q) as [Hlt | Hge]; [| nia].
  exfalso. apply (Hmin m); [lia |]. exists q. lia.
Qed.

Lemma trial_divisor_ge_3 (d : Z) : trial_divisor d -> 3 <= d.
Proof.
  intros [Hd | (k & Hk & ->)]; [| lia].
  unfold small_primes in Hd. repeat (apply elem_of_cons in Hd as [-> | Hd]; [lia |]).
  by apply elem_of_nil in Hd.
Qed.

(** An odd number from 32 on whose proper divisors are no smaller than
    itself is one of 37, 39, 41, ... *)
Lemma odd_from_37 (n q : Z) :
  32 <= q -> q mod 2 = 1 -> (forall d, 2 <= d < q -> ~ (d | q)) ->
  exists k, 0 <= k /\ q = 37 + 2 * k.
Proof.
  intros Hq Hodd Hmin.
  assert (q <> 33) by (intros ->; apply (Hmin 3); [lia | by exists 11]).
  assert (q <> 35) by (intros ->; apply (Hmin 5); [lia | by exists 7]).
  exists ((q - 37) / 2). rewrite Z.mod_eq in Hodd by lia.
  assert (q = 2 * (q / 2) + 1) by lia.
  assert (q - 37 = 2 * (q / 2 - 18)) as Heq by lia.
  rewrite Heq, (Z.mul_comm 2), Z.div_mul by lia. lia.
Qed.

(** A number between 3 and 31 without a proper divisor is in the list. *)
Lemma small_prime_listed (q : Z) :
  3 <= q <= 31 -> (forall d, 2 <= d < q -> ~ (d | q)) -> q ∈ small_primes.
Proof.
  intros Hq Hmin.
  assert (Hc : forall a b, 2 <= a < q -> q = b * a -> False)
    by (intros a b Ha Hb; apply (Hmin a Ha); by exists b).
  unfold small_primes.
  assert (q = 3 \/ q = 4 \/ q = 5 \/ q = 6 \/ q = 7 \/ q = 8 \/ q = 9 \/ q = 10
          \/ q = 11 \/ q = 12 \/ q = 13 \/ q = 14 \/ q = 15 \/ q = 16 \/ q = 17
          \/ q = 18 \/ q = 19 \/ q = 20 \/ q = 21 \/ q = 22 \/ q = 23 \/ q = 24
          \/ q = 25 \/ q = 26 \/ q = 27 \/ q = 28 \/ q = 29 \/ q = 30 \/ q = 31)
    as Hcases by lia.
  repeat (destruct Hcases as [-> | Hcases]); try subst q;
    try (by repeat first [apply list_elem_of_here | apply list_elem_of_further]);
    exfalso;
    first [ apply (Hc 2 2); lia | apply (Hc 2 3); lia | apply (Hc 2 4); lia
          | apply (Hc 2 5); lia | apply (Hc 2 6); lia | apply (Hc 2 7); lia
          | apply (Hc 2 8); lia | apply (Hc 2 9); lia | apply (Hc 2 10); lia
          | apply (Hc 2 11); lia | apply (Hc 2 12); lia | apply (Hc 2 13); lia
          | apply (Hc 2 14); lia | apply (Hc 2 15); lia
          | apply (Hc 3 3); lia | apply (Hc 3 5); lia | apply (Hc 3 7); lia
          | apply (Hc 3 9); lia | apply (Hc 5 5); lia ].
Qed.

(** On an odd number from 3 on, the two loops find a divisor exactly when
    one of the trial divisors below the limit divides it. *)
Lemma trial_division_false (n limit : Z) :
  trial_division n limit = false <->
  exists d, trial_divisor d /\ d < limit /\ n mod d = 0.
Proof.
  unfold trial_division. rewrite andb_false_iff, !negb_false_iff. split.
  - intros [(p & Hp & Hlt & Hd)%small_divisor_true | (k & Hk & Hlt & Hd)%odd_divisor_true].
    + exists p. split_and!; [by left | done | done].
    + exists (37 + 2 * k). split_and!; [right; by exists k | done | done].
  - intros (d & [Hin | (k & Hk & ->)] & Hlt & Hd).
    + left. by apply (small_divisor_complete n _ d); [apply small_primes_sorted | ..].
    + right. by apply (odd_divisor_complete n _ 37 k).
Qed.

(** With the limit at the integer square root plus one, the loops decide
    primality. *)
Lemma trial_division_correct (n : Z) :
  3 <= n -> n mod 2 = 1 -> (trial_division n (Z.sqrt n + 1) = true <-> ref_prime n).
Proof.
  intros Hn Hodd. split.
  - intros Ht. split; [lia |]. intros d Hd Hdiv.
    assert (Hf : trial_division n (Z.sqrt n + 1) = false); [| congruence].
    apply trial_division_false.
    destruct (least_divisor n) as (q & Hq & Hqdiv & Hmin); [lia |].
    assert (Hqd : q <= d) by (destruct (Z_le_dec q d); [done | exfalso; apply (Hmin d); [lia | done]]).
    assert (Hsqrt : q <= Z.sqrt n) by (apply least_divisor_sqrt; [lia | done | done]).
    assert (Hq2 : q <> 2).
    { intros ->. destruct Hqdiv as [m Hm]. rewrite Hm, Z.mod_mul in Hodd; lia. }
    assert (Hqmin : forall a, 2 <= a < q -> ~ (a | q))
      by (intros a Ha Hdiv'; apply (Hmin a Ha); by eapply Z.divide_trans).
    assert (Hqodd : q mod 2 = 1).
    { pose proof (Z.mod_pos_bound q 2 ltac:(lia)) as Hb.
      destruct (decide (q mod 2 = 0)) as [E | E]; [| lia].
      exfalso. apply (Hqmin 2); [lia |]. apply Z.mod_divide; [lia | done]. }
    exists q. split_and!; [| lia | apply Z.mod_divide in Hqdiv; [done | lia]].
    destruct (Z_le_dec q 31).
    + left. apply small_prime_listed; [lia | done].
    + right. apply (odd_from_37 n); [lia | done | done].
  - intros [_ Hp]. destruct (trial_division n (Z.sqrt n + 1)) eqn:Ht; [done |]. exfalso.
    apply trial_division_false in Ht as (d & Hd & Hlt & Hdiv).
    pose proof (trial_divisor_ge_3 d Hd) as H3.
    apply (Hp d).
    + split; [lia |].
      assert (Z.sqrt n < n) by (apply Z.sqrt_lt_lin; lia). lia.
    + apply Z.mod_divide; [lia | done].
Qed.


Lemma verdict_odd (n : Z) :
  3 <= n -> n mod 2 = 1 ->
  verdict n = match int_sqrt n with
              | Ret root => Ret (trial_division n (root + 1))
              | Raise x => Raise x
              | OutOfFuel => OutOfFuel
              end.
Proof.
  intros Hn Hodd. unfold verdict.
  destruct (n <? 2) eqn:E2; [apply Z.ltb_lt in E2; lia |].
  destruct (n =? 2) eqn:E; [apply Z.eqb_eq in E; lia |].
  destruct (n mod 2 =? 0) eqn:Ev; [apply Z.eqb_eq in Ev; lia | done].
Qed.

(** Away from the trial division the verdict is immediate. *)
Lemma verdict_fast (n : Z) :
  n < 3 \/ n mod 2 = 0 -> verdict n = Ret (n =? 2).
Proof.
  intros H. unfold verdict.
  destruct (n <? 2) eqn:E2.
  { apply Z.ltb_lt in E2. by replace (n =? 2) with false by (symmetry; apply Z.eqb_neq; lia). }
  apply Z.ltb_ge in E2.
  destruct (n =? 2) eqn:E; [done |]. apply Z.eqb_neq in E.
  destruct (n mod 2 =? 0) eqn:Ev; [done |]. apply Z.eqb_neq in Ev. lia.
Qed.

(** Where the square root is computed exactly, the verdict of the test,
    the cache apart, is the reference primality. *)
Lemma verdict_correct (n : Z) :
  (3 <= n -> n mod 2 = 1 -> int_sqrt n = Ret (Z.sqrt n)) ->
  exists b, verdict n = Ret b /\ (b = true <-> ref_prime n).
Proof.
  intros Hsqrt.
  destruct (Z_lt_dec n 2) as [Hlt | Hge].
  { exists false. rewrite verdict_fast by lia.
    split; [f_equal; apply Z.eqb_neq; lia |]. split; [discriminate | intros [? _]; lia]. }
  destruct (decide (n = 2)) as [-> | Hne].
  { exists true. split; [done |]. split; [| done]. intros _. split; [lia | intros d Hd; lia]. }
  destruct (decide (n mod 2 = 0)) as [Hev | Hodd].
  { exists false. rewrite verdict_fast by auto.
    split; [f_equal; apply Z.eqb_neq; lia |]. split; [discriminate |].
    intros [_ Hp]. exfalso. apply (Hp 2); [lia | apply Z.mod_divide; [lia | done]]. }
  pose proof (Z.mod_pos_bound n 2 ltac:(lia)) as Hb.
  exists (trial_division n (Z.sqrt n + 1)).
  rewrite verdict_odd, Hsqrt by lia. split; [done |].
  apply trial_division_correct; lia.
Qed.


End trial_division_facts.

(** ** The primality test on the engine *)

Section is_prime_facts.
Import BinaryPrimeEngine.

Lemma same_env_refl (e : t) : same_env e e.
Proof. by repeat split. Qed.

Lemma same_env_trans (e1 e2 e3 : t) : same_env e1 e2 -> same_env e2 e3 -> same_env e1 e3.
Proof. unfold same_env. intros ? ?. split_and!; destruct_and?; congruence. Qed.

Lemma put_lookup (n : Z) (b : bool) (c c' : PrimeCache.t) :
  PrimeCache.put n b c = (Ret tt, c') ->
  (forall k v, PrimeCache.cache c' !! k = Some v ->
     (k = n /\ v = b) \/ PrimeCache.cache c !! k = Some v)
  /\ (PrimeCache.max_size c <> 0 -> PrimeCache.cache c' !! n = Some b).
Proof.
  unfold PrimeCache.put, PrimeCache.store.
  assert (Hins : forall (m : gmap Z bool) k v,
            <[n := b]> m !! k = Some v -> (k = n /\ v = b) \/ m !! k = Some v).
  { intros m k v. rewrite lookup_insert. case_decide; [intros [= <-]; auto | auto]. }
  destruct (PrimeCache.max_size c =? 0) eqn:Hz.
  { intros [= <-]. apply Z.eqb_eq in Hz. split; [auto | done]. }
  destruct (PrimeCache.cache c !! n) eqn:Hn.
  - destruct (PrimeCache.deque_remove n (PrimeCache.access_order c)); [| discriminate].
    intros [= <-]. simpl. split; [apply Hins | intros _; apply lookup_insert_eq].
  - destruct (Z.of_nat (size (PrimeCache.cache c)) >=? PrimeCache.max_size c).
    + destruct (PrimeCache.access_order c) as [| oldest rest].
      * intros [= <-]. simpl. split; [apply Hins | intros _; apply lookup_insert_eq].
      * destruct (PrimeCache.cache c !! oldest) eqn:Ho; [| discriminate].
        intros [= <-]. simpl. split; [| intros _; apply lookup_insert_eq].
        intros k v [? | Hk]%Hins; [auto |]. right.
        apply lookup_delete_Some in Hk. tauto.
    + intros [= <-]. simpl. split; [apply Hins | intros _; apply lookup_insert_eq].
Qed.

(** The fast paths answer without touching anything. *)
Lemma is_prime_optimized_fast (n : Z) (e : t) :
  n < 3 \/ n mod 2 = 0 ->
  is_prime_optimized n e = (verdict n, e).
Proof.
  intros H. unfold is_prime_optimized, verdict.
  destruct (n <? 2) eqn:E2; [done |]. apply Z.ltb_ge in E2.
  destruct (n =? 2) eqn:E; [done |]. apply Z.eqb_neq in E.
  destruct (n mod 2 =? 0) eqn:Ev; [done |]. apply Z.eqb_neq in Ev. lia.
Qed.

(** A hit: the cached verdict is returned, the key is refreshed, the hit
    counter goes up by one. *)
Lemma is_prime_optimized_hit (n : Z) (e : t) (v : bool) (h : Z) :
  3 <= n -> n mod 2 = 1 ->
  PrimeCache.consistent (cache e) ->
  PrimeCache.cache (cache e) !! n = Some v ->
  cache_hits (stats e) = PInt h ->
  exists c',
    PrimeCache.get n (cache e) = (Ret (Some v), c')
    /\ PrimeCache.consistent c'
    /\ PrimeCache.cache c' = PrimeCache.cache (cache e)
    /\ PrimeCache.max_size c' = PrimeCache.max_size (cache e)
    /\ is_prime_optimized n e
       = (Ret v, set_stats (set_cache_hits (PInt (h + 1)) (stats e)) (set_cache c' e)).
Proof.
  intros Hn Hodd Hc Hv Hh.
  destruct (get_consistent n (cache e) Hc) as (r & c' & Hg & Hc' & Hcache & Hms & ->).
  rewrite Hv in Hg. exists c'. split_and!; try done.
  unfold is_prime_optimized.
  destruct (n <? 2) eqn:E2; [apply Z.ltb_lt in E2; lia |].
  destruct (n =? 2) eqn:E; [apply Z.eqb_eq in E; lia |].
  destruct (n mod 2 =? 0) eqn:Ev; [apply Z.eqb_eq in Ev; lia |].
  unfold bind, with_cache. rewrite Hg. unfold stat, lift, assign, modify, ret. simpl.
  rewrite Hh. reflexivity.
Qed.

(** A miss: the verdict of the trial division is returned and recorded;
    the code of a composite joins the registry. *)
Lemma is_prime_optimized_miss (n : Z) (e : t) (root : Z) :
  3 <= n -> n mod 2 = 1 ->
  PrimeCache.consistent (cache e) ->
  PrimeCache.cache (cache e) !! n = None ->
  int_sqrt n = Ret root ->
  exists c' db',
    PrimeCache.put n (trial_division n (root + 1)) (cache e) = (Ret tt, c')
    /\ PrimeCache.consistent c'
    /\ PrimeCache.max_size c' = PrimeCache.max_size (cache e)
    /\ is_prime_optimized n e
       = (Ret (trial_division n (root + 1)), set_code_db db' (set_cache c' e)).
Proof.
  intros Hn Hodd Hc Hv Hroot.
  destruct (put_consistent n (trial_division n (root + 1)) (cache e) Hc) as (c' & Hp & Hc' & Hms).
  assert (Hg : PrimeCache.get n (cache e) = (Ret None, cache e))
    by (unfold PrimeCache.get; by rewrite Hv).
  assert (Hcode : exists code, binary_code n None = Ret code).
  { unfold binary_code. destruct (n =? 0); by eexists. }
  destruct Hcode as [code Hcode].
  unfold is_prime_optimized.
  destruct (n <? 2) eqn:E2; [apply Z.ltb_lt in E2; lia |].
  destruct (n =? 2) eqn:E; [apply Z.eqb_eq in E; lia |].
  destruct (n mod 2 =? 0) eqn:Ev; [apply Z.eqb_eq in Ev; lia |].
  unfold bind at 1. unfold with_cache at 1. rewrite Hg.
  assert (Hset : set_cache (cache e) e = e) by (by destruct e).
  rewrite Hset. unfold int_sqrt in Hroot.
  destruct (math_sqrt n) as [f | |]; [| discriminate..].
  unfold bind at 1. unfold lift at 1. unfold bind at 1. unfold lift at 1. rewrite Hroot.
  unfold trial_division in *.
  set (limit := root + 1) in *.
  destruct (small_divisor n limit small_primes) eqn:Hs; simpl in Hp |- *.
  - exists c'. unfold record_composite, bind, with_cache, lift, code_db_add, modify, ret.
    rewrite Hp, Hcode. simpl.
    destruct (code_mem code (code_db e)).
    + exists (code_db e). by split_and!.
    + by eexists.
  - destruct (odd_divisor n limit 37) eqn:Ho; simpl in Hp |- *.
    + exists c'. unfold record_composite, bind, with_cache, lift, code_db_add, modify, ret.
      rewrite Hp, Hcode. simpl.
      destruct (code_mem code (code_db e)).
      * exists (code_db e). by split_and!.
      * by eexists.
    + exists c', (code_db e). unfold bind, with_cache, ret. rewrite Hp.
      by split_and!.
Qed.

(** A miss at a number whose square root is not computed: the exception
    of [math.sqrt] or of [int] leaves the engine as it was. *)
Lemma is_prime_optimized_miss_raise (n : Z) (e : t) :
  3 <= n -> n mod 2 = 1 ->
  PrimeCache.cache (cache e) !! n = None ->
  (forall root, int_sqrt n <> Ret root) ->
  is_prime_optimized n e = (verdict n, e).
Proof.
  intros Hn Hodd Hv Hroot.
  assert (Hg : PrimeCache.get n (cache e) = (Ret None, cache e))
    by (unfold PrimeCache.get; by rewrite Hv).
  rewrite verdict_odd by done.
  unfold is_prime_optimized.
  destruct (n <? 2) eqn:E2; [apply Z.ltb_lt in E2; lia |].
  destruct (n =? 2) eqn:E; [apply Z.eqb_eq in E; lia |].
  destruct (n mod 2 =? 0) eqn:Ev; [apply Z.eqb_eq in Ev; lia |].
  unfold bind at 1. unfold with_cache at 1. rewrite Hg.
  assert (Hset : set_cache (cache e) e = e) by (by destruct e).
  rewrite Hset. unfold int_sqrt in *.
  destruct (math_sqrt n) as [f | x |]; [| done..].
  unfold bind at 1. unfold lift at 1. unfold bind at 1. unfold lift at 1.
  destruct (int_of_float f) as [root | x |]; [by destruct (Hroot root) | done..].
Qed.

(** With a consistent cache that memoises the test, the test gives the
    verdict, exception included, and keeps the cache so. *)
Lemma is_prime_optimized_ok (n : Z) (e : t) (h : Z) :
  PrimeCache.consistent (cache e) -> cache_sound e ->
  cache_hits (stats e) = PInt h ->
  exists e' h',
    is_prime_optimized n e = (verdict n, e')
    /\ PrimeCache.consistent (cache e') /\ cache_sound e'
    /\ same_env e e'
    /\ stats e' = set_cache_hits (PInt h') (stats e)
    /\ h <= h' <= h + 1.
Proof.
  intros Hc Hs Hh.
  assert (Hid : stats e = set_cache_hits (PInt h) (stats e))
    by (destruct (stats e); simpl in Hh; by subst).
  destruct (Z_lt_dec n 3) as [Hlt | Hge].
  { exists e, h. rewrite is_prime_optimized_fast by auto.
    split_and!; [done | done | done | apply same_env_refl | done | lia | lia]. }
  destruct (decide (n mod 2 = 0)) as [Hev | Hodd].
  { exists e, h. rewrite is_prime_optimized_fast by auto.
    split_and!; [done | done | done | apply same_env_refl | done | lia | lia]. }
  pose proof (Z.mod_pos_bound n 2 ltac:(lia)) as Hb.
  destruct (PrimeCache.cache (cache e) !! n) as [v |] eqn:Hn.
  - destruct (is_prime_optimized_hit n e v h) as (c' & Hg & Hc' & Hcache & Hms & Hr);
      try done; try lia.
    rewrite Hr, (Hs n v Hn).
    eexists _, (h + 1). split_and!; [reflexivity | exact Hc' | | | reflexivity | lia | lia].
    + intros k w. simpl. rewrite Hcache. apply Hs.
    + by repeat split.
  - destruct (int_sqrt n) as [root | x |] eqn:Hroot.
    + destruct (is_prime_optimized_miss n e root) as (c' & db' & Hp & Hc' & Hms & Hr);
        try done; try lia.
      assert (Hv : verdict n = Ret (trial_division n (root + 1)))
        by (rewrite verdict_odd, Hroot by lia; done).
      rewrite Hr, Hv.
      eexists _, h. split_and!; [reflexivity | exact Hc' | | | exact Hid | lia | lia].
      * intros k w. simpl. intros Hk.
        destruct (proj1 (put_lookup _ _ _ _ Hp) k w Hk) as [[-> ->] | Hk']; [done | by apply Hs].
      * by repeat split.
    + exists e, h. rewrite is_prime_optimized_miss_raise; try done; try lia.
      * split_and!; [done | done | done | apply same_env_refl | done | lia | lia].
      * intros root. by rewrite Hroot.
    + exists e, h. rewrite is_prime_optimized_miss_raise; try done; try lia.
      * split_and!; [done | done | done | apply same_env_refl | done | lia | lia].
      * intros root. by rewrite Hroot.
Qed.

End is_prime_facts.

(** ** The square root in binary64 *)

Section binary64_sqrt.
Import BinaryPrimeEngine.

Lemma wB_value : Uint63.wB = 9223372036854775808.
Proof. reflexivity. Qed.

Lemma sqrt_check_step_fst (st : PrimInt63.int * bool) :
  fst (sqrt_check_step st) = PrimInt63.add (fst st) 1%uint63.
Proof. by destruct st. Qed.

Lemma sqrt_check_step_snd (st : PrimInt63.int * bool) :
  snd (sqrt_check_step st) = snd st && sqrt_exact (fst st).
Proof. by destruct st. Qed.

Lemma sqrt_check_iter (k : nat) :
  Z.of_nat k < 2 ^ 62 ->
  Uint63.to_Z (fst (nat_rect _ (0%uint63, true) (fun _ => sqrt_check_step) k)) = Z.of_nat k
  /\ (snd (nat_rect _ (0%uint63, true) (fun _ => sqrt_check_step) k) = true ->
      forall j, 0 <= j < Z.of_nat k -> sqrt_exact (Uint63.of_Z j) = true).
Proof.
  induction k as [| k IH]; intros Hk.
  - split; [exact Uint63.to_Z_0 | intros _ j Hj; lia].
  - destruct IH as [Hfst Hsnd]; [lia |].
    cbn [nat_rect]. rewrite sqrt_check_step_fst, sqrt_check_step_snd.
    split.
    + rewrite Uint63.add_spec, Hfst, Uint63.to_Z_1. rewrite Z.mod_small; [lia |].
      rewrite wB_value. lia.
    + intros [Hok Hi]%andb_true_iff j Hj.
      destruct (decide (j = Z.of_nat k)) as [-> | Hne].
      * by rewrite <- Hfst, Uint63.of_to_Z.
      * apply Hsnd; [done | lia].
Qed.

Lemma sqrt_check_sound (count : positive) (j : Z) :
  Z.pos count < 2 ^ 62 ->
  snd (sqrt_check count) = true ->
  0 <= j < Z.pos count ->
  sqrt_exact (Uint63.of_Z j) = true.
Proof.
  intros Hc Hs Hj. unfold sqrt_check in Hs. rewrite Pos2Nat.inj_iter in Hs.
  destruct (sqrt_check_iter (Pos.to_nat count)) as [_ Hall].
  - by rewrite positive_nat_Z.
  - apply Hall; [done |]. by rewrite positive_nat_Z.
Qed.

Lemma sqrt_check_million : snd (sqrt_check 1000001) = true.
Proof. vm_compute. reflexivity. Qed.

(** The conversion of a machine integer is the rounding of its value. *)
Lemma Z2float_to_Z (i : PrimInt63.int) : Z2float (Uint63.to_Z i) = of_uint63 i.
Proof. unfold Z2float. by rewrite <- of_uint63_spec, SF2Prim_Prim2SF. Qed.

Lemma sqrt_exact_sound (i : PrimInt63.int) :
  sqrt_exact i = true -> int_sqrt (Uint63.to_Z i) = Ret (Z.sqrt (Uint63.to_Z i)).
Proof.
  unfold sqrt_exact.
  set (f := of_uint63 i). set (root := PrimFloat.sqrt f).
  destruct (frshiftexp root) as [m e] eqn:Hfr.
  set (r := PrimInt63.lsr (normfr_mantissa m) (PrimInt63.sub 2154%uint63 e)).
  rewrite !andb_true_iff, !negb_true_iff.
  intros [[[[[[[[Hinf Hneg] Hnan] Hrinf] Hsign] He] Hr] Hlo] Hhi].
  unfold int_sqrt, math_sqrt, float_of_int. rewrite Z2float_to_Z.
  fold f. rewrite Hinf, Hneg. fold root.
  unfold int_of_float. rewrite Hnan, Hrinf, Hfr, Hsign.
  apply Uint63.ltb_spec in He, Hhi. apply Uint63.leb_spec in Hr, Hlo.
  assert (H2154 : Uint63.to_Z 2154%uint63 = 2154) by reflexivity.
  assert (H2000 : Uint63.to_Z 2000%uint63 = 2000) by reflexivity.
  rewrite H2154 in He. rewrite H2000 in Hr.
  pose proof (Uint63.to_Z_bounded e) as Hbe.
  pose proof (Uint63.to_Z_bounded r) as Hb.
  assert (Hex : (0 <=? Uint63.to_Z e - 2154) = false) by (apply Z.leb_gt; lia).
  rewrite Hex. f_equal.
  assert (Hshift : Uint63.to_Z (normfr_mantissa m) / 2 ^ (- (Uint63.to_Z e - 2154))
                   = Uint63.to_Z r).
  { subst r. rewrite Uint63.lsr_spec, Uint63.sub_spec, H2154.
    rewrite Z.mod_small by (rewrite wB_value; lia). do 2 f_equal. lia. }
  rewrite Hshift.
  rewrite Uint63.mul_spec, Z.mod_small in Hlo by (rewrite wB_value; nia).
  rewrite Uint63.mul_spec, Uint63.add_spec, Uint63.to_Z_1 in Hhi.
  rewrite (Z.mod_small (_ + 1)) in Hhi by (rewrite wB_value; lia).
  rewrite Z.mod_small in Hhi by (rewrite wB_value; nia).
  symmetry. apply Z.sqrt_unique. unfold Z.succ. lia.
Qed.

(** Up to one million, [int(math.sqrt(n))] is computed, and is the integer
    square root of [n]. *)
Lemma int_sqrt_exact (n : Z) :
  0 <= n <= 10 ^ 6 -> int_sqrt n = Ret (Z.sqrt n).
Proof.
  intros Hn.
  assert (Hi : Uint63.to_Z (Uint63.of_Z n) = n)
    by (rewrite Uint63.of_Z_spec, Z.mod_small; [done | rewrite wB_value; lia]).
  rewrite <- Hi at 1 2. apply sqrt_exact_sound.
  apply (sqrt_check_sound 1000001); [lia | exact sqrt_check_million | lia].
Qed.

End binary64_sqrt.

(** ** The claims on the primality test *)

Section is_prime_claims.
Import BinaryPrimeEngine.

(** C1.  For every integer [n] in [[0, 10^6]], on an engine whose cache is
    consistent and memoises the test, [is_prime_optimized n] returns, and
    returns true exactly when [n] is prime by the reference definition.
    The answer comes from the fast paths ([n < 2] false, [n = 2] true, even
    [n > 2] false) or, for an odd [n > 2], from trial division: on this
    range [int(math.sqrt(n))] is the integer square root of [n], and the
    answer is false exactly when one of the small odd primes 3 to 31 or of
    the odd numbers from 37 on, strictly below [floor(sqrt n) + 1], divides
    [n]. *)
Theorem is_prime_optimized_correct (n : Z) (e : t) (h : Z) :
  0 <= n <= 10 ^ 6 ->
  PrimeCache.consistent (cache e) -> cache_sound e ->
  cache_hits (stats e) = PInt h ->
  exists b e',
    is_prime_optimized n e = (Ret b, e')
    /\ (b = true <-> ref_prime n)
    /\ (n < 2 -> b = false)
    /\ (n = 2 -> b = true)
    /\ (2 < n -> n mod 2 = 0 -> b = false)
    /\ (2 < n -> n mod 2 = 1 ->
        int_sqrt n = Ret (Z.sqrt n)
        /\ (b = false <->
            exists d, trial_divisor d /\ d < Z.sqrt n + 1 /\ n mod d = 0)).
Proof.
  intros Hn Hc Hs Hh.
  pose proof (int_sqrt_exact n Hn) as Hsqrt.
  destruct (verdict_correct n) as (b & Hv & Hb); [done |].
  destruct (is_prime_optimized_ok n e h Hc Hs Hh) as (e' & h' & Hr & _).
  rewrite Hv in Hr.
  exists b, e'. split_and!; [exact Hr | exact Hb | | | |].
  - intros H. destruct b; [| done]. destruct (proj1 Hb eq_refl). lia.
  - intros ->. apply Hb. split; [lia | intros d Hd; lia].
  - intros H2 Hev. destruct b; [| done]. destruct (proj1 Hb eq_refl) as [_ Hp].
    exfalso. apply (Hp 2); [lia | apply Z.mod_divide; [lia | done]].
  - intros H2 Hodd. split; [done |].
    rewrite verdict_odd, Hsqrt in Hv by lia. injection Hv as <-.
    apply trial_division_false.
Qed.

Lemma is_prime_optimized_correct_witness :
  exists b e',
    is_prime_optimized 91 (snd (init None NoFile true (fun _ => 0%float) true)) = (Ret b, e')
    /\ (b = true <-> ref_prime 91)
    /\ (91 < 2 -> b = false)
    /\ (91 = 2 -> b = true)
    /\ (2 < 91 -> 91 mod 2 = 0 -> b = false)
    /\ (2 < 91 -> 91 mod 2 = 1 ->
        int_sqrt 91 = Ret (Z.sqrt 91)
        /\ (b = false <->
            exists d, trial_divisor d /\ d < Z.sqrt 91 + 1 /\ 91 mod d = 0)).
Proof.
  apply (is_prime_optimized_correct 91 (snd (init None NoFile true (fun _ => 0%float) true)) 0).
  - lia.
  - apply consistent_init.
  - intros n v H. vm_compute in H. discriminate.
  - reflexivity.
Defined.

End is_prime_claims.

Section is_prime_twice.
Import BinaryPrimeEngine.




End is_prime_twice.

(** ** The successor search *)

Section next_prime_facts.
Import BinaryPrimeEngine.

Lemma count_candidate_ok (e : t) (c : Z) :
  total_candidates (stats e) = PInt c ->
  count_candidate e
  = (Ret tt, set_stats (set_total_candidates (PInt (c + 1)) (stats e)) e).
Proof.
  intros Hc. unfold count_candidate, bind, stat, lift, assign, modify. by rewrite Hc.
Qed.

Lemma count_candidate_inv (e e' : t) :
  count_candidate e = (Ret tt, e') ->
  exists v, e' = set_stats (set_total_candidates v (stats e)) e.
Proof.
  unfold count_candidate, bind, stat, lift, assign, modify.
  destruct (py_add_one (total_candidates (stats e))) as [v | |]; [| discriminate..].
  intros [= <-]. by exists v.
Qed.

(** The loop stops at the first candidate the test accepts: [m] failed
    candidates, then [n + 2 m]. *)
Lemma next_prime_loop_spec (m : nat) :
  forall (fuel : nat) (n : Z) (e : t) (c h : Z),
  (m < fuel)%nat ->
  PrimeCache.consistent (cache e) -> cache_sound e ->
  total_candidates (stats e) = PInt c -> cache_hits (stats e) = PInt h ->
  (forall j, 0 <= j < Z.of_nat m -> verdict (n + 2 * j) = Ret false) ->
  verdict (n + 2 * Z.of_nat m) = Ret true ->
  exists e' h',
    next_prime_loop fuel n e = (Ret (n + 2 * Z.of_nat m), e')
    /\ PrimeCache.consistent (cache e') /\ cache_sound e'
    /\ same_env e e'
    /\ stats e' = set_cache_hits (PInt h')
                    (set_total_candidates (PInt (c + Z.of_nat m)) (stats e))
    /\ h <= h'.
Proof.
  induction m as [| m IH]; intros fuel n e c h Hf Hc Hs Htc Hh Hfail Hok;
    (destruct fuel as [| fuel]; [lia |]); simpl next_prime_loop;
    destruct (is_prime_optimized_ok n e h Hc Hs Hh) as (e1 & h1 & Hr & Hc1 & Hs1 & Henv1 & Hst1 & Hh1);
    unfold bind at 1; rewrite Hr.
  - replace (n + 2 * Z.of_nat 0) with n in * by lia. rewrite Hok.
    exists e1, h1. split_and!; try done; [| lia].
    rewrite Hst1, Z.add_0_r. destruct (stats e). simpl in *. by subst.
  - assert (Hv0 : verdict n = Ret false)
      by (rewrite <- (Hfail 0) by lia; f_equal; lia).
    rewrite Hv0.
    assert (Htc1 : total_candidates (stats e1) = PInt c) by (rewrite Hst1; exact Htc).
    unfold bind at 1. rewrite (count_candidate_ok e1 c Htc1).
    set (e2 := set_stats _ e1).
    assert (Hh2 : cache_hits (stats e2) = PInt h1) by (subst e2; simpl; by rewrite Hst1).
    assert (Hfail' : forall j, 0 <= j < Z.of_nat m -> verdict (n + 2 + 2 * j) = Ret false).
    { intros j Hj. replace (n + 2 + 2 * j) with (n + 2 * (j + 1)) by lia. apply Hfail. lia. }
    assert (Hok' : verdict (n + 2 + 2 * Z.of_nat m) = Ret true).
    { replace (n + 2 + 2 * Z.of_nat m) with (n + 2 * Z.of_nat (S m)) by lia. exact Hok. }
    destruct (IH fuel (n + 2) e2 (c + 1) h1 ltac:(lia) Hc1 Hs1 eq_refl Hh2 Hfail' Hok')
      as (e' & h' & Hr' & Hc' & Hs' & Henv' & Hst' & Hh').
    exists e', h'. replace (n + 2 * Z.of_nat (S m)) with (n + 2 + 2 * Z.of_nat m) by lia.
    split_and!; [exact Hr' | exact Hc' | exact Hs' | | | lia].
    + eapply same_env_trans; [exact Henv1 |]. exact Henv'.
    + rewrite Hst'. subst e2. simpl. rewrite Hst1.
      replace (c + 1 + Z.of_nat m) with (c + Z.of_nat (S m)) by lia.
      by destruct (stats e).
Qed.

(** The result of the loop is no smaller than its first candidate. *)
Lemma next_prime_loop_ge (fuel : nat) :
  forall (n r : Z) (e e' : t),
  next_prime_loop fuel n e = (Ret r, e') -> n <= r.
Proof.
  induction fuel as [| fuel IH]; intros n r e e'; simpl; [discriminate |].
  intros ([] & e1 & _ & H)%bind_inv_Ret.
  - injection H as <- _. lia.
  - apply bind_inv_Ret in H as (_ & e2 & _ & H). apply IH in H. lia.
Qed.

Lemma next_prime_ge (fuel : nat) (n r : Z) (e e' : t) :
  next_prime fuel n e = (Ret r, e') -> n <= r /\ 2 <= r.
Proof.
  unfold next_prime. intros (_ & e1 & _ & H)%bind_inv_Ret.
  destruct (n <? 2) eqn:E2; [apply Z.ltb_lt in E2; injection H as <- _; lia |].
  apply Z.ltb_ge in E2.
  destruct (n =? 2) eqn:E; [apply Z.eqb_eq in E; injection H as <- _; lia |].
  apply next_prime_loop_ge in H. destruct (n mod 2 =? 0); lia.
Qed.

End next_prime_facts.

(** ** A prime too large for a float *)

Section proth.
Import BinaryPrimeEngine.

Lemma pow_sub_one_divide (x e : Z) : 0 <= e -> (x - 1 | x ^ e - 1).
Proof.
  intros He. pattern e. apply natlike_ind; [| | exact He].
  - exists 0. lia.
  - intros j Hj [c Hc]. exists (x * c + 1). rewrite Z.pow_succ_r by done. lia.
Qed.

Lemma pow_odd_add_one_divide (y u : Z) : 0 <= u -> (y + 1 | y ^ (2 * u + 1) + 1).
Proof.
  intros Hu. pattern u. apply natlike_ind; [| | exact Hu].
  - exists 1. change (2 * 0 + 1) with 1. lia.
  - intros j Hj [c Hc]. exists (y * y * c - (y - 1)).
    replace (2 * Z.succ j + 1) with (Z.succ (Z.succ (2 * j + 1))) by lia.
    rewrite !Z.pow_succ_r by lia. lia.
Qed.

Lemma two_adic (d : Z) :
  0 < d -> exists t u, 0 <= t /\ 0 <= u /\ d = 2 ^ t * (2 * u + 1).
Proof.
  destruct d as [| p | p]; [lia | | lia]. intros _.
  induction p as [p _ | p (t & u & Ht & Hu & IH) |].
  - exists 0, (Z.pos p). split_and!; lia.
  - exists (t + 1), u. split_and!; [lia | lia |].
    rewrite Z.pow_add_r by lia. lia.
  - exists 0, 0. split_and!; lia.
Qed.

Lemma mod_eq_divide (a b q : Z) : 0 < q -> a mod q = b mod q -> (q | a - b).
Proof.
  intros Hq H. exists (a / q - b / q).
  pose proof (Z.div_mod a q ltac:(lia)). pose proof (Z.div_mod b q ltac:(lia)). lia.
Qed.

Variables (k m b n : Z).
Hypothesis Hm : 1 <= m.
Hypothesis Hk : 0 < k < 2 ^ m.
Hypothesis Hn : n = k * 2 ^ m + 1.
Hypothesis Hb : b ^ (2 ^ (m - 1)) mod n = n - 1.

(** [n = k * 2^m + 1] with [0 < k < 2^m], and [b] to the power [2^(m-1)]
    is [-1] modulo [n]. *)
Lemma proth_half : (n | b ^ (2 ^ (m - 1)) + 1).
Proof.
  assert (0 < 2 ^ m) by (apply Z.pow_pos_nonneg; lia).
  exists (b ^ (2 ^ (m - 1)) / n + 1).
  pose proof (Z.div_mod (b ^ (2 ^ (m - 1))) n ltac:(nia)). lia.
Qed.

Lemma proth_full : (n | b ^ (2 ^ m) - 1).
Proof.
  destruct proth_half as [c Hc].
  assert (Hpow : b ^ (2 ^ m) = b ^ (2 ^ (m - 1)) * b ^ (2 ^ (m - 1))).
  { rewrite <- Z.pow_add_r by (apply Z.pow_nonneg; lia). f_equal.
    replace m with (Z.succ (m - 1)) at 1 by lia. rewrite Z.pow_succ_r by lia. lia. }
  exists (c * (b ^ (2 ^ (m - 1)) - 1)). rewrite Hpow. nia.
Qed.

(** The powers of [b] below [2^m] are distinct modulo any divisor [q >= 3]
    of [n]. *)
Lemma proth_distinct (q i j : Z) :
  3 <= q -> (q | n) -> 0 <= i < j -> j < 2 ^ m -> b ^ i mod q <> b ^ j mod q.
Proof.
  intros Hq Hqn Hij Hj Heq.
  assert (Hhalf : (q | b ^ (2 ^ (m - 1)) + 1))
    by (eapply Z.divide_trans; [exact Hqn | exact proth_half]).
  assert (Hfull : (q | b ^ (2 ^ m) - 1))
    by (eapply Z.divide_trans; [exact Hqn | exact proth_full]).
  set (d := j - i).
  assert (Hd : (q | b ^ d - 1)).
  { apply mod_eq_divide in Heq; [| lia]. destruct Heq as [c Hc]. destruct Hfull as [c' Hc'].
    assert (Hji : b ^ j = b ^ i * b ^ d)
      by (rewrite <- Z.pow_add_r by lia; f_equal; lia).
    assert (Hmi : b ^ (2 ^ m) = b ^ (2 ^ m - i) * b ^ i)
      by (rewrite <- Z.pow_add_r by lia; f_equal; lia).
    exists (- (b ^ (2 ^ m - i) * c) - c' * (b ^ d - 1)).
    transitivity (- b ^ (2 ^ m - i) * (c * q) - (c' * q) * (b ^ d - 1)); [| ring].
    rewrite <- Hc, <- Hc', Hmi, Hji. ring. }
  destruct (two_adic d) as (t & u & Ht & Hu & Hdu); [lia |].
  assert (Htm : t < m).
  { apply (Z.pow_lt_mono_r_iff 2); [lia | lia |].
    assert (0 < 2 ^ t) by (apply Z.pow_pos_nonneg; lia). nia. }
  assert (Hexp : (b ^ d) ^ (2 ^ (m - 1 - t)) = (b ^ (2 ^ (m - 1))) ^ (2 * u + 1)).
  { rewrite <- !Z.pow_mul_r; try lia; try (apply Z.pow_nonneg; lia).
    f_equal. rewrite Hdu.
    replace (2 ^ (m - 1)) with (2 ^ t * 2 ^ (m - 1 - t))
      by (rewrite <- Z.pow_add_r by lia; f_equal; lia).
    ring. }
  assert (H1 : (q | (b ^ (2 ^ (m - 1))) ^ (2 * u + 1) - 1)).
  { rewrite <- Hexp. eapply Z.divide_trans; [exact Hd |].
    apply pow_sub_one_divide. apply Z.pow_nonneg. lia. }
  assert (H2 : (q | (b ^ (2 ^ (m - 1))) ^ (2 * u + 1) + 1)).
  { eapply Z.divide_trans; [exact Hhalf |]. by apply pow_odd_add_one_divide. }
  assert (H3 : (q | 2)).
  { replace 2 with (((b ^ (2 ^ (m - 1))) ^ (2 * u + 1) + 1)
                    - ((b ^ (2 ^ (m - 1))) ^ (2 * u + 1) - 1)) by ring.
    by apply Z.divide_sub_r. }
  apply Z.divide_pos_le in H3; lia.
Qed.

(** Hence such a divisor has at least [2^m] residues. *)
Lemma proth_divisor_large (q : Z) : 3 <= q -> (q | n) -> 2 ^ m <= q.
Proof.
  intros Hq Hqn.
  assert (0 < 2 ^ m) by (apply Z.pow_pos_nonneg; lia).
  set (l := (fun i => b ^ i mod q) <$> seqZ 0 (2 ^ m)).
  assert (Hnd : NoDup l).
  { apply NoDup_fmap_2_strong; [| apply NoDup_seqZ].
    intros i j Hi%elem_of_seqZ Hj%elem_of_seqZ Hij.
    destruct (Z.lt_trichotomy i j) as [Hlt | [-> | Hgt]]; [| done |]; exfalso.
    - apply (proth_distinct q i j); [done | done | lia | lia | done].
    - apply (proth_distinct q j i); [done | done | lia | lia | done]. }
  assert (Hsub : forall x, x ∈ l -> x ∈ seqZ 0 q).
  { intros x (i & -> & _)%list_elem_of_fmap. apply elem_of_seqZ.
    pose proof (Z.mod_pos_bound (b ^ i) q ltac:(lia)). lia. }
  pose proof (submseteq_length _ _ (NoDup_submseteq _ _ Hnd Hsub)) as Hlen.
  unfold l in Hlen. rewrite length_fmap, !length_seqZ in Hlen. lia.
Qed.

(** Proth's criterion. *)
Lemma proth : ref_prime n.
Proof.
  assert (H2m : 2 <= 2 ^ m).
  { change 2 with (2 ^ 1) at 1. apply Z.pow_le_mono_r; lia. }
  split; [nia |]. intros d Hd [c Hc].
  assert (Hodd : n = 2 * (k * 2 ^ (m - 1)) + 1).
  { rewrite Hn. replace m with (Z.succ (m - 1)) at 1 by lia.
    rewrite Z.pow_succ_r by lia. ring. }
  assert (Hc2 : 2 <= c) by nia.
  assert (Hd3 : 3 <= d) by (destruct (decide (d = 2)) as [-> | ?]; lia).
  assert (Hc3 : 3 <= c) by (destruct (decide (c = 2)) as [-> | ?]; lia).
  assert (Hdl : 2 ^ m <= d) by (apply proth_divisor_large; [done | by exists c]).
  assert (Hcl : 2 ^ m <= c) by (apply proth_divisor_large; [done | exists d; lia]).
  nia.
Qed.

End proth.

Section certificate.
Import BinaryPrimeEngine.

Lemma square_mod_iter (n b : Z) (t : nat) :
  0 < n ->
  nat_rect (fun _ => Z) (b mod n) (fun _ => square_mod n) t = b ^ (2 ^ Z.of_nat t) mod n.
Proof.
  intros Hn. induction t as [| t IH].
  - simpl. by rewrite Z.pow_1_r.
  - cbn [nat_rect]. rewrite IH. unfold square_mod.
    rewrite <- Z.mul_mod by lia. f_equal.
    rewrite Nat2Z.inj_succ, Z.pow_succ_r by lia.
    rewrite <- Z.pow_add_r by (apply Z.pow_nonneg; lia). f_equal. lia.
Qed.

Lemma big_square_mod_iter (n x : BigN.BigN.t) (t : nat) :
  BigN.BigN.to_Z (nat_rect (fun _ => BigN.BigN.t) x (fun _ => big_square_mod n) t)
  = nat_rect (fun _ => Z) (BigN.BigN.to_Z x) (fun _ => square_mod (BigN.BigN.to_Z n)) t.
Proof.
  induction t as [| t IH]; [done |].
  cbn [nat_rect]. unfold big_square_mod at 1, square_mod at 1.
  by rewrite BigN.BigN.spec_modulo, BigN.BigN.spec_mul, IH.
Qed.

(** The check on big numbers is the check on integers. *)
Lemma big_check_sound (n b : N) (t : positive) :
  (b < n)%N -> big_check n b t = true ->
  Z.of_N b ^ (2 ^ Z.pos t) mod Z.of_N n = Z.of_N n - 1.
Proof.
  intros Hb H. unfold big_check in H.
  rewrite BigN.BigN.spec_eqb in H. apply Z.eqb_eq in H.
  rewrite BigN.BigN.spec_succ, Pos2Nat.inj_iter, big_square_mod_iter, !BigN.BigN.spec_of_N in H.
  rewrite <- (Z.mod_small (Z.of_N b) (Z.of_N n)) in H at 1 by lia.
  rewrite square_mod_iter, positive_nat_Z in H by lia.
  lia.
Qed.

(** The check goes through for [beyond_float], with [b = 3^29]. *)
Lemma beyond_float_check : big_check (29 * 2 ^ 1053 + 1) (3 ^ 29) 1052 = true.
Proof. vm_compute. reflexivity. Qed.

Lemma beyond_float_prime : ref_prime beyond_float.
Proof.
  apply (proth 29 1053 (3 ^ 29)).
  - lia.
  - split; [lia |]. apply Z.ltb_lt. vm_compute. reflexivity.
  - reflexivity.
  - change (1053 - 1) with (Z.pos 1052).
    replace beyond_float with (Z.of_N (29 * 2 ^ 1053 + 1)) by (vm_compute; reflexivity).
    replace (3 ^ 29) with (Z.of_N (3 ^ 29)) by (vm_compute; reflexivity).
    apply big_check_sound; [apply N.ltb_lt; vm_compute; reflexivity | exact beyond_float_check].
Qed.

End certificate.

Section generator_facts.
Import BinaryPrimeEngine.

Lemma next_prime_below_2 (fuel : nat) (n : Z) (e : t) (c : Z) :
  n < 2 -> total_candidates (stats e) = PInt c ->
  next_prime fuel n e
  = (Ret 2, set_stats (set_total_candidates (PInt (c + 1)) (stats e)) e).
Proof.
  intros Hn Hc. unfold next_prime, bind. rewrite (count_candidate_ok e c Hc).
  by apply Z.ltb_lt in Hn as ->.
Qed.

(** From 3 on: the first candidate is [n], or [n + 1] when [n] is even. *)
Lemma next_prime_spec (m fuel : nat) (n : Z) (e : t) (c h : Z) :
  (m < fuel)%nat -> 3 <= n ->
  PrimeCache.consistent (cache e) -> cache_sound e ->
  total_candidates (stats e) = PInt c -> cache_hits (stats e) = PInt h ->
  (forall j, 0 <= j < Z.of_nat m ->
     verdict ((if n mod 2 =? 0 then n + 1 else n) + 2 * j) = Ret false) ->
  verdict ((if n mod 2 =? 0 then n + 1 else n) + 2 * Z.of_nat m) = Ret true ->
  exists e' h',
    next_prime fuel n e = (Ret ((if n mod 2 =? 0 then n + 1 else n) + 2 * Z.of_nat m), e')
    /\ PrimeCache.consistent (cache e') /\ cache_sound e'
    /\ same_env e e'
    /\ stats e' = set_cache_hits (PInt h')
                    (set_total_candidates (PInt (c + 1 + Z.of_nat m)) (stats e))
    /\ h <= h'.
Proof.
  intros Hf Hn Hc Hs Htc Hh Hfail Hok.
  unfold next_prime, bind at 1. rewrite (count_candidate_ok e c Htc).
  destruct (n <? 2) eqn:E2; [apply Z.ltb_lt in E2; lia |].
  destruct (n =? 2) eqn:E; [apply Z.eqb_eq in E; lia |].
  set (e1 := set_stats _ e).
  destruct (next_prime_loop_spec m fuel (if n mod 2 =? 0 then n + 1 else n) e1 (c + 1) h)
    as (e' & h' & Hr & Hc' & Hs' & Henv & Hst & Hh'); try done.
  exists e', h'. by split_and!.
Qed.

(** The state [_save_database] leaves: when the record can be built, the
    clock has been read and a writable file holds the record; otherwise
    nothing has moved. *)
Lemma save_database_file (e : t) :
  _save_database e
  = (Ret tt,
     match asdict (stats e) with
     | Ret st =>
         if db_writable e
         then set_db_file
                (Content (PDict [("codes", PList (code_db e)); ("stats", st);
                                 ("timestamp", PFloat (clock e (ticks e)));
                                 ("version", PStr "2.0")]%string))
                (set_ticks (S (ticks e)) e)
         else set_ticks (S (ticks e)) e
     | _ => e
     end).
Proof.
  unfold _save_database, try_except, bind, get_state, lift, time_time, modify, raise, ret.
  unfold asdict.
  destruct (dataclass_fields (stats e)) as [[| | | | | | [| kv d]] |]; simpl;
    try done; by destruct (db_writable e).
Qed.

(** [_save_database] always returns and leaves the engine object as it is;
    only the file and the clock move. *)
Lemma save_database_spec (e : t) :
  exists e', _save_database e = (Ret tt, e')
    /\ cache e' = cache e /\ stats e' = stats e /\ code_db e' = code_db e
    /\ running e' = running e /\ save_interval e' = save_interval e
    /\ progress_interval e' = progress_interval e.
Proof.
  rewrite save_database_file.
  eexists. split; [reflexivity |].
  destruct (asdict (stats e)); [| done | done].
  by destruct (db_writable e).
Qed.

Lemma gen_loop_emit (fuel : nat) (limit : option Z) (start_time : float)
    (n : Z) (last_prime : option Z) (count : Z) (e e' : t) (r : emission) (g' : generator) :
  gen_loop fuel limit start_time n last_prime count e = (Ret (Some r, g'), e') ->
  exists p e1,
    next_prime fuel n e = (Ret p, e1)
    /\ _update_stats (match last_prime with None => 0 | Some q => p - q end)
         (clock e1 (ticks e1) - start_time)%float (set_ticks (S (ticks e1)) e1)
       = (Ret tt, e')
    /\ r = (count + 1, p, match last_prime with None => 0 | Some q => p - q end)
    /\ g' = GenSuspended limit start_time (count + 1) p.
Proof.
  unfold gen_loop. unfold bind at 1. unfold get_state at 1.
  destruct (running e && _) eqn:Hcond.
  - intros (p & e1 & Hp & H)%bind_inv_Ret.
    apply bind_inv_Ret in H as (now & e2 & Hnow & H).
    apply bind_inv_Ret in H as ([] & e3 & Hu & H).
    unfold time_time in Hnow. injection Hnow as <- <-.
    injection H as <- <- <-. exists p, e1. by split_and!.
  - destruct (save_database_spec e) as (e1 & Hs & _).
    unfold bind. rewrite Hs. discriminate.
Qed.

(** Building the log line reads the statistics and writes nothing. *)
Lemma log_progress_state (e e' : t) (o : outcome unit) :
  _log_progress e = (o, e') -> e' = e.
Proof.
  unfold _log_progress, stat, bind, get_state, lift, raise, ret.
  destruct (primes_per_second (stats e)); try (by intros [= _ <-]).
  destruct (float_of_int _); by intros [= _ <-].
Qed.

Lemma log_progress_float (e : t) (r : float) :
  primes_per_second (stats e) = PFloat r -> _log_progress e = (Ret tt, e).
Proof.
  intros H. unfold _log_progress, stat, bind, get_state, ret. by rewrite H.
Qed.

Lemma gen_next_suspended_emit (fuel : nat) (limit : option Z) (start_time : float)
    (count p : Z) (e e' : t) (r : emission) (g' : generator) :
  gen_next fuel (GenSuspended limit start_time count p) e = (Ret (Some r, g'), e') ->
  exists e0,
    cache e0 = cache e /\ stats e0 = stats e
    /\ gen_loop fuel limit start_time (p + 1) (Some p) count e0 = (Ret (Some r, g'), e').
Proof.
  unfold gen_next. unfold bind at 1. unfold get_state at 1.
  intros ([] & e1 & Hsave & H)%bind_inv_Ret.
  apply bind_inv_Ret in H as ([] & e2 & Hprog & H).
  unfold raise, ret in Hsave, Hprog.
  assert (e2 = e1) as ->.
  { destruct (progress_interval e =? 0); simpl in Hprog; [discriminate |].
    destruct (count mod progress_interval e =? 0);
      [by apply log_progress_state in Hprog | by injection Hprog]. }
  exists e1. split_and!; [| | exact H].
  - destruct (save_interval e =? 0); simpl in Hsave; [discriminate |].
    destruct (count mod save_interval e =? 0); simpl in Hsave; [| by injection Hsave as <-].
    destruct (save_database_spec e) as (e3 & Hs & Hc & _). rewrite Hs in Hsave. congruence.
  - destruct (save_interval e =? 0); simpl in Hsave; [discriminate |].
    destruct (count mod save_interval e =? 0); simpl in Hsave; [| by injection Hsave as <-].
    destruct (save_database_spec e) as (e3 & Hs & _ & Hst & _). rewrite Hs in Hsave. congruence.
Qed.




(** C9, the statement as it stands fails: [beyond_float] is an odd prime,
    and [next_prime] does not return it on a new engine: the conversion to
    a float overflows in [math.sqrt]. *)
Lemma odd_prime_beyond_float_is_not_returned :
  3 <= beyond_float /\ beyond_float mod 2 = 1 /\ ref_prime beyond_float
  /\ fst (next_prime 1 beyond_float (snd (init None NoFile true (fun _ => 0%float) true)))
     = Raise OverflowError.
Proof.
  split_and!.
  - apply Z.leb_le. vm_compute. reflexivity.
  - vm_compute. reflexivity.
  - exact beyond_float_prime.
  - vm_compute. reflexivity.
Qed.

End generator_facts.

(** ** The gap statistics *)

Section gap_statistics.
Import BinaryPrimeEngine.

Lemma preserves_bind {S A B : Type} (R : S -> S -> Prop) (m : M S A) (k : A -> M S B) :
  (forall s1 s2 s3, R s1 s2 -> R s2 s3 -> R s1 s3) ->
  preserves R m -> (forall a, preserves R (k a)) -> preserves R (bind m k).
Proof.
  intros Htrans Hm Hk s. unfold bind. specialize (Hm s).
  destruct (m s) as [[a | x |] s1]; simpl in *; try done.
  eapply Htrans; [exact Hm | apply Hk].
Qed.

Lemma keeps_gap_stats_refl (e : t) : keeps_gap_stats e e.
Proof. by repeat split. Qed.

Lemma keeps_gap_stats_trans (e1 e2 e3 : t) :
  keeps_gap_stats e1 e2 -> keeps_gap_stats e2 e3 -> keeps_gap_stats e1 e3.
Proof.
  unfold keeps_gap_stats, gap_stats_unchanged. intros ? ?.
  split_and!; destruct_and?; congruence.
Qed.

Lemma preserves_same_stats {A : Type} (m : M t A) :
  (forall e, stats (snd (m e)) = stats e) -> preserves keeps_gap_stats m.
Proof. intros H e. unfold keeps_gap_stats. rewrite H. by repeat split. Qed.

Lemma with_cache_stats {A : Type} (m : M PrimeCache.t A) (e : t) :
  stats (snd (with_cache m e)) = stats e.
Proof. unfold with_cache. by destruct (m (cache e)). Qed.

Lemma record_composite_keeps (n : Z) : preserves keeps_gap_stats (record_composite n).
Proof.
  apply preserves_same_stats. intros e. unfold record_composite, bind.
  pose proof (with_cache_stats (PrimeCache.put n false) e) as Hw.
  destruct (with_cache (PrimeCache.put n false) e) as [[[] | x |] e1] eqn:E;
    simpl in Hw |- *; try done.
  destruct (n =? 0); unfold code_db_add, modify;
    match goal with |- context [code_mem ?c ?d] => by destruct (code_mem c d) end.
Qed.

Lemma is_prime_optimized_keeps (n : Z) : preserves keeps_gap_stats (is_prime_optimized n).
Proof.
  unfold is_prime_optimized.
  destruct (n <? 2); [intros e; apply keeps_gap_stats_refl |].
  destruct (n =? 2); [intros e; apply keeps_gap_stats_refl |].
  destruct (n mod 2 =? 0); [intros e; apply keeps_gap_stats_refl |].
  apply preserves_bind; [apply keeps_gap_stats_trans | |].
  { apply preserves_same_stats, with_cache_stats. }
  intros [v |].
  - intros e. unfold bind, stat, lift, assign, modify, ret.
    destruct (py_add_one (cache_hits (stats e))); simpl; by repeat split.
  - apply preserves_bind; [apply keeps_gap_stats_trans | |].
    { intros e. apply keeps_gap_stats_refl. }
    intros f. apply preserves_bind; [apply keeps_gap_stats_trans | |].
    { intros e. apply keeps_gap_stats_refl. }
    intros root. cbv zeta.
    destruct (small_divisor _ _ _).
    { apply preserves_bind; [apply keeps_gap_stats_trans | apply record_composite_keeps |].
      intros _ e. apply keeps_gap_stats_refl. }
    destruct (odd_divisor _ _ _).
    { apply preserves_bind; [apply keeps_gap_stats_trans | apply record_composite_keeps |].
      intros _ e. apply keeps_gap_stats_refl. }
    apply preserves_bind; [apply keeps_gap_stats_trans | |].
    + apply preserves_same_stats, with_cache_stats.
    + intros _ e. apply keeps_gap_stats_refl.
Qed.

Lemma count_candidate_keeps : preserves keeps_gap_stats count_candidate.
Proof.
  intros e. unfold count_candidate, bind, stat, lift, assign, modify.
  destruct (py_add_one (total_candidates (stats e))); simpl; by repeat split.
Qed.

Lemma next_prime_loop_keeps (fuel : nat) (n : Z) :
  preserves keeps_gap_stats (next_prime_loop fuel n).
Proof.
  revert n. induction fuel as [| fuel IH]; intros n; simpl.
  - intros e. apply keeps_gap_stats_refl.
  - apply preserves_bind; [apply keeps_gap_stats_trans | apply is_prime_optimized_keeps |].
    intros [|]; [intros e; apply keeps_gap_stats_refl |].
    apply preserves_bind; [apply keeps_gap_stats_trans | apply count_candidate_keeps |].
    intros _. apply IH.
Qed.

Lemma next_prime_keeps (fuel : nat) (n : Z) : preserves keeps_gap_stats (next_prime fuel n).
Proof.
  unfold next_prime.
  apply preserves_bind; [apply keeps_gap_stats_trans | apply count_candidate_keeps |].
  intros _. destruct (n <? 2); [intros e; apply keeps_gap_stats_refl |].
  destruct (n =? 2); [intros e; apply keeps_gap_stats_refl |].
  apply next_prime_loop_keeps.
Qed.

(** What a call of [_update_stats] that returns has done to the gap
    statistics. *)
Lemma update_stats_inv (gap : Z) (elapsed : float) (e e' : t) :
  _update_stats gap elapsed e = (Ret tt, e') ->
  py_add_one (total_primes (stats e)) = Ret (total_primes (stats e'))
  /\ (gap <= 0 ->
      avg_gap (stats e') = avg_gap (stats e)
      /\ max_gap (stats e') = max_gap (stats e)
      /\ min_gap (stats e') = min_gap (stats e))
  /\ (0 < gap ->
      py_max (max_gap (stats e)) gap = Ret (max_gap (stats e'))
      /\ py_min (min_gap (stats e)) gap = Ret (min_gap (stats e'))
      /\ if py_eq_int (total_primes (stats e')) 1
         then avg_gap (stats e') = PInt gap
         else exists x y,
                py_float_mul (1 - alpha)%float (avg_gap (stats e)) = Ret x
                /\ py_float_mul alpha (PInt gap) = Ret y
                /\ avg_gap (stats e') = PFloat (x + y)%float).
Proof.
  unfold _update_stats, bind, stat, lift, assign, modify, get_state, ret. simpl.
  destruct (py_add_one (total_primes (stats e))) as [tp | |] eqn:Htp;
    simpl; try (by intros [=]).
  destruct (gap >? 0) eqn:Hg; simpl.
  - apply Z.gtb_lt in Hg.
    destruct (py_max (max_gap (stats e)) gap) as [mx | |] eqn:Hmx;
      simpl; try (by intros [=]).
    destruct (py_min (min_gap (stats e)) gap) as [mn | |] eqn:Hmn;
      simpl; try (by intros [=]).
    destruct (py_eq_int tp 1) eqn:Heq; simpl.
    + destruct (0 <? elapsed)%float; simpl.
      * destruct (py_div_float tp elapsed) as [r | |]; simpl; try (by intros [=]).
        intros [= <-]. simpl. rewrite Heq. split_and!; [done | lia | done].
      * intros [= <-]. simpl. rewrite Heq. split_and!; [done | lia | done].
    + destruct (py_float_mul (1 - alpha) (avg_gap (stats e))) as [x | |] eqn:Hx;
        simpl in Hx |- *; rewrite ?Hx; simpl; try (by intros [=]).
      destruct (py_float_mul alpha (PInt gap)) as [y | |] eqn:Hy;
        simpl in Hy |- *; rewrite ?Hy; simpl; try (by intros [=]).
      destruct (0 <? elapsed)%float; simpl.
      * destruct (py_div_float tp elapsed) as [r | |]; simpl; try (by intros [=]).
        intros [= <-]. simpl. rewrite Heq.
        split_and!; [done | lia | intros _; split_and!; [done | done | by exists x, y]].
      * intros [= <-]. simpl. rewrite Heq.
        split_and!; [done | lia | intros _; split_and!; [done | done | by exists x, y]].
  - rewrite Z.gtb_ltb in Hg. apply Z.ltb_ge in Hg. destruct (0 <? elapsed)%float; simpl.
    + destruct (py_div_float tp elapsed) as [r | |]; simpl; try (by intros [=]).
      intros [= <-]. simpl. split_and!; [done | done | lia].
    + intros [= <-]. simpl. split_and!; [done | done | lia].
Qed.

#[warnings="-inexact-float"]
Lemma one_minus_alpha : (1 - alpha)%float = 0.9%float.
Proof. reflexivity. Qed.

(** The first emission of a generator on fresh statistics. *)
Lemma first_emission (fuel : nat) (start : Z) (limit : option Z) (e e' : t)
    (r : emission) (g' : generator) :
  stats e = PrimeStats_default ->
  gen_next fuel (GenCreated start limit) e = (Ret (Some r, g'), e') ->
  exists p start_time,
    r = (1, p, 0) /\ g' = GenSuspended limit start_time 1 p
    /\ total_primes (stats e') = PInt 1
    /\ avg_gap (stats e') = PFloat 0
    /\ max_gap (stats e') = max_gap PrimeStats_default
    /\ min_gap (stats e') = min_gap PrimeStats_default.
Proof.
  intros Hfresh. unfold gen_next. unfold bind at 1, time_time at 1.
  intros (p & e1 & Hp & Hu & -> & ->)%gen_loop_emit.
  pose proof (next_prime_keeps fuel start (set_ticks (S (ticks e)) e)) as Hk.
  rewrite Hp in Hk. destruct Hk as (Htp & Havg & Hmax & Hmin). simpl in *.
  apply update_stats_inv in Hu as (Hadd & Hzero & _). simpl in Hadd, Hzero.
  destruct Hzero as (Ha & Hmx & Hmn); [lia |].
  rewrite Htp, Hfresh in Hadd. injection Hadd as Hadd.
  exists p, (clock e (ticks e)). split_and!; try done.
  - by rewrite Ha, Havg, Hfresh.
  - by rewrite Hmx, Hmax, Hfresh.
  - by rewrite Hmn, Hmin, Hfresh.
Qed.

(** Every later emission. *)
Lemma later_emission (fuel : nat) (limit : option Z) (start_time : float)
    (count p : Z) (e e' : t) (r : emission) (g' : generator) (n : Z) (a : float) :
  total_primes (stats e) = PInt n -> 1 <= n -> avg_gap (stats e) = PFloat a ->
  gen_next fuel (GenSuspended limit start_time count p) e = (Ret (Some r, g'), e') ->
  exists p',
    r = (count + 1, p', p' - p) /\ g' = GenSuspended limit start_time (count + 1) p'
    /\ smoothed_update (stats e) (p' - p) (stats e')
    /\ total_primes (stats e') = PInt (n + 1)
    /\ exists a', avg_gap (stats e') = PFloat a'.
Proof.
  intros Hn Hn1 Ha Hg.
  apply gen_next_suspended_emit in Hg as (e0 & _ & Hst0 & Hg).
  apply gen_loop_emit in Hg as (q & e1 & Hq & Hu & -> & ->).
  pose proof (next_prime_keeps fuel (p + 1) e0) as Hk.
  rewrite Hq in Hk. destruct Hk as (Htp & Havg & Hmax & Hmin). simpl in *.
  pose proof (next_prime_ge _ _ _ _ _ Hq) as [Hge _].
  apply update_stats_inv in Hu as (Hadd & _ & Hpos). simpl in Hadd, Hpos.
  destruct Hpos as (Hmx & Hmn & Hsm); [lia |].
  rewrite Htp, Hst0, Hn in Hadd. injection Hadd as Hadd.
  rewrite <- Hadd in Hsm. simpl in Hsm.
  destruct (n + 1 =? 1) eqn:E; [apply Z.eqb_eq in E; lia |].
  destruct Hsm as (x & y & Hx & Hy & Hnew).
  rewrite Havg, Hst0, Ha in Hx. simpl in Hx. injection Hx as <-.
  unfold py_float_mul, py_as_float in Hy.
  destruct (float_of_int (q - p)) as [g | |] eqn:Hfl; [| discriminate..].
  injection Hy as <-.
  exists q. split_and!; [done | done | | done | by eexists].
  split_and!; [lia | | by rewrite <- Hst0, <- Hmax | by rewrite <- Hst0, <- Hmin].
  exists a, g. split_and!; [done | done | exact Hnew].
Qed.

Lemma generate_S (fuel k : nat) (g : generator) (e : t) :
  generate fuel (S k) g e
  = match gen_next fuel g e with
    | (Ret (Some r, g'), e') => (r, e') :: generate fuel k g' e'
    | _ => []
    end.
Proof. reflexivity. Qed.

(** The run of a generator that has emitted already. *)
Lemma generate_suspended (fuel k : nat) :
  forall (limit : option Z) (start_time : float) (count p : Z) (e : t) (n : Z) (a : float),
  total_primes (stats e) = PInt n -> 1 <= n -> avg_gap (stats e) = PFloat a ->
  (forall c' p' gap e1,
     generate fuel k (GenSuspended limit start_time count p) e !! 0%nat
       = Some ((c', p', gap), e1) ->
     smoothed_update (stats e) gap (stats e1))
  /\ (forall i r0 e0 c' p' gap e1,
        generate fuel k (GenSuspended limit start_time count p) e !! i = Some (r0, e0) ->
        generate fuel k (GenSuspended limit start_time count p) e !! S i
          = Some ((c', p', gap), e1) ->
        smoothed_update (stats e0) gap (stats e1)).
Proof.
  induction k as [| k IH]; intros limit start_time count p e n a Hn Hn1 Ha.
  { split; intros; discriminate. }
  rewrite generate_S.
  destruct (gen_next fuel (GenSuspended limit start_time count p) e)
    as [[[[r |] g'] | x |] e'] eqn:Hg; try (split; intros; discriminate).
  destruct (later_emission _ _ _ _ _ _ _ _ _ n a Hn Hn1 Ha Hg)
    as (p' & -> & -> & Hsm & Hn' & a' & Ha').
  destruct (IH limit start_time (count + 1) p' e' (n + 1) a' Hn' ltac:(lia) Ha')
    as [Hfirst Hrest].
  split.
  - intros c' q gap e1 H. simpl in H. injection H as <- <- <- <-. exact Hsm.
  - intros [| i] r0 e0 c' q gap e1 H0 H1; simpl in H0, H1.
    + injection H0 as <- <-. by apply (Hfirst c' q).
    + by apply (Hrest i r0 e0 c' q).
Qed.

(** C6.  In a generator run on freshly initialised statistics, the first
    emitted prime has gap 0 and leaves [avg_gap] equal to it (0.0), the
    extrema being as initialised; every later emission has a gap [g > 0],
    after it [avg_gap] is 0.9 times its previous value plus 0.1 times [g]
    (in binary64, [g] converted to a float), [max_gap] is the maximum of
    its previous value and [g], and [min_gap] the minimum. *)
Theorem gap_statistics_of_a_run
    (fuel k : nat) (start : Z) (limit : option Z) (e : t) :
  stats e = PrimeStats_default ->
  (forall count p gap e1,
     generate fuel k (GenCreated start limit) e !! 0%nat = Some ((count, p, gap), e1) ->
     gap = 0
     /\ avg_gap (stats e1) = PFloat 0
     /\ py_eq_int (avg_gap (stats e1)) gap = true
     /\ max_gap (stats e1) = max_gap PrimeStats_default
     /\ min_gap (stats e1) = min_gap PrimeStats_default)
  /\ (forall i r0 e0 count p gap e1,
        generate fuel k (GenCreated start limit) e !! i = Some (r0, e0) ->
        generate fuel k (GenCreated start limit) e !! S i = Some ((count, p, gap), e1) ->
        smoothed_update (stats e0) gap (stats e1)).
Proof.
  intros Hfresh. destruct k as [| k]; [split; intros; discriminate |].
  rewrite generate_S.
  destruct (gen_next fuel (GenCreated start limit) e)
    as [[[[r |] g'] | x |] e'] eqn:Hg; try (split; intros; discriminate).
  destruct (first_emission _ _ _ _ _ _ _ Hfresh Hg)
    as (p & st & -> & -> & Hn & Ha & Hmx & Hmn).
  destruct (generate_suspended fuel k limit st 1 p e' 1 0%float Hn ltac:(lia) Ha)
    as [Hfirst Hrest].
  split.
  - intros c' q gap e1 H. simpl in H. injection H as <- <- <- <-. rewrite Ha. by split_and!.
  - intros [| i] r0 e0 c' q gap e1 H0 H1; simpl in H0, H1.
    + injection H0 as <- <-. by apply (Hfirst c' q).
    + by apply (Hrest i r0 e0 c' q).
Qed.

End gap_statistics.

(** ** The first emissions *)

Section first_emissions.
Import BinaryPrimeEngine.

(** Small ints convert to floats without overflow. *)
Lemma float_of_int_small (z : Z) :
  0 <= z < 64 -> exists f, float_of_int z = Ret f.
Proof.
  intros Hz.
  assert (Hall : forallb (fun k => match float_of_int (Z.of_nat k) with
                                   | Ret _ => true
                                   | _ => false
                                   end) (seq 0 64) = true)
    by (vm_compute; reflexivity).
  rewrite forallb_forall in Hall. specialize (Hall (Z.to_nat z)).
  rewrite Z2Nat.id in Hall by lia.
  destruct (float_of_int z) as [f | |]; [by exists f | |];
    (assert (false = true); [apply Hall; apply in_seq; lia | discriminate]).
Qed.

Lemma update_stats_forward (gap : Z) (elapsed : float) (e : t) (n : Z) :
  total_primes (stats e) = PInt n -> 0 <= n < 63 -> 0 <= gap < 64 ->
  gap = 0 \/ 1 <= n ->
  (exists a, avg_gap (stats e) = PFloat a) ->
  (exists m, max_gap (stats e) = PInt m) ->
  (min_gap (stats e) = PFloat infinity \/ exists m, min_gap (stats e) = PInt m) ->
  (exists r, primes_per_second (stats e) = PFloat r) ->
  exists e',
    _update_stats gap elapsed e = (Ret tt, e')
    /\ cache e' = cache e /\ running e' = running e
    /\ save_interval e' = save_interval e /\ progress_interval e' = progress_interval e
    /\ total_candidates (stats e') = total_candidates (stats e)
    /\ cache_hits (stats e') = cache_hits (stats e)
    /\ total_primes (stats e') = PInt (n + 1)
    /\ (exists a, avg_gap (stats e') = PFloat a)
    /\ (exists m, max_gap (stats e') = PInt m)
    /\ (min_gap (stats e') = PFloat infinity \/ exists m, min_gap (stats e') = PInt m)
    /\ (exists r, primes_per_second (stats e') = PFloat r).
Proof.
  intros Hn Hn63 Hgap Hfirst [a Ha] [mx Hmx] Hmin Hpps.
  destruct (float_of_int_small gap Hgap) as [fg Hfg].
  destruct (float_of_int_small (n + 1) ltac:(lia)) as [fn Hfn].
  assert (Hpy_min : exists mn, py_min (min_gap (stats e)) gap = Ret (PInt mn)).
  { destruct Hmin as [-> | [m ->]]; simpl.
    - by exists gap.
    - unfold py_min, py_int_lt. destruct (gap <? m); by eexists. }
  destruct Hpy_min as [mn Hmn].
  assert (Hy : py_float_mul alpha (PInt gap) = Ret (alpha * fg)%float)
    by (unfold py_float_mul, py_as_float; by rewrite Hfg).
  assert (Hdiv : py_div_float (PInt (n + 1)) elapsed = Ret (fn / elapsed)%float)
    by (unfold py_div_float, py_as_float; by rewrite Hfn).
  unfold _update_stats, bind, stat, lift, assign, modify, get_state, ret. simpl.
  rewrite Hn. simpl. destruct (gap >? 0) eqn:Hg; simpl.
  - apply Z.gtb_lt in Hg. destruct Hfirst as [-> | Hn1]; [lia |].
    rewrite Hmx. simpl. rewrite Hmn. simpl.
    destruct (n + 1 =? 1) eqn:E; [apply Z.eqb_eq in E; lia |].
    simpl. rewrite Ha. simpl. rewrite Hy. simpl.
    destruct (mx <? gap);
    destruct (0 <? elapsed)%float; simpl; [rewrite Hdiv; simpl | | rewrite Hdiv; simpl |];
      eexists; split_and!; try reflexivity; try (by eexists); try exact Hpps;
      right; by eexists.
  - destruct (0 <? elapsed)%float; simpl; [rewrite Hdiv; simpl |];
      eexists; split_and!; try reflexivity; try (by eexists); try exact Hpps;
      exact Hmin.
Qed.

Lemma ready_same (e e0 : t) (n : Z) :
  ready e n ->
  cache e0 = cache e -> stats e0 = stats e -> running e0 = running e ->
  save_interval e0 = save_interval e -> progress_interval e0 = progress_interval e ->
  ready e0 n.
Proof.
  unfold ready, cache_sound. intros H Hc Hs Hr Hsi Hpi.
  rewrite Hc, Hs, Hr, Hsi, Hpi. exact H.
Qed.

Lemma finds_two (fuel : nat) (n : Z) (e : t) (k : Z) :
  ready e k -> n < 2 -> finds fuel n e 2.
Proof.
  intros (Hc & Hs & _ & _ & _ & _ & [c Hc'] & [h Hh] & _) Hn.
  exists (set_stats (set_total_candidates (PInt (c + 1)) (stats e)) e), (c + 1), h.
  split_and!; [by apply next_prime_below_2 | done | done | by repeat split |].
  simpl. destruct (stats e). simpl in *. by subst.
Qed.

Lemma finds_after (m fuel : nat) (n : Z) (e : t) (k : Z) :
  ready e k -> (m < fuel)%nat -> 3 <= n ->
  (forall j, 0 <= j < Z.of_nat m ->
     verdict ((if n mod 2 =? 0 then n + 1 else n) + 2 * j) = Ret false) ->
  verdict ((if n mod 2 =? 0 then n + 1 else n) + 2 * Z.of_nat m) = Ret true ->
  finds fuel n e ((if n mod 2 =? 0 then n + 1 else n) + 2 * Z.of_nat m).
Proof.
  intros (Hc & Hs & _ & _ & _ & _ & [c Hc'] & [h Hh] & _) Hf Hn Hfail Hok.
  destruct (next_prime_spec m fuel n e c h Hf Hn Hc Hs Hc' Hh Hfail Hok)
    as (e' & h' & Hr & Hc1 & Hs1 & Henv & Hst & _).
  exists e', (c + 1 + Z.of_nat m), h'. by split_and!.
Qed.

Lemma gen_loop_forward (fuel : nat) (limit : option Z) (start_time : float)
    (n : Z) (last_prime : option Z) (count : Z) (e : t) (k q : Z) :
  ready e k -> 0 <= k < 63 ->
  match limit with None => True | Some l => count < l end ->
  finds fuel n e q ->
  0 <= match last_prime with None => 0 | Some p => q - p end < 64 ->
  match last_prime with None => 0 | Some p => q - p end = 0 \/ 1 <= k ->
  exists e',
    gen_loop fuel limit start_time n last_prime count e
    = (Ret (Some (count + 1, q, match last_prime with None => 0 | Some p => q - p end),
            GenSuspended limit start_time (count + 1) q), e')
    /\ ready e' (k + 1).
Proof.
  intros (Hc & Hs & Hrun & Hsi & Hpi & Hk & [c Hc'] & [h Hh] & Ha & Hmx & Hmn & Hpps)
         Hk63 Hlim
         (e1 & c1 & h1 & Hq & Hc1 & Hs1 & Henv & Hst) Hgap Hfirst.
  destruct Henv as (Hrun1 & Hsi1 & Hpi1 & _).
  set (gap := match last_prime with None => 0 | Some p => q - p end) in *.
  set (e2 := set_ticks (S (ticks e1)) e1).
  destruct (update_stats_forward gap (clock e1 (ticks e1) - start_time)%float e2 k)
    as (e' & Hu & Hc2 & Hrun2 & Hsi2 & Hpi2 & Htc2 & Hh2 & Hk2 & Ha2 & Hmx2 & Hmn2 & Hpps2);
    try done; try (simpl; rewrite Hst; simpl; done).
  exists e'. split.
  - unfold gen_loop. rewrite (bind_Ret get_state _ e e e eq_refl), Hrun.
    replace (match limit with None => true | Some l => count <? l end) with true
      by (destruct limit; [symmetry; by apply Z.ltb_lt | done]).
    cbn [andb]. rewrite (bind_Ret _ _ _ _ _ Hq). cbv zeta.
    rewrite (bind_Ret time_time _ e1 e2 (clock e1 (ticks e1)) eq_refl).
    fold gap. by rewrite (bind_Ret _ _ _ _ _ Hu).
  - unfold ready, cache_sound. rewrite Hc2, Hrun2, Hsi2, Hpi2, Htc2, Hh2. simpl.
    rewrite Hrun1, Hsi1, Hpi1, Hst. simpl.
    split_and!; try done; by eexists.
Qed.

Lemma gen_next_created_forward (fuel : nat) (start : Z) (limit : option Z) (e : t) :
  ready e 0 -> start < 2 ->
  match limit with None => True | Some l => 0 < l end ->
  exists e' start_time,
    gen_next fuel (GenCreated start limit) e
    = (Ret (Some (1, 2, 0), GenSuspended limit start_time 1 2), e')
    /\ ready e' 1.
Proof.
  intros Hr Hs Hlim. unfold gen_next.
  set (e0 := set_ticks (S (ticks e)) e).
  rewrite (bind_Ret time_time _ e e0 (clock e (ticks e)) eq_refl).
  assert (Hr0 : ready e0 0) by (by apply (ready_same e)).
  destruct (gen_loop_forward fuel limit (clock e (ticks e)) start None 0 e0 0 2)
    as (e' & Hg & Hr'); try done; try lia.
  - by apply (finds_two _ _ _ 0).
  - exists e', (clock e (ticks e)). by split.
Qed.

Lemma gen_next_suspended_forward (fuel : nat) (limit : option Z) (start_time : float)
    (count p : Z) (e : t) (k q : Z) :
  ready e k -> 1 <= k < 63 ->
  match limit with None => True | Some l => count < l end ->
  (forall e0, ready e0 k -> finds fuel (p + 1) e0 q) ->
  0 <= q - p < 64 ->
  exists e',
    gen_next fuel (GenSuspended limit start_time count p) e
    = (Ret (Some (count + 1, q, q - p), GenSuspended limit start_time (count + 1) q), e')
    /\ ready e' (k + 1).
Proof.
  intros Hr Hk Hlim Hfinds Hgap.
  pose proof Hr as (_ & _ & _ & Hsi & Hpi & _).
  assert (Hcheck : exists e0,
            (if save_interval e =? 0 then raise ZeroDivisionError
             else if count mod save_interval e =? 0 then _save_database else ret tt) e
            = (Ret tt, e0) /\ ready e0 k).
  { apply Z.eqb_neq in Hsi. rewrite Hsi. destruct (count mod save_interval e =? 0).
    - destruct (save_database_spec e) as (e0 & Hs & ? & ? & ? & ? & ? & ?).
      exists e0. split; [done |]. by apply (ready_same e).
    - by exists e. }
  destruct Hcheck as (e0 & Hcheck & Hr0).
  destruct (gen_loop_forward fuel limit start_time (p + 1) (Some p) count e0 k q)
    as (e' & Hg & Hr'); try done; try lia; [by apply Hfinds |].
  exists e'. split; [| done].
  unfold gen_next. rewrite (bind_Ret get_state _ e e e eq_refl).
  rewrite (bind_Ret _ _ _ _ _ Hcheck).
  apply Z.eqb_neq in Hpi. rewrite Hpi.
  assert (Hlog : (if count mod progress_interval e =? 0 then _log_progress else ret tt) e0
                 = (Ret tt, e0)).
  { destruct (count mod progress_interval e =? 0); [| done].
    destruct Hr0 as (_ & _ & _ & _ & _ & _ & _ & _ & _ & _ & _ & [r0 Hpps0]).
    by apply (log_progress_float e0 r0). }
  rewrite (bind_Ret _ _ _ _ _ Hlog). exact Hg.
Qed.

(** C2.  On an engine in working order with fresh statistics, the
    generator started at 1 with no maximum count yields, as its first five
    results, [(1,2,0)], [(2,3,1)], [(3,5,2)], [(4,7,2)] and [(5,11,4)]:
    the first gap is 0, each later gap is the difference from the prime
    emitted just before. *)
Theorem first_five_emissions (fuel : nat) (e : t) :
  (2 <= fuel)%nat ->
  stats e = PrimeStats_default ->
  PrimeCache.consistent (cache e) -> cache_sound e ->
  running e = true -> save_interval e <> 0 -> progress_interval e <> 0 ->
  map fst (generate fuel 5 (GenCreated 1 None) e)
  = [(1, 2, 0); (2, 3, 1); (3, 5, 2); (4, 7, 2); (5, 11, 4)].
Proof.
  intros Hf Hfresh Hc Hs Hrun Hsi Hpi.
  assert (Hr0 : ready e 0).
  { unfold ready. rewrite Hfresh. simpl.
    split_and!; try done; try (by eexists). by left. }
  destruct (gen_next_created_forward fuel 1 None e Hr0) as (e1 & st & Hg1 & Hr1);
    [lia | done |].
  destruct (gen_next_suspended_forward fuel None st 1 2 e1 1 3 Hr1) as (e2 & Hg2 & Hr2);
    [lia | done | | lia |].
  { intros e0 H0. apply (finds_after 0 fuel 3 e0 1 H0); [lia | lia | intros j Hj; lia |].
    vm_compute. reflexivity. }
  destruct (gen_next_suspended_forward fuel None st 2 3 e2 2 5 Hr2) as (e3 & Hg3 & Hr3);
    [lia | done | | lia |].
  { intros e0 H0. apply (finds_after 0 fuel 4 e0 2 H0); [lia | lia | intros j Hj; lia |].
    vm_compute. reflexivity. }
  destruct (gen_next_suspended_forward fuel None st 3 5 e3 3 7 Hr3) as (e4 & Hg4 & Hr4);
    [lia | done | | lia |].
  { intros e0 H0. apply (finds_after 0 fuel 6 e0 3 H0); [lia | lia | intros j Hj; lia |].
    vm_compute. reflexivity. }
  destruct (gen_next_suspended_forward fuel None st 4 7 e4 4 11 Hr4) as (e5 & Hg5 & Hr5);
    [lia | done | | lia |].
  { intros e0 H0. apply (finds_after 1 fuel 8 e0 4 H0); [lia | lia | |].
    - intros j Hj. replace j with 0 by lia. vm_compute. reflexivity.
    - vm_compute. reflexivity. }
  change (0 + 1) with 1 in Hg1. change (1 + 1) with 2 in Hg2.
  change (2 + 1) with 3 in Hg3. change (3 + 1) with 4 in Hg4.
  rewrite generate_S, Hg1. cbv iota.
  rewrite generate_S, Hg2. cbv iota.
  rewrite generate_S, Hg3. cbv iota.
  rewrite generate_S, Hg4. cbv iota.
  rewrite generate_S, Hg5. reflexivity.
Qed.

End first_emissions.

Section run_witnesses.
Import BinaryPrimeEngine.

Lemma first_five_emissions_witness :
  map fst (generate 2 5 (GenCreated 1 None)
             (snd (init None NoFile true (fun _ => 0%float) true)))
  = [(1, 2, 0); (2, 3, 1); (3, 5, 2); (4, 7, 2); (5, 11, 4)].
Proof.
  apply (first_five_emissions 2 (snd (init None NoFile true (fun _ => 0%float) true))).
  - lia.
  - reflexivity.
  - apply consistent_init.
  - intros n v H. vm_compute in H. discriminate.
  - reflexivity.
  - intros H. vm_compute in H. discriminate.
  - intros H. vm_compute in H. discriminate.
Defined.

Lemma gap_statistics_of_a_run_witness :
  (forall count p gap e1,
     generate 2 5 (GenCreated 1 None) (snd (init None NoFile true (fun _ => 0%float) true))
       !! 0%nat = Some ((count, p, gap), e1) ->
     gap = 0
     /\ avg_gap (stats e1) = PFloat 0
     /\ py_eq_int (avg_gap (stats e1)) gap = true
     /\ max_gap (stats e1) = max_gap PrimeStats_default
     /\ min_gap (stats e1) = min_gap PrimeStats_default)
  /\ (forall i r0 e0 count p gap e1,
        generate 2 5 (GenCreated 1 None) (snd (init None NoFile true (fun _ => 0%float) true))
          !! i = Some (r0, e0) ->
        generate 2 5 (GenCreated 1 None) (snd (init None NoFile true (fun _ => 0%float) true))
          !! S i = Some ((count, p, gap), e1) ->
        smoothed_update (stats e0) gap (stats e1)).
Proof.
  apply (gap_statistics_of_a_run 2 5 1 None
           (snd (init None NoFile true (fun _ => 0%float) true))).
  reflexivity.
Defined.

End run_witnesses.

(** ** The binary encoders *)

Section binary_code_facts.

Lemma string_length_app (s1 s2 : string) :
  String.length (s1 ++ s2) = (String.length s1 + String.length s2)%nat.
Proof. induction s1 as [| c s1 IH]; simpl; [done | by rewrite IH]. Qed.

Lemma bin_value_acc_app (s1 s2 : string) (acc : Z) :
  bin_value_acc acc (s1 ++ s2) = bin_value_acc (bin_value_acc acc s1) s2.
Proof. revert acc. induction s1 as [| c s1 IH]; intros acc; simpl; [done | apply IH]. Qed.

Lemma binary_string_app (s1 s2 : string) :
  binary_string s1 -> binary_string s2 -> binary_string (s1 ++ s2).
Proof. induction s1 as [| c s1 IH]; simpl; [done | intros [? ?] ?; auto]. Qed.

Lemma zeros_length (k : nat) : String.length (zeros k) = k.
Proof. induction k as [| k IH]; simpl; [done | by rewrite IH]. Qed.

Lemma zeros_value (k : nat) : bin_value_acc 0 (zeros k) = 0.
Proof. induction k as [| k IH]; simpl; [done | exact IH]. Qed.

Lemma zeros_binary (k : nat) : binary_string (zeros k).
Proof. induction k as [| k IH]; simpl; [done | auto]. Qed.

Lemma bin_digits_length (p : positive) :
  Z.of_nat (String.length (bin_digits p)) = Z.pos (Pos.size p).
Proof.
  induction p as [p IH | p IH |]; simpl; [| | done];
    rewrite string_length_app; simpl; lia.
Qed.

Lemma bin_digits_value (p : positive) : bin_value (bin_digits p) = Z.pos p.
Proof.
  unfold bin_value. induction p as [p IH | p IH |]; simpl; [| | done];
    rewrite bin_value_acc_app, IH; simpl; lia.
Qed.

Lemma bin_digits_binary (p : positive) : binary_string (bin_digits p).
Proof.
  induction p as [p IH | p IH |]; simpl; [| | auto];
    apply binary_string_app; simpl; auto.
Qed.

Lemma bit_length_pos (p : positive) : bit_length (Z.pos p) = Z.pos (Pos.size p).
Proof. unfold bit_length. simpl. destruct p; simpl; lia. Qed.

(** [format(n, '0{w}b')] for [n >= 0]: binary digits that denote [n],
    as many as [n] needs and at least [w]. *)
Lemma format_0b_nonneg (n w : Z) :
  0 <= n -> 1 <= w ->
  binary_string (format_0b n w)
  /\ bin_value (format_0b n w) = n
  /\ Z.of_nat (String.length (format_0b n w)) = Z.max w (bit_length n).
Proof.
  intros Hn Hw. destruct n as [| p | p]; [| | lia].
  - change (format_0b 0 w) with (zeros (Z.to_nat (w - 0 - 1)) ++ "0")%string.
    split_and!.
    + apply binary_string_app; [apply zeros_binary | simpl; auto].
    + unfold bin_value. by rewrite bin_value_acc_app, zeros_value.
    + rewrite string_length_app, zeros_length. unfold bit_length. simpl. lia.
  - change (format_0b (Z.pos p) w)
      with (zeros (Z.to_nat (w - 0 - Z.of_nat (String.length (bin_digits p))))
            ++ bin_digits p)%string.
    split_and!.
    + apply binary_string_app; [apply zeros_binary | apply bin_digits_binary].
    + unfold bin_value. rewrite bin_value_acc_app, zeros_value. apply bin_digits_value.
    + rewrite string_length_app, zeros_length, Nat2Z.inj_add, bin_digits_length.
      rewrite bit_length_pos. lia.
Qed.

Lemma bit_length_le (n w : Z) : 0 <= n -> 0 <= w -> (bit_length n <= w <-> n < 2 ^ w).
Proof.
  intros Hn Hw. unfold bit_length. destruct (n =? 0) eqn:E.
  - apply Z.eqb_eq in E. subst. split; [intros _; by apply Z.pow_pos_nonneg | lia].
  - apply Z.eqb_neq in E. rewrite Z.abs_eq by lia.
    rewrite (Z.log2_lt_pow2 n w) by lia. lia.
Qed.

(** C3, as amended.  For every [n >= 0] and every explicit width [w > 0],
    the adaptive encoder returns the binary digits of [n] padded with
    zeros on the left up to [w] characters: the string denotes [n] itself,
    it has [w] characters when [n < 2^w] and the [bit_length n > w]
    characters [n] needs when [n >= 2^w]; no bit of [n] is discarded.  The
    fixed-width encoder of [binary_prime_engine_pro.py] is the one that
    returns exactly [w] characters holding the low [w] bits of [n]. *)
Theorem binary_code_explicit_width (n w : Z) :
  0 <= n -> 0 < w ->
  (exists s,
     BinaryPrimeEngine.binary_code n (Some w) = Ret s
     /\ binary_string s /\ bin_value s = n
     /\ Z.of_nat (String.length s) = Z.max w (bit_length n)
     /\ (n < 2 ^ w -> Z.of_nat (String.length s) = w)
     /\ (2 ^ w <= n -> w < Z.of_nat (String.length s)))
  /\ (exists s,
        BinaryPrimeEnginePro.binary_code n (Some w) = Ret s
        /\ binary_string s /\ bin_value s = n mod 2 ^ w
        /\ Z.of_nat (String.length s) = w).
Proof.
  intros Hn Hw. split.
  - exists (format_0b n w).
    destruct (format_0b_nonneg n w) as (Hb & Hv & Hl); [lia | lia |].
    pose proof (bit_length_le n w ltac:(lia) ltac:(lia)) as Hbl.
    unfold BinaryPrimeEngine.binary_code.
    destruct (w <? 0) eqn:E; [apply Z.ltb_lt in E; lia |].
    split_and!; [done | done | done | done | |]; rewrite Hl; lia.
  - assert (Hmask : Z.land n (Z.shiftl 1 w - 1) = n mod 2 ^ w).
    { rewrite <- Z.land_ones by lia. reflexivity. }
    pose proof (Z.mod_pos_bound n (2 ^ w) ltac:(apply Z.pow_pos_nonneg; lia)) as Hm.
    exists (format_0b (n mod 2 ^ w) w).
    destruct (format_0b_nonneg (n mod 2 ^ w) w) as (Hb & Hv & Hl); [lia | lia |].
    pose proof (bit_length_le (n mod 2 ^ w) w ltac:(lia) ltac:(lia)) as Hbl.
    unfold BinaryPrimeEnginePro.binary_code. simpl default.
    destruct (w <? 0) eqn:E; [apply Z.ltb_lt in E; lia |].
    rewrite Hmask. split_and!; [done | done | done |]. rewrite Hl. lia.
Qed.

Lemma binary_code_explicit_width_witness :
  (exists s,
     BinaryPrimeEngine.binary_code 300 (Some 8) = Ret s
     /\ binary_string s /\ bin_value s = 300
     /\ Z.of_nat (String.length s) = Z.max 8 (bit_length 300)
     /\ (300 < 2 ^ 8 -> Z.of_nat (String.length s) = 8)
     /\ (2 ^ 8 <= 300 -> 8 < Z.of_nat (String.length s)))
  /\ (exists s,
        BinaryPrimeEnginePro.binary_code 300 (Some 8) = Ret s
        /\ binary_string s /\ bin_value s = 300 mod 2 ^ 8
        /\ Z.of_nat (String.length s) = 8).
Proof. apply (binary_code_explicit_width 300 8); lia. Defined.

(** C3, the statement as it stands fails: with the explicit width 8 the
    adaptive encoder returns the nine digits of 300, not its low eight
    bits. *)
Lemma explicit_width_keeps_high_bits :
  BinaryPrimeEngine.binary_code 300 (Some 8) = Ret "100101100"%string
  /\ String.length "100101100" = 9%nat
  /\ bin_value "100101100" = 300
  /\ 300 mod 2 ^ 8 = 44.
Proof. split_and!; vm_compute; reflexivity. Qed.

End binary_code_facts.

(** ** The persisted state and the constructor *)

Section persistence.
Import BinaryPrimeEngine.

(** *** The set made of a list *)







(** *** The restored statistics *)

Lemma setattr_stats_unguarded (key : string) (v : pyval) (s : PrimeStats) :
  guarded_name key = false -> exists s', setattr_stats key v s = Ret s'.
Proof.
  unfold guarded_name, setattr_stats. intros H.
  apply orb_false_iff in H as [H Hw]. apply orb_false_iff in H as [Hc Hd].
  rewrite Hc, Hd, Hw.
  repeat match goal with |- context [if ?b then _ else _] => destruct b end; by eexists.
Qed.

(** An assignment that returns sets the attribute it names and no other. *)
Lemma setattr_stats_field (key : string) (v : pyval) (s s' : PrimeStats) :
  guarded_name key = false -> setattr_stats key v s = Ret s' ->
  (forall name get, (name, get) ∈ stats_fields ->
     get s' = if String.eqb key name then v else get s)
  /\ dataclass_fields s'
     = if String.eqb key "__dataclass_fields__" then Some v else dataclass_fields s.
Proof.
  unfold guarded_name. intros H.
  apply orb_false_iff in H as [H Hw]. apply orb_false_iff in H as [Hc Hd].
  unfold setattr_stats. rewrite Hc, Hd, Hw.
  assert (Hfields : forall name get, (name, get) ∈ stats_fields ->
            name = "total_primes"%string /\ get = total_primes
            \/ name = "total_candidates"%string /\ get = total_candidates
            \/ name = "total_time"%string /\ get = total_time
            \/ name = "avg_gap"%string /\ get = avg_gap
            \/ name = "max_gap"%string /\ get = max_gap
            \/ name = "min_gap"%string /\ get = min_gap
            \/ name = "primes_per_second"%string /\ get = primes_per_second
            \/ name = "cache_hits"%string /\ get = cache_hits
            \/ name = "cache_size"%string /\ get = cache_size).
  { intros name get Hin. unfold stats_fields in Hin.
    repeat (apply elem_of_cons in Hin as [[= -> ->] | Hin]; [tauto |]).
    by apply elem_of_nil in Hin. }
  repeat match goal with
         | |- context [if String.eqb key ?x then _ else _] =>
             destruct (String.eqb_spec key x) as [-> | ?]
         end;
    intros [= <-]; (split; [| done]); intros name get Hin;
    destruct (Hfields name get Hin)
      as [[-> ->] | [[-> ->] | [[-> ->] | [[-> ->] | [[-> ->] | [[-> ->] | [[-> ->]
          | [[-> ->] | [-> ->]]]]]]]]];
    try reflexivity;
    match goal with
    | |- context [String.eqb key ?x] => by destruct (String.eqb_spec key x)
    end.
Qed.

Lemma restored_from_refl (s : PrimeStats) : restored_from [] s s.
Proof. by split. Qed.

(** Without a guarded name among the keys, the loop assigns attribute
    after attribute and returns. *)
Lemma restore_stats_unguarded (items : list (string * pyval)) (e : t) :
  forallb (fun kv => negb (guarded_name (fst kv))) items = true ->
  restore_stats items e = (Ret tt, set_stats (restored items (stats e)) e).
Proof.
  revert e. induction items as [| [key value] items IH]; intros e H; simpl.
  - by destruct e.
  - apply andb_true_iff in H as [Hk H]. apply negb_true_iff in Hk.
    destruct (setattr_stats_unguarded key value (stats e) Hk) as [s' Hs'].
    unfold bind, get_state, lift, modify. rewrite Hs'. rewrite IH by done.
    reflexivity.
Qed.

(** What the assignments amount to when the keys are pairwise distinct. *)
Lemma restored_spec (items : list (string * pyval)) :
  forall s,
  forallb (fun kv => negb (guarded_name (fst kv))) items = true ->
  NoDup items.*1 ->
  restored_from items s (restored items s).
Proof.
  induction items as [| [key value] items IH]; intros s Hg Hnd; [apply restored_from_refl |].
  simpl in Hg. apply andb_true_iff in Hg as [Hk Hg]. apply negb_true_iff in Hk.
  rewrite fmap_cons in Hnd. apply NoDup_cons in Hnd as [Hkey Hnd]. simpl in Hkey.
  destruct (setattr_stats_unguarded key value s Hk) as [s1 Hs1].
  destruct (setattr_stats_field key value s s1 Hk Hs1) as [Hf1 Hd1].
  destruct (IH s1 Hg Hnd) as [Hf Hd].
  assert (Hnone : forall name, key = name -> dict_get name items = None).
  { intros name <-. clear -Hkey. induction items as [| [k v] items IH]; [done |].
    simpl. rewrite fmap_cons in Hkey. apply not_elem_of_cons in Hkey as [Hne Hkey].
    simpl in Hne. destruct (String.eqb_spec k key) as [Heq | _]; [by subst | by apply IH]. }
  simpl. rewrite Hs1. split.
  - intros name get Hin. rewrite (Hf name get Hin), (Hf1 name get Hin).
    cbn [dict_get].
    destruct (String.eqb_spec key name) as [Heq | Hne]; [| done].
    by rewrite (Hnone name Heq).
  - rewrite Hd, Hd1. cbn [dict_get].
    destruct (String.eqb_spec key "__dataclass_fields__") as [Heq | Hne]; [| done].
    by rewrite (Hnone _ Heq).
Qed.







(** The load of a record with a list of codes and a dict of statistics
    without guarded names. *)
Lemma load_database_record (e : t) (d : list (string * pyval)) (l : list pyval)
    (st : list (string * pyval)) :
  db_file e = Content (PDict d) ->
  dict_get "codes" d = Some (PList l) -> forallb hashable l = true ->
  dict_get "stats" d = Some (PDict st) ->
  forallb (fun kv => negb (guarded_name (fst kv))) st = true ->
  _load_database e
  = (Ret tt, set_stats (restored st (stats e)) (set_code_db (py_dedup [] l) e)).
Proof.
  intros Hf Hc Hh Hs Hg.
  unfold _load_database, try_except, load_body, bind at 1, get_state at 1.
  rewrite Hf, Hc. simpl default.
  unfold bind at 1, lift at 1, py_set. rewrite Hh.
  unfold bind at 1, modify at 1. rewrite Hs.
  unfold bind, lift, py_items. by rewrite (restore_stats_unguarded st _ Hg).
Qed.



(** C7, the statement as it stands fails: the file parses and has both
    fields; [total_primes] is restored, then the assignment of [__class__]
    raises.  The load returns with an empty registry and with the restored
    [total_primes], not without restored statistics. *)
Lemma restore_failure_after_parse :
  fst (_load_database
         (mk (PrimeCache.init 10000) PrimeStats_default [] true 1000 100
             (Content (PDict [("codes", PList [PStr "00001001"]);
                              ("stats", PDict [("total_primes", PInt 5);
                                               ("__class__", PInt 0)])]%string))
             true (fun _ => 0%float) O))
  = Ret tt
  /\ code_db
       (snd (_load_database
               (mk (PrimeCache.init 10000) PrimeStats_default [] true 1000 100
                   (Content (PDict [("codes", PList [PStr "00001001"]);
                                    ("stats", PDict [("total_primes", PInt 5);
                                                     ("__class__", PInt 0)])]%string))
                   true (fun _ => 0%float) O)))
     = []
  /\ total_primes PrimeStats_default = PInt 0
  /\ total_primes
       (stats
          (snd (_load_database
                  (mk (PrimeCache.init 10000) PrimeStats_default [] true 1000 100
                      (Content (PDict [("codes", PList [PStr "00001001"]);
                                       ("stats", PDict [("total_primes", PInt 5);
                                                        ("__class__", PInt 0)])]%string))
                      true (fun _ => 0%float) O))))
     = PInt 5.
Proof. split_and!; vm_compute; reflexivity. Qed.

(** *** The constructor *)






End persistence.


(** * Further properties *)

(** ** The cache as a map *)

Section cache_as_map.
Import PrimeCache.

(** A key that is held, or a cache below its capacity: [put] stores
    without evicting. *)
Lemma put_no_eviction (n : Z) (v : bool) (c : t) :
  consistent c -> max_size c <> 0 ->
  is_Some (cache c !! n) \/ size c < max_size c ->
  exists l,
    put n v c = (Ret tt, mk (max_size c) (<[n := v]> (cache c)) (l ++ [n]))
    /\ l `sublist_of` access_order c
    /\ (forall k, k ∈ l <-> k ∈ access_order c /\ k <> n).
Proof.
  intros [Hnd Hel] Hz Hroom. unfold put, store.
  apply Z.eqb_neq in Hz. rewrite Hz.
  destruct (cache c !! n) as [w |] eqn:Hn.
  - destruct (deque_remove_is_Some n (access_order c)) as [l Hl];
      [apply Hel; by eexists |].
    rewrite Hl. exists l. destruct (deque_remove_NoDup _ _ _ Hnd Hl) as (_ & Hel' & Hs).
    by split_and!.
  - destruct Hroom as [[? ?] | Hroom]; [done |].
    unfold size in Hroom.
    destruct (Z.of_nat (stdpp.base.size (cache c)) >=? max_size c) eqn:Hfull;
      [apply Z.geb_le in Hfull; lia |].
    exists (access_order c). split_and!; [done | done |].
    intros k. split; [| tauto]. intros Hk. split; [done |].
    intros ->. apply Hel in Hk as [? ?]. congruence.
Qed.

(** The deque after a sequence of calls on a cache of negative capacity
    never holds more than one key. *)
Lemma negative_capacity_step (o : op) (c : t) :
  max_size c < 0 -> consistent c -> (length (access_order c) <= 1)%nat ->
  exists c', run_op o c = (Ret tt, c')
    /\ consistent c' /\ max_size c' = max_size c
    /\ (length (access_order c') <= 1)%nat
    /\ (forall n v, o = Put n v -> cache c' = {[n := v]}).
Proof.
  intros Hm Hc Hlen. pose proof (consistent_size c Hc) as Hsz.
  destruct o as [n | n v]; simpl.
  - destruct (get_consistent n c Hc) as (r & c' & Hg & Hc' & Hcache & Hms & _).
    exists c'. rewrite (bind_Ret _ _ _ _ _ Hg).
    split_and!; [done | done | done | | done].
    rewrite <- (consistent_size c' Hc'), Hcache, Hsz. exact Hlen.
  - destruct (put_consistent n v c Hc) as (c' & Hp & Hc' & Hms).
    exists c'. split_and!; [done | done | done | |].
    + revert Hp. unfold put, store.
      destruct (max_size c =? 0) eqn:Hz; [apply Z.eqb_eq in Hz; lia |].
      destruct (cache c !! n) as [w |] eqn:Hn.
      * destruct (deque_remove n (access_order c)) as [l |] eqn:Hl; [| discriminate].
        intros [= <-]. simpl. destruct (deque_remove_split _ _ _ Hl) as (l1 & l2 & Heq & _ & ->).
        rewrite Heq in Hlen. rewrite !length_app in *. simpl in *. lia.
      * destruct (Z.of_nat (stdpp.base.size (cache c)) >=? max_size c) eqn:Hfull;
          [| rewrite Z.geb_leb in Hfull; apply Z.leb_gt in Hfull; lia].
        destruct (access_order c) as [| oldest rest] eqn:Ho.
        -- intros [= <-]. simpl. lia.
        -- destruct (cache c !! oldest); [| discriminate].
           intros [= <-]. simpl in *. rewrite length_app. simpl. lia.
    + intros n0 v0 [= <- <-]. revert Hp. unfold put, store.
      destruct (max_size c =? 0) eqn:Hz; [apply Z.eqb_eq in Hz; lia |].
      destruct Hc as [Hnd Hel].
      assert (Hone : forall k w, cache c !! k = Some w -> access_order c = [k]).
      { intros k w Hk. assert (Hin : k ∈ access_order c) by (apply Hel; by eexists).
        destruct (access_order c) as [| a [| b l]]; [by apply elem_of_nil in Hin | | simpl in Hlen; lia].
        by apply list_elem_of_singleton in Hin as ->. }
      assert (Hsingle : forall k w, cache c !! k = Some w -> delete k (cache c) = ∅).
      { intros k w Hk. apply map_eq. intros j. rewrite lookup_empty.
        destruct (decide (j = k)) as [-> | Hne]; [apply lookup_delete_eq |].
        rewrite lookup_delete_ne by done.
        destruct (cache c !! j) as [u |] eqn:Hj; [| done].
        pose proof (Hone k w Hk) as H1. pose proof (Hone j u Hj) as H2. congruence. }
      destruct (cache c !! n) as [w |] eqn:Hn.
      * destruct (deque_remove n (access_order c)) as [l |] eqn:Hl; [| discriminate].
        intros [= <-]. simpl. by rewrite <- insert_delete_eq, (Hsingle n w Hn), insert_empty.
      * destruct (Z.of_nat (stdpp.base.size (cache c)) >=? max_size c) eqn:Hfull;
          [| rewrite Z.geb_leb in Hfull; apply Z.leb_gt in Hfull; lia].
        destruct (access_order c) as [| oldest rest] eqn:Ho.
        -- intros [= <-]. simpl.
           assert (cache c = ∅) as ->; [| by rewrite insert_empty].
           apply map_eq. intros j. rewrite lookup_empty.
           destruct (cache c !! j) as [u |] eqn:Hj; [| done].
           pose proof (Hone j u Hj). discriminate.
        -- destruct (cache c !! oldest) as [u |] eqn:Hold; [| discriminate].
           intros [= <-]. simpl. by rewrite (Hsingle oldest u Hold), insert_empty.
Qed.

Lemma negative_capacity_run (ops : list op) (c : t) :
  max_size c < 0 -> consistent c -> (length (access_order c) <= 1)%nat ->
  exists c', run ops c = (Ret tt, c')
    /\ consistent c' /\ (length (access_order c') <= 1)%nat
    /\ (forall ops0 n v, ops = ops0 ++ [Put n v] -> cache c' = {[n := v]}).
Proof.
  revert c. induction ops as [| o ops IH] using rev_ind; intros c Hm Hc Hlen.
  - exists c. split_and!; [done | done | done |].
    intros ops0 n v H. by destruct ops0.
  - destruct (IH c Hm Hc Hlen) as (c0 & Hr0 & Hc0 & Hlen0 & _).
    assert (Hm0 : max_size c0 < 0).
    { clear -Hr0 Hm Hc. revert c Hr0 Hm Hc.
      induction ops as [| o' ops IH']; intros c Hr Hm Hc.
      - by injection Hr as <-.
      - simpl in Hr. apply bind_inv_Ret in Hr as ([] & c1 & Ho & Hr).
        destruct o' as [n | n v].
        + destruct (get_consistent n c Hc) as (r & c2 & Hg & Hc2 & _ & Hms & _).
          simpl in Ho. rewrite (bind_Ret _ _ _ _ _ Hg) in Ho. injection Ho as <-.
          apply (IH' c2); [done | lia | done].
        + destruct (put_consistent n v c Hc) as (c2 & Hp & Hc2 & Hms).
          simpl in Ho. rewrite Hp in Ho. injection Ho as <-.
          apply (IH' c2); [done | lia | done]. }
    destruct (negative_capacity_step o c0 Hm0 Hc0 Hlen0) as (c' & Ho & Hc' & _ & Hlen' & Hput).
    exists c'. split_and!; [| done | done |].
    + rewrite run_snoc. by rewrite (bind_Ret _ _ _ _ _ Hr0).
    + intros ops0 n v [_ ->]%app_inj_tail. by apply Hput.
Qed.

End cache_as_map.

(** X1.  On a consistent cache of capacity other than 0, a verdict that was
    just recorded is the one looked up: [get n] after [put n v] returns [v],
    both calls return normally, the lookup leaves the stored verdicts as
    the [put] left them, and [n] is the most recently used key. *)
Theorem put_then_get (n : Z) (v : bool) (c : PrimeCache.t) :
  PrimeCache.consistent c -> PrimeCache.max_size c <> 0 ->
  exists c1 c2 l,
    PrimeCache.put n v c = (Ret tt, c1)
    /\ PrimeCache.get n c1 = (Ret (Some v), c2)
    /\ PrimeCache.cache c2 = PrimeCache.cache c1
    /\ PrimeCache.access_order c2 = l ++ [n].
Proof.
  intros Hc Hz.
  destruct (put_consistent n v c Hc) as (c1 & Hp & Hc1 & _).
  destruct (get_consistent n c1 Hc1) as (r & c2 & Hg & _ & Hcache & _ & ->).
  rewrite (proj2 (put_lookup _ _ _ _ Hp) Hz) in Hg.
  assert (Hlast : exists l, PrimeCache.access_order c2 = l ++ [n]).
  { revert Hg. unfold PrimeCache.get.
    rewrite (proj2 (put_lookup _ _ _ _ Hp) Hz).
    destruct (PrimeCache.deque_remove n (PrimeCache.access_order c1)) as [l |]; [| discriminate].
    intros [= <-]. by exists l. }
  destruct Hlast as [l Hl]. by exists c1, c2, l.
Qed.

Lemma put_then_get_witness :
  exists c1 c2 l,
    PrimeCache.put 9 false (PrimeCache.init 2) = (Ret tt, c1)
    /\ PrimeCache.get 9 c1 = (Ret (Some false), c2)
    /\ PrimeCache.cache c2 = PrimeCache.cache c1
    /\ PrimeCache.access_order c2 = l ++ [9].
Proof.
  apply (put_then_get 9 false (PrimeCache.init 2)); [apply consistent_init | simpl; lia].
Defined.

(** X2.  On a consistent cache a lookup never raises and never changes
    the stored verdicts or the capacity.  A miss returns [None] and leaves
    the cache exactly as it was; a hit returns the stored verdict and moves
    the key to the most recent end of [access_order], the other keys
    keeping their order. *)
Theorem get_keeps_contents (n : Z) (c : PrimeCache.t) :
  PrimeCache.consistent c ->
  exists c',
    PrimeCache.get n c = (Ret (PrimeCache.cache c !! n), c')
    /\ PrimeCache.cache c' = PrimeCache.cache c
    /\ PrimeCache.max_size c' = PrimeCache.max_size c
    /\ (PrimeCache.cache c !! n = None -> c' = c)
    /\ (is_Some (PrimeCache.cache c !! n) ->
        exists l1 l2,
          PrimeCache.access_order c = l1 ++ n :: l2
          /\ PrimeCache.access_order c' = (l1 ++ l2) ++ [n]).
Proof.
  intros [Hnd Hel]. unfold PrimeCache.get.
  destruct (PrimeCache.cache c !! n) as [v |] eqn:Hn.
  - destruct (deque_remove_is_Some n (PrimeCache.access_order c)) as [l Hl];
      [apply Hel; by eexists |].
    rewrite Hl. eexists. split_and!; [reflexivity | reflexivity | reflexivity | done |].
    intros _. destruct (deque_remove_split _ _ _ Hl) as (l1 & l2 & Heq & _ & ->).
    by exists l1, l2.
  - exists c. split_and!; try done.
Qed.

Lemma get_keeps_contents_witness :
  exists c',
    PrimeCache.get 7 (PrimeCache.init 3) = (Ret (PrimeCache.cache (PrimeCache.init 3) !! 7), c')
    /\ PrimeCache.cache c' = PrimeCache.cache (PrimeCache.init 3)
    /\ PrimeCache.max_size c' = PrimeCache.max_size (PrimeCache.init 3)
    /\ (PrimeCache.cache (PrimeCache.init 3) !! 7 = None -> c' = PrimeCache.init 3)
    /\ (is_Some (PrimeCache.cache (PrimeCache.init 3) !! 7) ->
        exists l1 l2,
          PrimeCache.access_order (PrimeCache.init 3) = l1 ++ 7 :: l2
          /\ PrimeCache.access_order c' = (l1 ++ l2) ++ [7]).
Proof.
  apply (get_keeps_contents 7 (PrimeCache.init 3)). apply consistent_init.
Defined.

(** X3.  [put] evicts only to make room for a new key in a full cache.  On
    a consistent cache of capacity other than 0, recording a verdict for a
    key that is held already, or for any key while fewer than [max_size]
    entries are held, keeps every other entry: the stored verdicts become
    the old ones with [n] bound to [v], and [n] becomes the most recent
    key. *)
Theorem put_keeps_other_entries (n : Z) (v : bool) (c : PrimeCache.t) :
  PrimeCache.consistent c -> PrimeCache.max_size c <> 0 ->
  is_Some (PrimeCache.cache c !! n) \/ PrimeCache.size c < PrimeCache.max_size c ->
  exists c' l,
    PrimeCache.put n v c = (Ret tt, c')
    /\ PrimeCache.cache c' = <[n := v]> (PrimeCache.cache c)
    /\ (forall k, k <> n -> PrimeCache.cache c' !! k = PrimeCache.cache c !! k)
    /\ PrimeCache.access_order c' = l ++ [n]
    /\ (forall k, k ∈ l <-> k ∈ PrimeCache.access_order c /\ k <> n).
Proof.
  intros Hc Hz Hroom.
  destruct (put_no_eviction n v c Hc Hz Hroom) as (l & Hp & _ & Hl).
  eexists _, l. split_and!; [exact Hp | done | | done | done].
  intros k Hk. simpl. by rewrite lookup_insert_ne.
Qed.

Lemma put_keeps_other_entries_witness :
  exists c' l,
    PrimeCache.put 9 false (PrimeCache.init 2) = (Ret tt, c')
    /\ PrimeCache.cache c' = <[9 := false]> (PrimeCache.cache (PrimeCache.init 2))
    /\ (forall k, k <> 9 ->
        PrimeCache.cache c' !! k = PrimeCache.cache (PrimeCache.init 2) !! k)
    /\ PrimeCache.access_order c' = l ++ [9]
    /\ (forall k, k ∈ l <-> k ∈ PrimeCache.access_order (PrimeCache.init 2) /\ k <> 9).
Proof.
  apply (put_keeps_other_entries 9 false (PrimeCache.init 2)).
  - apply consistent_init.
  - simpl. lia.
  - right. vm_compute. reflexivity.
Defined.

(** X4.  A negative capacity is accepted and gives a cache of one entry:
    every sequence of calls returns normally, at most one verdict is held
    at any time, and after a [put] the cache holds that verdict and nothing
    else. *)
Theorem negative_capacity_holds_one_entry (max_size : Z) (ops : list PrimeCache.op) :
  max_size < 0 ->
  exists c,
    PrimeCache.run ops (PrimeCache.init max_size) = (Ret tt, c)
    /\ PrimeCache.size c <= 1
    /\ (forall ops0 n v, ops = ops0 ++ [PrimeCache.Put n v] ->
        PrimeCache.cache c = {[n := v]}).
Proof.
  intros Hm.
  destruct (negative_capacity_run ops (PrimeCache.init max_size)) as (c & Hr & Hc & Hlen & Hput).
  - exact Hm.
  - apply consistent_init.
  - simpl. lia.
  - exists c. split_and!; [done | | done].
    unfold PrimeCache.size. rewrite (consistent_size c Hc). lia.
Qed.

Lemma negative_capacity_holds_one_entry_witness :
  exists c,
    PrimeCache.run [PrimeCache.Put 9 false; PrimeCache.Put 15 false; PrimeCache.Get 9]
      (PrimeCache.init (-1)) = (Ret tt, c)
    /\ PrimeCache.size c <= 1
    /\ (forall ops0 n v,
        [PrimeCache.Put 9 false; PrimeCache.Put 15 false; PrimeCache.Get 9]
        = ops0 ++ [PrimeCache.Put n v] ->
        PrimeCache.cache c = {[n := v]}).
Proof.
  apply (negative_capacity_holds_one_entry (-1)). lia.
Defined.

(** ** The encoders on every integer *)

Section encoders.

(** [format(n, '0{w}b')] for [n < 0]: a minus sign, then the digits of
    [-n]; the sign counts in the width. *)
Lemma format_0b_neg (p : positive) (w : Z) :
  exists s,
    format_0b (Z.neg p) w = String "-" s
    /\ binary_string s /\ bin_value s = Z.pos p
    /\ Z.of_nat (String.length s) = Z.max (w - 1) (bit_length (Z.neg p)).
Proof.
  exists (zeros (Z.to_nat (w - 1 - Z.of_nat (String.length (bin_digits p)))) ++ bin_digits p)%string.
  split_and!.
  - reflexivity.
  - apply binary_string_app; [apply zeros_binary | apply bin_digits_binary].
  - unfold bin_value. rewrite bin_value_acc_app, zeros_value. apply bin_digits_value.
  - rewrite string_length_app, zeros_length, Nat2Z.inj_add, bin_digits_length.
    change (bit_length (Z.neg p)) with (bit_length (Z.pos p)).
    rewrite bit_length_pos. lia.
Qed.

(** The width the adaptive encoder chooses: the bit length rounded up to
    a multiple of 4, and at least 8. *)
Lemma adaptive_width_spec (n w : Z) :
  0 < n -> w = Z.max ((bit_length n + 3) / 4 * 4) 8 ->
  bit_length n <= w < bit_length n + 8
  /\ 8 <= w
  /\ w mod 4 = 0
  /\ (8 < w -> w < bit_length n + 4).
Proof.
  intros Hn ->.
  assert (Hbl : 1 <= bit_length n).
  { unfold bit_length. destruct (n =? 0) eqn:E; [apply Z.eqb_eq in E; lia |].
    pose proof (Z.log2_nonneg (Z.abs n)). lia. }
  pose proof (Z.div_mod (bit_length n + 3) 4 ltac:(lia)) as Hdm.
  pose proof (Z.mod_pos_bound (bit_length n + 3) 4 ltac:(lia)) as Hmb.
  set (q := (bit_length n + 3) / 4) in *.
  assert (Hmod : Z.max (q * 4) 8 mod 4 = 0).
  { destruct (Z.max_spec (q * 4) 8) as [[_ ->] | [_ ->]]; [done | apply Z.mod_mul; lia]. }
  split_and!; [lia | lia | lia | exact Hmod | lia].
Qed.

End encoders.

(** X5.  With the width left out, the adaptive encoder writes a positive
    [n] in binary on the least number of digits that is a multiple of 4, at
    least 8, and enough for [n]: the string denotes [n], its length is a
    multiple of 4 and at least 8, [n] fits in it, and beyond 8 digits
    [n] would not fit in 4 digits less.  Zero is the single digit ["0"]. *)
Theorem binary_code_adaptive_width (n : Z) :
  0 <= n ->
  exists s,
    BinaryPrimeEngine.binary_code n None = Ret s
    /\ binary_string s /\ bin_value s = n
    /\ (n = 0 -> s = "0"%string)
    /\ (0 < n ->
        Z.of_nat (String.length s) mod 4 = 0
        /\ 8 <= Z.of_nat (String.length s)
        /\ n < 2 ^ Z.of_nat (String.length s)
        /\ (8 < Z.of_nat (String.length s) -> 2 ^ (Z.of_nat (String.length s) - 4) <= n)).
Proof.
  intros Hn. unfold BinaryPrimeEngine.binary_code.
  destruct (n =? 0) eqn:E.
  - apply Z.eqb_eq in E. subst. exists "0"%string.
    split_and!; [done | simpl; auto | done | done | lia].
  - apply Z.eqb_neq in E. assert (Hpos : 0 < n) by lia.
    set (w := Z.max ((bit_length n + 3) / 4 * 4) 8).
    destruct (adaptive_width_spec n w Hpos eq_refl) as (Hw & H8 & Hmod & Hmin).
    destruct (format_0b_nonneg n w) as (Hb & Hv & Hl); [lia | lia |].
    exists (format_0b n w).
    rewrite Z.max_l in Hl by lia.
    split_and!; [done | done | done | lia |].
    intros _. rewrite Hl. split_and!; [done | done | |].
    + apply bit_length_le; lia.
    + intros H. destruct (Z_lt_dec n (2 ^ (w - 4))) as [Hlt | Hge]; [| lia].
      apply bit_length_le in Hlt; lia.
Qed.

Lemma binary_code_adaptive_width_witness :
  exists s,
    BinaryPrimeEngine.binary_code 300 None = Ret s
    /\ binary_string s /\ bin_value s = 300
    /\ (300 = 0 -> s = "0"%string)
    /\ (0 < 300 ->
        Z.of_nat (String.length s) mod 4 = 0
        /\ 8 <= Z.of_nat (String.length s)
        /\ 300 < 2 ^ Z.of_nat (String.length s)
        /\ (8 < Z.of_nat (String.length s) -> 2 ^ (Z.of_nat (String.length s) - 4) <= 300)).
Proof. apply (binary_code_adaptive_width 300). lia. Defined.

(** X6.  The adaptive encoder loses nothing on the non-negative integers,
    whatever widths are asked for: two numbers that get the same string,
    each with the width left out or with an explicit positive width of its
    own, are the same number. *)
Theorem binary_code_adaptive_injective (n m : Z) (bits bits' : option Z) (s : string) :
  0 <= n -> 0 <= m ->
  match bits with Some w => 0 < w | None => True end ->
  match bits' with Some w => 0 < w | None => True end ->
  BinaryPrimeEngine.binary_code n bits = Ret s ->
  BinaryPrimeEngine.binary_code m bits' = Ret s ->
  n = m.
Proof.
  assert (Hdec : forall k b t, 0 <= k ->
            match b with Some w => 0 < w | None => True end ->
            BinaryPrimeEngine.binary_code k b = Ret t -> bin_value t = k).
  { intros k [w |] t Hk Hw Ht.
    - revert Ht. unfold BinaryPrimeEngine.binary_code.
      destruct (w <? 0) eqn:E; [discriminate |]. intros [= <-].
      by destruct (format_0b_nonneg k w) as (_ & Hv & _); [lia | lia |].
    - revert Ht. unfold BinaryPrimeEngine.binary_code.
      destruct (k =? 0) eqn:E; [apply Z.eqb_eq in E; by intros [= <-] |].
      apply Z.eqb_neq in E. intros [= <-].
      set (w := Z.max ((bit_length k + 3) / 4 * 4) 8).
      destruct (adaptive_width_spec k w ltac:(lia) eq_refl) as (_ & H8 & _).
      by destruct (format_0b_nonneg k w) as (_ & Hv & _); [lia | lia |]. }
  intros Hn Hm Hb Hb' Hs Hs'.
  rewrite <- (Hdec n bits s Hn Hb Hs). by apply (Hdec m bits' s).
Qed.

Lemma binary_code_adaptive_injective_witness :
  BinaryPrimeEngine.binary_code 9 None = Ret "00001001"%string
  /\ BinaryPrimeEngine.binary_code 9 (Some 8) = Ret "00001001"%string
  /\ 9 = 9.
Proof.
  split_and!; [reflexivity | reflexivity |].
  apply (binary_code_adaptive_injective 9 9 None (Some 8) "00001001");
    [lia | lia | done | lia | reflexivity | reflexivity].
Defined.

(** X7.  The fixed-width encoder of [binary_prime_engine_pro.py] and
    [binary_prime_engine.py] keeps the low [w] bits of every integer,
    negative ones included (their two's complement): for a width
    [w >= 1] the string has exactly [w] binary digits and denotes
    [n mod 2^w], so that [n] and [n + k * 2^w] get the same string.  The
    width is 16 when it is left out. *)
Theorem binary_code_fixed_width_wraps (n k w : Z) :
  0 < w ->
  exists s,
    BinaryPrimeEnginePro.binary_code n (Some w) = Ret s
    /\ binary_string s /\ Z.of_nat (String.length s) = w
    /\ bin_value s = n mod 2 ^ w
    /\ BinaryPrimeEnginePro.binary_code (n + k * 2 ^ w) (Some w) = Ret s
    /\ (w = 16 -> BinaryPrimeEnginePro.binary_code n None = Ret s).
Proof.
  intros Hw.
  assert (Hmask : forall x, Z.land x (Z.shiftl 1 w - 1) = x mod 2 ^ w).
  { intros x. rewrite <- Z.land_ones by lia. reflexivity. }
  pose proof (Z.mod_pos_bound n (2 ^ w) ltac:(apply Z.pow_pos_nonneg; lia)) as Hm.
  exists (format_0b (n mod 2 ^ w) w).
  destruct (format_0b_nonneg (n mod 2 ^ w) w) as (Hb & Hv & Hl); [lia | lia |].
  pose proof (bit_length_le (n mod 2 ^ w) w ltac:(lia) ltac:(lia)) as Hbl.
  unfold BinaryPrimeEnginePro.binary_code. simpl default.
  destruct (w <? 0) eqn:E; [apply Z.ltb_lt in E; lia |].
  rewrite !Hmask, Z.mod_add by (apply Z.pow_nonzero; lia).
  split_and!; [done | done | lia | done | done |].
  intros ->. change (16 <? 0) with false. cbv iota. by rewrite Hmask.
Qed.

Lemma binary_code_fixed_width_wraps_witness :
  exists s,
    BinaryPrimeEnginePro.binary_code (-1) (Some 16) = Ret s
    /\ binary_string s /\ Z.of_nat (String.length s) = 16
    /\ bin_value s = (-1) mod 2 ^ 16
    /\ BinaryPrimeEnginePro.binary_code (-1 + 1 * 2 ^ 16) (Some 16) = Ret s
    /\ (16 = 16 -> BinaryPrimeEnginePro.binary_code (-1) None = Ret s).
Proof. apply (binary_code_fixed_width_wraps (-1) 1 16). lia. Defined.

(** X8.  The adaptive encoder writes a negative [n] as a minus sign
    followed by the binary digits of [-n], padded with zeros.  The sign
    counts in the width: with the width left out the string has the
    characters of the chosen width (the bit length rounded up to a multiple
    of 4, at least 8), or one more when the digits of [-n] fill that width. *)
Theorem binary_code_adaptive_negative (n : Z) :
  n < 0 ->
  exists s,
    BinaryPrimeEngine.binary_code n None = Ret (String "-" s)
    /\ binary_string s /\ bin_value s = - n
    /\ Z.of_nat (String.length (String "-" s))
       = Z.max (Z.max ((bit_length n + 3) / 4 * 4) 8) (bit_length n + 1)
    /\ 8 <= Z.of_nat (String.length (String "-" s)).
Proof.
  intros Hn. destruct n as [| p | p]; [lia | lia |].
  set (w := Z.max ((bit_length (Z.neg p) + 3) / 4 * 4) 8).
  destruct (format_0b_neg p w) as (s & Hs & Hb & Hv & Hl).
  exists s. unfold BinaryPrimeEngine.binary_code.
  change (Z.neg p =? 0) with false. fold w.
  assert (Hlen : Z.of_nat (String.length (String "-" s)) = Z.max w (bit_length (Z.neg p) + 1))
    by (cbn [String.length]; lia).
  split_and!; [by rewrite Hs | done | done | done |].
  rewrite Hlen. unfold w. lia.
Qed.

Lemma binary_code_adaptive_negative_witness :
  exists s,
    BinaryPrimeEngine.binary_code (-5) None = Ret (String "-" s)
    /\ binary_string s /\ bin_value s = - -5
    /\ Z.of_nat (String.length (String "-" s))
       = Z.max (Z.max ((bit_length (-5) + 3) / 4 * 4) 8) (bit_length (-5) + 1)
    /\ 8 <= Z.of_nat (String.length (String "-" s)).
Proof. apply (binary_code_adaptive_negative (-5)). lia. Defined.

(** ** What a call of the primality test changes *)

Section test_effects.
Import BinaryPrimeEngine.

(** The registry after a miss: the code of the number joins it when the
    trial division finds a divisor and the code is not there yet. *)
Lemma is_prime_optimized_miss_registry (n : Z) (e : t) (root : Z) (code : string) :
  3 <= n -> n mod 2 = 1 ->
  PrimeCache.consistent (cache e) ->
  PrimeCache.cache (cache e) !! n = None ->
  int_sqrt n = Ret root ->
  binary_code n None = Ret code ->
  exists e',
    is_prime_optimized n e = (Ret (trial_division n (root + 1)), e')
    /\ stats e' = stats e
    /\ code_db e'
       = if trial_division n (root + 1) then code_db e
         else if code_mem code (code_db e) then code_db e
         else code_db e ++ [PStr code].
Proof.
  intros Hn Hodd Hc Hv Hroot Hcode.
  destruct (put_consistent n (trial_division n (root + 1)) (cache e) Hc) as (c' & Hp & _).
  assert (Hg : PrimeCache.get n (cache e) = (Ret None, cache e))
    by (unfold PrimeCache.get; by rewrite Hv).
  unfold is_prime_optimized.
  destruct (n <? 2) eqn:E2; [apply Z.ltb_lt in E2; lia |].
  destruct (n =? 2) eqn:E; [apply Z.eqb_eq in E; lia |].
  destruct (n mod 2 =? 0) eqn:Ev; [apply Z.eqb_eq in Ev; lia |].
  unfold bind at 1. unfold with_cache at 1. rewrite Hg.
  assert (Hset : set_cache (cache e) e = e) by (by destruct e).
  rewrite Hset. unfold int_sqrt in Hroot.
  destruct (math_sqrt n) as [f | |]; [| discriminate..].
  unfold bind at 1. unfold lift at 1. unfold bind at 1. unfold lift at 1. rewrite Hroot.
  unfold trial_division in *.
  set (limit := root + 1) in *.
  destruct (small_divisor n limit small_primes) eqn:Hs; simpl in Hp |- *.
  - unfold record_composite, bind, with_cache, lift, code_db_add, modify, ret.
    rewrite Hp, Hcode. simpl.
    destruct (code_mem code (code_db e)); by eexists.
  - destruct (odd_divisor n limit 37) eqn:Ho; simpl in Hp |- *.
    + unfold record_composite, bind, with_cache, lift, code_db_add, modify, ret.
      rewrite Hp, Hcode. simpl.
      destruct (code_mem code (code_db e)); by eexists.
    + unfold bind, with_cache, ret. rewrite Hp. by eexists.
Qed.

Lemma code_mem_elem_of (code : string) (db : list pyval) :
  code_mem code db = true <-> PStr code ∈ db.
Proof.
  unfold code_mem. rewrite existsb_exists. split.
  - intros (v & Hin & Hv). destruct v; try discriminate.
    apply String.eqb_eq in Hv as ->. by apply list_elem_of_In.
  - intros Hin. exists (PStr code). split; [by apply list_elem_of_In | apply String.eqb_refl].
Qed.

Lemma binary_code_adaptive_returns (n : Z) : exists code, binary_code n None = Ret code.
Proof. unfold binary_code. destruct (n =? 0); by eexists. Qed.

(** Whatever the counters hold, a call of the test that returns has
    returned the verdict of the test, and has kept the cache in order. *)
Lemma is_prime_optimized_inv (n : Z) (e e' : t) (b : bool) :
  PrimeCache.consistent (cache e) -> cache_sound e ->
  is_prime_optimized n e = (Ret b, e') ->
  verdict n = Ret b
  /\ PrimeCache.consistent (cache e') /\ cache_sound e' /\ same_env e e'.
Proof.
  intros Hc Hs Hr.
  destruct (Z_lt_dec n 3) as [Hlt | Hge].
  { rewrite is_prime_optimized_fast in Hr by auto. injection Hr as Hv <-.
    split_and!; [done | done | done | apply same_env_refl]. }
  destruct (decide (n mod 2 = 0)) as [Hev | Hodd].
  { rewrite is_prime_optimized_fast in Hr by auto. injection Hr as Hv <-.
    split_and!; [done | done | done | apply same_env_refl]. }
  pose proof (Z.mod_pos_bound n 2 ltac:(lia)) as Hb.
  destruct (PrimeCache.cache (cache e) !! n) as [v |] eqn:Hn.
  - destruct (get_consistent n (cache e) Hc) as (r & c' & Hg & Hc' & Hcache & Hms & ->).
    rewrite Hn in Hg. revert Hr. unfold is_prime_optimized.
    destruct (n <? 2) eqn:E2; [apply Z.ltb_lt in E2; lia |].
    destruct (n =? 2) eqn:E; [apply Z.eqb_eq in E; lia |].
    destruct (n mod 2 =? 0) eqn:Ev; [apply Z.eqb_eq in Ev; lia |].
    unfold bind, with_cache. rewrite Hg. unfold stat, lift, assign, modify, ret. simpl.
    destruct (py_add_one (cache_hits (stats e))) as [hits | |]; [| discriminate..].
    intros [= <- <-]. split_and!; [by apply Hs | done | | by repeat split].
    intros k w. simpl. rewrite Hcache. apply Hs.
  - destruct (int_sqrt n) as [root | x |] eqn:Hroot.
    + destruct (is_prime_optimized_miss n e root) as (c' & db' & Hp & Hc' & Hms & Hr');
        try done; try lia.
      rewrite Hr' in Hr. injection Hr as <- <-.
      split_and!; [by rewrite verdict_odd, Hroot by lia | done | | by repeat split].
      intros k w. simpl. intros Hk.
      destruct (proj1 (put_lookup _ _ _ _ Hp) k w Hk) as [[-> ->] | Hk']; [| by apply Hs].
      by rewrite verdict_odd, Hroot by lia.
    + rewrite is_prime_optimized_miss_raise in Hr; try done; try lia.
      * injection Hr as Hv <-. split_and!; [done | done | done | apply same_env_refl].
      * intros root. by rewrite Hroot.
    + rewrite is_prime_optimized_miss_raise in Hr; try done; try lia.
      * injection Hr as Hv <-. split_and!; [done | done | done | apply same_env_refl].
      * intros root. by rewrite Hroot.
Qed.

(** X9.  An odd number from 3 on that is too large for a float and is not
    in the cache cannot be tested: [math.sqrt] raises [OverflowError],
    which [is_prime_optimized] lets through, the engine being left as it
    was; [next_prime] lets it through as well, after it has counted the
    candidate. *)
Theorem is_prime_optimized_overflow (n : Z) (e : t) (c : Z) :
  3 <= n -> n mod 2 = 1 ->
  PrimeCache.cache (cache e) !! n = None ->
  float_of_int n = Raise OverflowError ->
  total_candidates (stats e) = PInt c ->
  is_prime_optimized n e = (Raise OverflowError, e)
  /\ forall fuel,
       next_prime (S fuel) n e
       = (Raise OverflowError, set_stats (set_total_candidates (PInt (c + 1)) (stats e)) e).
Proof.
  intros Hn Hodd Hmiss Hfl Hc.
  assert (Hsqrt : int_sqrt n = Raise OverflowError)
    by (unfold int_sqrt, math_sqrt; by rewrite Hfl).
  assert (Hv : verdict n = Raise OverflowError) by (by rewrite verdict_odd, Hsqrt).
  assert (Hraise : forall e0, PrimeCache.cache (cache e0) !! n = None ->
            is_prime_optimized n e0 = (Raise OverflowError, e0)).
  { intros e0 H0. rewrite is_prime_optimized_miss_raise, Hv; try done.
    intros root. by rewrite Hsqrt. }
  split; [by apply Hraise |].
  intros fuel. unfold next_prime, bind at 1. rewrite (count_candidate_ok e c Hc).
  destruct (n <? 2) eqn:E2; [apply Z.ltb_lt in E2; lia |].
  destruct (n =? 2) eqn:E; [apply Z.eqb_eq in E; lia |].
  destruct (n mod 2 =? 0) eqn:Ev; [apply Z.eqb_eq in Ev; lia |].
  cbn [next_prime_loop]. unfold bind. by rewrite Hraise.
Qed.

Lemma is_prime_optimized_overflow_witness :
  is_prime_optimized (2 ^ 1024 + 1) (snd (init None NoFile true (fun _ => 0%float) true))
  = (Raise OverflowError, snd (init None NoFile true (fun _ => 0%float) true))
  /\ forall fuel,
       next_prime (S fuel) (2 ^ 1024 + 1) (snd (init None NoFile true (fun _ => 0%float) true))
       = (Raise OverflowError,
          set_stats (set_total_candidates (PInt (0 + 1))
                       (stats (snd (init None NoFile true (fun _ => 0%float) true))))
            (snd (init None NoFile true (fun _ => 0%float) true))).
Proof.
  apply (is_prime_optimized_overflow (2 ^ 1024 + 1)
           (snd (init None NoFile true (fun _ => 0%float) true)) 0).
  - apply Z.leb_le. vm_compute. reflexivity.
  - vm_compute. reflexivity.
  - reflexivity.
  - vm_compute. reflexivity.
  - reflexivity.
Defined.

(** X10.  The hit counter counts the hits.  On a consistent cache, a call
    of the test that has a verdict to return changes no statistic but
    [cache_hits], which goes up by one exactly when the number is an odd
    number from 3 on whose verdict is in the cache, and stays as it is on
    the fast paths and on a miss. *)
Theorem cache_hits_counts_hits (n : Z) (e : t) (h : Z) :
  PrimeCache.consistent (cache e) ->
  cache_hits (stats e) = PInt h ->
  (3 <= n -> n mod 2 = 1 -> PrimeCache.cache (cache e) !! n = None ->
   exists root, int_sqrt n = Ret root) ->
  exists b e',
    is_prime_optimized n e = (Ret b, e')
    /\ (3 <= n /\ n mod 2 = 1 /\ is_Some (PrimeCache.cache (cache e) !! n) ->
        stats e' = set_cache_hits (PInt (h + 1)) (stats e))
    /\ (n < 3 \/ n mod 2 = 0 \/ PrimeCache.cache (cache e) !! n = None ->
        stats e' = stats e).
Proof.
  intros Hc Hh Hsqrt.
  destruct (Z_lt_dec n 3) as [Hlt | Hge].
  { exists (n =? 2), e. rewrite is_prime_optimized_fast, verdict_fast by auto.
    split_and!; [done | lia | done]. }
  destruct (decide (n mod 2 = 0)) as [Hev | Hodd].
  { exists (n =? 2), e. rewrite is_prime_optimized_fast, verdict_fast by auto.
    split_and!; [done | lia | done]. }
  pose proof (Z.mod_pos_bound n 2 ltac:(lia)) as Hb.
  destruct (PrimeCache.cache (cache e) !! n) as [v |] eqn:Hn.
  - destruct (is_prime_optimized_hit n e v h) as (c' & _ & _ & _ & _ & Hr);
      try done; try lia.
    eexists _, _. split_and!; [exact Hr | done |].
    intros [? | [? | ?]]; [lia | lia | done].
  - destruct (Hsqrt ltac:(lia) ltac:(lia) eq_refl) as [root Hroot].
    destruct (binary_code_adaptive_returns n) as [code Hcode].
    destruct (is_prime_optimized_miss_registry n e root code) as (e' & Hr & Hst & _);
      try done; try lia.
    eexists _, _. split_and!; [exact Hr | | done].
    intros (_ & _ & [? ?]). done.
Qed.

Lemma cache_hits_counts_hits_witness :
  exists b e',
    is_prime_optimized 9 (snd (init None NoFile true (fun _ => 0%float) true)) = (Ret b, e')
    /\ (3 <= 9 /\ 9 mod 2 = 1
        /\ is_Some (PrimeCache.cache
                      (cache (snd (init None NoFile true (fun _ => 0%float) true))) !! 9) ->
        stats e' = set_cache_hits (PInt (0 + 1))
                     (stats (snd (init None NoFile true (fun _ => 0%float) true))))
    /\ (9 < 3 \/ 9 mod 2 = 0
        \/ PrimeCache.cache (cache (snd (init None NoFile true (fun _ => 0%float) true))) !! 9
           = None ->
        stats e' = stats (snd (init None NoFile true (fun _ => 0%float) true))).
Proof.
  apply (cache_hits_counts_hits 9 (snd (init None NoFile true (fun _ => 0%float) true)) 0).
  - apply consistent_init.
  - reflexivity.
  - intros _ _ _. exists 3. vm_compute. reflexivity.
Defined.

(** X11.  The registry of composite codes grows by the test and by
    nothing else in it: a call of [is_prime_optimized n] that returns adds
    the adaptive code of [n] when [n] is an odd number from 3 on that was
    not in the cache and the trial division found a divisor of it, and
    leaves the registry as it was in every other case (fast paths, cache
    hits, primes); no entry is ever removed. *)
Theorem registry_records_tested_composites (n : Z) (e e' : t) (b : bool) (code : string) :
  PrimeCache.consistent (cache e) ->
  binary_code n None = Ret code ->
  is_prime_optimized n e = (Ret b, e') ->
  forall v,
    v ∈ code_db e' <->
    v ∈ code_db e
    \/ (v = PStr code /\ 3 <= n /\ n mod 2 = 1
        /\ PrimeCache.cache (cache e) !! n = None /\ b = false).
Proof.
  intros Hc Hcode Hr v.
  destruct (Z_lt_dec n 3) as [Hlt | Hge].
  { rewrite is_prime_optimized_fast in Hr by auto. injection Hr as _ <-.
    split; [auto | intros [? | (_ & ? & _)]; [done | lia]]. }
  destruct (decide (n mod 2 = 0)) as [Hev | Hodd].
  { rewrite is_prime_optimized_fast in Hr by auto. injection Hr as _ <-.
    split; [auto | intros [? | (_ & _ & ? & _)]; [done | lia]]. }
  pose proof (Z.mod_pos_bound n 2 ltac:(lia)) as Hb.
  destruct (PrimeCache.cache (cache e) !! n) as [w |] eqn:Hn.
  - destruct (get_consistent n (cache e) Hc) as (r & c' & Hg & _ & _ & _ & ->).
    rewrite Hn in Hg. revert Hr. unfold is_prime_optimized.
    destruct (n <? 2) eqn:E2; [apply Z.ltb_lt in E2; lia |].
    destruct (n =? 2) eqn:E; [apply Z.eqb_eq in E; lia |].
    destruct (n mod 2 =? 0) eqn:Ev; [apply Z.eqb_eq in Ev; lia |].
    unfold bind, with_cache. rewrite Hg. unfold stat, lift, assign, modify, ret. simpl.
    destruct (py_add_one (cache_hits (stats e))) as [hits | |]; [| discriminate..].
    intros [= <- <-]. simpl.
    split; [auto | intros [? | (_ & _ & _ & ? & _)]; [done | discriminate]].
  - destruct (int_sqrt n) as [root | x |] eqn:Hroot.
    + destruct (is_prime_optimized_miss_registry n e root code) as (e1 & Hr1 & _ & Hdb);
        try done; try lia.
      rewrite Hr1 in Hr. injection Hr as <- <-. rewrite Hdb.
      destruct (trial_division n (root + 1)).
      * split; [auto | intros [? | (_ & _ & _ & _ & ?)]; [done | discriminate]].
      * destruct (code_mem code (code_db e)) eqn:Hm.
        -- apply code_mem_elem_of in Hm.
           split; [auto | intros [? | (-> & _)]; done].
        -- rewrite elem_of_app, list_elem_of_singleton.
           split; [intros [? | ->]; [auto | right; split_and!; (done || lia)] |].
           intros [? | (-> & _)]; auto.
    + rewrite is_prime_optimized_miss_raise in Hr; try done; try lia.
      * rewrite verdict_odd, Hroot in Hr by lia. discriminate.
      * intros root. by rewrite Hroot.
    + rewrite is_prime_optimized_miss_raise in Hr; try done; try lia.
      * rewrite verdict_odd, Hroot in Hr by lia. discriminate.
      * intros root. by rewrite Hroot.
Qed.

Lemma registry_records_tested_composites_witness :
  fst (is_prime_optimized 9 (snd (init None NoFile true (fun _ => 0%float) true))) = Ret false
  /\ forall v,
    v ∈ code_db (snd (is_prime_optimized 9 (snd (init None NoFile true (fun _ => 0%float) true))))
    <->
    v ∈ code_db (snd (init None NoFile true (fun _ => 0%float) true))
    \/ (v = PStr "00001001" /\ 3 <= 9 /\ 9 mod 2 = 1
        /\ PrimeCache.cache (cache (snd (init None NoFile true (fun _ => 0%float) true))) !! 9
           = None
        /\ false = false).
Proof.
  split; [vm_compute; reflexivity |].
  apply (registry_records_tested_composites 9
           (snd (init None NoFile true (fun _ => 0%float) true)) _ false).
  - apply consistent_init.
  - reflexivity.
  - vm_compute. reflexivity.
Defined.

End test_effects.

(** ** The successor search as a function *)

Section successor.
Import BinaryPrimeEngine.

Lemma verdict_million (q : Z) :
  q <= 10 ^ 6 -> exists b, verdict q = Ret b /\ (b = true <-> ref_prime q).
Proof.
  intros Hq. apply verdict_correct. intros H3 _. apply int_sqrt_exact. lia.
Qed.

Lemma ref_prime_odd (r : Z) : 3 <= r -> ref_prime r -> r mod 2 = 1.
Proof.
  intros Hr [_ Hp]. pose proof (Z.mod_pos_bound r 2 ltac:(lia)) as Hb.
  destruct (decide (r mod 2 = 0)) as [E | E]; [| lia].
  exfalso. apply (Hp 2); [lia |]. apply Z.mod_divide; [lia | done].
Qed.

(** X12.  [next_prime] as a function, up to one million: on an engine in
    order it returns 2 for every [n < 2], 3 for [n = 2], and for [n >= 3]
    the least prime that is not below [n], provided the search is given
    one more step than the odd candidates it has to pass over.  The
    counter [total_candidates] goes up by the number of candidates tested,
    the one returned included. *)
Theorem next_prime_least_prime (fuel : nat) (n r : Z) (e : t) (c h : Z) :
  r <= 10 ^ 6 ->
  (n < 2 /\ r = 2) \/ (n = 2 /\ r = 3)
  \/ (3 <= n <= r /\ ref_prime r /\ forall q, n <= q < r -> ~ ref_prime q) ->
  (3 <= n -> (Z.to_nat ((r - n) / 2) < fuel)%nat) ->
  PrimeCache.consistent (cache e) -> cache_sound e ->
  total_candidates (stats e) = PInt c -> cache_hits (stats e) = PInt h ->
  exists e',
    next_prime fuel n e = (Ret r, e')
    /\ PrimeCache.consistent (cache e') /\ cache_sound e'
    /\ total_candidates (stats e')
       = PInt (c + 1 + (if n <? 3 then 0 else (r - n) / 2)).
Proof.
  intros Hr Hcases Hfuel Hc Hs Htc Hh.
  destruct Hcases as [[Hn ->] | [[-> ->] | (Hn & Hp & Hleast)]].
  - exists (set_stats (set_total_candidates (PInt (c + 1)) (stats e)) e).
    rewrite (next_prime_below_2 fuel n e c) by done.
    replace (n <? 3) with true by (symmetry; apply Z.ltb_lt; lia).
    split_and!; [done | done | done | simpl; f_equal; lia].
  - exists (set_stats (set_total_candidates (PInt (c + 1)) (stats e)) e).
    unfold next_prime, bind. rewrite (count_candidate_ok e c Htc).
    split_and!; [done | done | done | simpl; f_equal; lia].
  - replace (n <? 3) with false by (symmetry; apply Z.ltb_ge; lia).
    pose proof (ref_prime_odd r ltac:(lia) Hp) as Hrodd.
    pose proof (Z.mod_pos_bound n 2 ltac:(lia)) as Hnb.
    pose proof (Z.div_mod n 2 ltac:(lia)) as Hnd.
    pose proof (Z.div_mod r 2 ltac:(lia)) as Hrd.
    set (n0 := if n mod 2 =? 0 then n + 1 else n).
    assert (Hn0 : n <= n0 <= r /\ n0 mod 2 = 1 /\ n0 + 2 * ((r - n) / 2) = r).
    { unfold n0. destruct (n mod 2 =? 0) eqn:Ev.
      - apply Z.eqb_eq in Ev.
        assert (n <> r) by (intros ->; lia).
        assert (Hdiv : (r - n) / 2 = r / 2 - n / 2).
        { symmetry. apply (Z.div_unique (r - n) 2 _ 1); lia. }
        rewrite Hdiv. split_and!; [lia | lia | | lia].
        replace (n + 1) with (1 + (n / 2) * 2) by lia. by rewrite Z.mod_add.
      - apply Z.eqb_neq in Ev.
        assert (Hdiv : (r - n) / 2 = r / 2 - n / 2).
        { symmetry. apply (Z.div_unique (r - n) 2 _ 0); lia. }
        rewrite Hdiv. split_and!; lia. }
    destruct Hn0 as (Hn0r & Hn0odd & Hn0m).
    set (m := Z.to_nat ((r - n) / 2)).
    assert (Hm : Z.of_nat m = (r - n) / 2).
    { unfold m. rewrite Z2Nat.id; [done |]. apply Z.div_pos; lia. }
    destruct (next_prime_spec m fuel n e c h) as (e' & h' & Hres & Hc' & Hs' & _ & Hst & _);
      try done; try lia; fold n0.
    + intros j Hj. destruct (verdict_million (n0 + 2 * j)) as (b & Hv & Hb); [lia |].
      rewrite Hv. f_equal. destruct b; [| done].
      exfalso. apply (Hleast (n0 + 2 * j)); [lia | by apply Hb].
    + rewrite Hm, Hn0m. destruct (verdict_million r Hr) as (b & Hv & Hb).
      rewrite Hv. f_equal. by apply Hb.
    + exists e'. fold n0 in Hres. rewrite Hm, Hn0m in Hres.
      split_and!; [done | done | done |]. rewrite Hst. simpl. f_equal. lia.
Qed.

Lemma next_prime_least_prime_witness :
  exists e',
    next_prime 3 8 (snd (init None NoFile true (fun _ => 0%float) true)) = (Ret 11, e')
    /\ PrimeCache.consistent (cache e') /\ cache_sound e'
    /\ total_candidates (stats e') = PInt (0 + 1 + (if 8 <? 3 then 0 else (11 - 8) / 2)).
Proof.
  apply (next_prime_least_prime 3 8 11 (snd (init None NoFile true (fun _ => 0%float) true)) 0 0).
  - lia.
  - right. right. split_and!; [lia | lia | |].
    + apply (proj1 (trial_division_correct 11 ltac:(lia) eq_refl)). vm_compute. reflexivity.
    + intros q Hq [_ Hp].
      assert (q = 8 \/ q = 9 \/ q = 10) as [-> | [-> | ->]] by lia.
      * apply (Hp 2); [lia | by exists 4].
      * apply (Hp 3); [lia | by exists 3].
      * apply (Hp 2); [lia | by exists 5].
  - intros _. vm_compute. lia.
  - apply consistent_init.
  - intros n v H. vm_compute in H. discriminate.
  - reflexivity.
  - reflexivity.
Defined.

End successor.

(** ** The generator, step by step *)

Section generator_steps.
Import BinaryPrimeEngine.

Lemma only_stats_refl (e : t) : only_stats e e.
Proof. split_and!; [done | done | apply same_env_refl]. Qed.

Lemma only_stats_trans (e1 e2 e3 : t) :
  only_stats e1 e2 -> only_stats e2 e3 -> only_stats e1 e3.
Proof.
  intros (? & ? & ?) (? & ? & ?).
  split_and!; [congruence | congruence | by eapply same_env_trans].
Qed.

Lemma assign_only_stats (setter : pyval -> PrimeStats -> PrimeStats) (v : pyval) :
  preserves only_stats (assign setter v).
Proof. intros e. unfold assign, modify. simpl. split_and!; [done | done | by repeat split]. Qed.

Lemma pure_only_stats {A : Type} (m : M t A) :
  (forall e, snd (m e) = e) -> preserves only_stats m.
Proof. intros H e. rewrite H. apply only_stats_refl. Qed.

Ltac only_stats_tac :=
  repeat first
    [ apply assign_only_stats
    | apply pure_only_stats; intros ?; reflexivity
    | apply preserves_bind; [apply only_stats_trans | | intros ?]
    | match goal with |- preserves _ (if ?b then _ else _) => destruct b end ].

Lemma update_stats_only_stats (gap : Z) (elapsed : float) :
  preserves only_stats (_update_stats gap elapsed).
Proof. unfold _update_stats. only_stats_tac. Qed.


(** What a save changes: nothing in the engine object, and the file
    according to the record that can be built. *)
Lemma save_database_effect (e : t) :
  exists e',
    _save_database e = (Ret tt, e')
    /\ cache e' = cache e /\ stats e' = stats e /\ code_db e' = code_db e
    /\ running e' = running e /\ db_writable e' = db_writable e
    /\ (db_writable e = true -> dataclass_fields (stats e) = None ->
        exists now, db_file e' = Content (saved_record e now))
    /\ (db_writable e = true -> dataclass_fields (stats e) = Some (PDict []) ->
        exists now, db_file e' = Content (saved_record_no_stats e now))
    /\ (db_writable e = false
        \/ (exists v, dataclass_fields (stats e) = Some v /\ v <> PDict []) ->
        db_file e' = db_file e).
Proof.
  rewrite save_database_file. eexists. split; [reflexivity |].
  unfold asdict.
  destruct (dataclass_fields (stats e)) as [[| | | | | | [| kv d]] |] eqn:Hd;
    destruct (db_writable e) eqn:Hw; simpl; rewrite ?Hw;
    split_and!; try done;
    try (intros _ _; by eexists);
    try (intros [? | (v & [= <-] & Hv)]; done);
    try (intros [? | (v & ? & Hv)]; done).
Qed.

(** A step that yields has found the loop flag up and the count below the
    limit. *)
Lemma gen_loop_emit_cond (fuel : nat) (limit : option Z) (start_time : float)
    (n : Z) (last_prime : option Z) (count : Z) (e e' : t) (r : emission) (g' : generator) :
  gen_loop fuel limit start_time n last_prime count e = (Ret (Some r, g'), e') ->
  running e = true /\ match limit with Some l => count < l | None => True end.
Proof.
  unfold gen_loop. unfold bind at 1. unfold get_state at 1.
  destruct (running e) eqn:Hrun; simpl.
  - destruct limit as [l |]; [| done].
    destruct (count <? l) eqn:Hl; [by apply Z.ltb_lt in Hl |].
    unfold bind. rewrite save_database_file. discriminate.
  - unfold bind. rewrite save_database_file. discriminate.
Qed.

(** A step that finds the loop flag down, or the count at the limit,
    saves and ends the generator. *)
Lemma gen_loop_stop (fuel : nat) (limit : option Z) (start_time : float)
    (n : Z) (last_prime : option Z) (count : Z) (e : t) :
  running e = false \/ (exists l, limit = Some l /\ l <= count) ->
  gen_loop fuel limit start_time n last_prime count e
  = (Ret (None, GenDone), snd (_save_database e)).
Proof.
  intros Hstop. unfold gen_loop. unfold bind at 1. unfold get_state at 1.
  assert (Hcond : running e && match limit with Some l => count <? l | None => true end = false).
  { destruct Hstop as [-> | (l & -> & Hl)]; [done |].
    apply andb_false_iff. right. apply Z.ltb_ge. lia. }
  rewrite Hcond. unfold bind. by rewrite save_database_file.
Qed.

End generator_steps.

Section generator_runs.
Import BinaryPrimeEngine.

(** What a call of [_update_stats] that returns has done besides the gap
    statistics. *)
Lemma update_stats_cache_size (gap : Z) (elapsed : float) (e e' : t) :
  _update_stats gap elapsed e = (Ret tt, e') ->
  cache_size (stats e') = PInt (PrimeCache.size (cache e))
  /\ total_time (stats e') = PFloat elapsed.
Proof.
  unfold _update_stats, bind, stat, lift, assign, modify, get_state, ret. simpl.
  destruct (py_add_one (total_primes (stats e))) as [tp | |] eqn:Htp;
    simpl; try (by intros [=]).
  destruct (gap >? 0) eqn:Hg; simpl.
  - destruct (py_max (max_gap (stats e)) gap) as [mx | |] eqn:Hmx;
      simpl; try (by intros [=]).
    destruct (py_min (min_gap (stats e)) gap) as [mn | |] eqn:Hmn;
      simpl; try (by intros [=]).
    destruct (py_eq_int tp 1) eqn:Heq; simpl.
    + destruct (0 <? elapsed)%float; simpl.
      * destruct (py_div_float tp elapsed) as [r | |]; simpl; try (by intros [=]).
        by intros [= <-].
      * by intros [= <-].
    + destruct (py_float_mul (1 - alpha) (avg_gap (stats e))) as [x | |] eqn:Hx;
        simpl in Hx |- *; rewrite ?Hx; simpl; try (by intros [=]).
      destruct (py_float_mul alpha (PInt gap)) as [y | |] eqn:Hy;
        simpl in Hy |- *; rewrite ?Hy; simpl; try (by intros [=]).
      destruct (0 <? elapsed)%float; simpl.
      * destruct (py_div_float tp elapsed) as [r | |]; simpl; try (by intros [=]).
        by intros [= <-].
      * by intros [= <-].
  - destruct (0 <? elapsed)%float; simpl.
    + destruct (py_div_float tp elapsed) as [r | |]; simpl; try (by intros [=]).
      by intros [= <-].
    + by intros [= <-].
Qed.

Lemma next_prime_loop_inv (fuel : nat) :
  forall (n r : Z) (e e' : t),
  PrimeCache.consistent (cache e) -> cache_sound e ->
  next_prime_loop fuel n e = (Ret r, e') ->
  PrimeCache.consistent (cache e') /\ cache_sound e'
  /\ n <= r /\ (r - n) mod 2 = 0 /\ verdict r = Ret true
  /\ forall q, n <= q < r -> (q - n) mod 2 = 0 -> verdict q = Ret false.
Proof.
  induction fuel as [| fuel IH]; intros n r e e' Hc Hs; simpl; [discriminate |].
  intros (b & e1 & Hb & H)%bind_inv_Ret.
  destruct (is_prime_optimized_inv n e e1 b Hc Hs Hb) as (Hv & Hc1 & Hs1 & _).
  destruct b.
  - injection H as <- <-. rewrite Z.sub_diag.
    split_and!; [done | done | lia | done | done | intros q Hq; lia].
  - apply bind_inv_Ret in H as ([] & e2 & Hcc & H).
    apply count_candidate_inv in Hcc as [v ->].
    destruct (IH (n + 2) r (set_stats (set_total_candidates v (stats e1)) e1) e' Hc1 Hs1 H)
      as (Hc' & Hs' & Hle & Hpar & Hvr & Hbefore).
    split_and!; [done | done | lia | | done |].
    + replace (r - n) with (r - (n + 2) + 1 * 2) by lia. by rewrite Z.mod_add.
    + intros q Hq Hqpar. destruct (decide (q = n)) as [-> | Hne]; [done |].
      assert (q <> n + 1).
      { intros ->. replace (n + 1 - n) with 1 in Hqpar by lia. done. }
      apply Hbefore; [lia |].
      replace (q - (n + 2)) with (q - n + (-1) * 2) by lia. by rewrite Z.mod_add.
Qed.

(** What [next_prime] has returned, when it returns, in terms of the
    verdicts of the test. *)
Lemma next_prime_inv (fuel : nat) (n r : Z) (e e' : t) :
  PrimeCache.consistent (cache e) -> cache_sound e ->
  next_prime fuel n e = (Ret r, e') ->
  PrimeCache.consistent (cache e') /\ cache_sound e'
  /\ ((n < 2 /\ r = 2) \/ (n = 2 /\ r = 3)
      \/ (3 <= n <= r /\ r mod 2 = 1 /\ verdict r = Ret true
          /\ forall q, n <= q < r -> q mod 2 = 1 -> verdict q = Ret false)).
Proof.
  intros Hc Hs. unfold next_prime.
  intros ([] & e1 & Hcc & H)%bind_inv_Ret.
  apply count_candidate_inv in Hcc as [v ->].
  destruct (n <? 2) eqn:E2.
  { apply Z.ltb_lt in E2. injection H as <- <-. split_and!; [done | done | auto]. }
  apply Z.ltb_ge in E2.
  destruct (n =? 2) eqn:E.
  { apply Z.eqb_eq in E. injection H as <- <-. split_and!; [done | done | auto]. }
  apply Z.eqb_neq in E.
  apply next_prime_loop_inv in H as (Hc' & Hs' & Hle & Hpar & Hvr & Hbefore); [| done | done].
  split_and!; [done | done |]. right. right.
  pose proof (Z.mod_pos_bound n 2 ltac:(lia)) as Hnb.
  pose proof (Z.div_mod n 2 ltac:(lia)) as Hnd.
  destruct (n mod 2 =? 0) eqn:Ev; [apply Z.eqb_eq in Ev | apply Z.eqb_neq in Ev].
  - assert (Hodd : forall q, (q - (n + 1)) mod 2 = 0 <-> q mod 2 = 1).
    { intros q. replace (q - (n + 1)) with (q + 1 + (- (n / 2) - 1) * 2) by lia.
      rewrite Z.mod_add by lia.
      pose proof (Z.mod_pos_bound q 2 ltac:(lia)). pose proof (Z.div_mod q 2 ltac:(lia)).
      replace (q + 1) with (q mod 2 + 1 + (q / 2) * 2) by lia. rewrite Z.mod_add by lia.
      assert (q mod 2 = 0 \/ q mod 2 = 1) as [-> | ->] by lia; done. }
    split_and!; [lia | lia | by apply Hodd | done |].
    intros q Hq Hqodd. apply Hbefore; [| by apply Hodd].
    assert (q <> n) by (intros ->; lia). lia.
  - assert (Hodd : forall q, (q - n) mod 2 = 0 <-> q mod 2 = 1).
    { intros q. replace (q - n) with (q + 1 + (- (n / 2) - 1) * 2) by lia.
      rewrite Z.mod_add by lia.
      pose proof (Z.mod_pos_bound q 2 ltac:(lia)). pose proof (Z.div_mod q 2 ltac:(lia)).
      replace (q + 1) with (q mod 2 + 1 + (q / 2) * 2) by lia. rewrite Z.mod_add by lia.
      assert (q mod 2 = 0 \/ q mod 2 = 1) as [-> | ->] by lia; done. }
    split_and!; [lia | lia | by apply Hodd | done |].
    intros q Hq Hqodd. apply Hbefore; [lia | by apply Hodd].
Qed.

(** Up to one million the verdicts are the primality of the numbers. *)
Lemma next_prime_inv_million (fuel : nat) (n r : Z) (e e' : t) :
  PrimeCache.consistent (cache e) -> cache_sound e ->
  next_prime fuel n e = (Ret r, e') -> r <= 10 ^ 6 ->
  (n < 2 /\ r = 2) \/ (n = 2 /\ r = 3)
  \/ (3 <= n <= r /\ ref_prime r /\ forall q, n <= q < r -> ~ ref_prime q).
Proof.
  intros Hc Hs Hr Hmil.
  destruct (next_prime_inv fuel n r e e' Hc Hs Hr)
    as (_ & _ & [? | [? | (Hn & Hodd & Hv & Hbefore)]]); [auto | auto |].
  right. right. split; [done | split].
  - destruct (verdict_million r Hmil) as (b & Hb & Hiff).
    apply Hiff. congruence.
  - intros q Hq Hp.
    pose proof (ref_prime_odd q ltac:(lia) Hp) as Hqodd.
    destruct (verdict_million q ltac:(lia)) as (b & Hb & Hiff).
    rewrite (Hbefore q Hq Hqodd) in Hb. injection Hb as <-.
    by apply Hiff in Hp.
Qed.

(** One step of the generator that yields: the engine stays in order, the
    generator is suspended at the yielded values, and the prime comes from
    a call of [next_prime] on an engine in order. *)
Lemma gen_next_inv (fuel : nat) (g g' : generator) (e e' : t) (cnt p gap : Z) :
  PrimeCache.consistent (cache e) -> cache_sound e ->
  gen_next fuel g e = (Ret (Some (cnt, p, gap), g'), e') ->
  PrimeCache.consistent (cache e') /\ cache_sound e'
  /\ cache_size (stats e') = PInt (PrimeCache.size (cache e'))
  /\ exists limit start_time n ea eb,
       g' = GenSuspended limit start_time cnt p
       /\ PrimeCache.consistent (cache ea) /\ cache_sound ea
       /\ next_prime fuel n ea = (Ret p, eb)
       /\ py_add_one (total_primes (stats e)) = Ret (total_primes (stats e'))
       /\ running ea = true
       /\ match g with
          | GenCreated start limit0 =>
              limit = limit0 /\ n = start /\ cnt = 1 /\ gap = 0
              /\ match limit with Some l => 0 < l | None => True end
          | GenSuspended limit0 start_time0 count p0 =>
              limit = limit0 /\ start_time = start_time0 /\ n = p0 + 1
              /\ cnt = count + 1 /\ gap = p - p0
              /\ match limit with Some l => count < l | None => True end
          | GenDone => False
          end.
Proof.
  intros Hc Hs Hg.
  assert (Hloop : forall limit st n last count ea,
            cache ea = cache e -> stats ea = stats e ->
            gen_loop fuel limit st n last count ea = (Ret (Some (cnt, p, gap), g'), e') ->
            PrimeCache.consistent (cache e') /\ cache_sound e'
            /\ cache_size (stats e') = PInt (PrimeCache.size (cache e'))
            /\ exists eb,
                 g' = GenSuspended limit st cnt p
                 /\ PrimeCache.consistent (cache ea) /\ cache_sound ea
                 /\ next_prime fuel n ea = (Ret p, eb)
                 /\ py_add_one (total_primes (stats e)) = Ret (total_primes (stats e'))
                 /\ running ea = true
                 /\ cnt = count + 1
                 /\ gap = match last with None => 0 | Some q => p - q end
                 /\ match limit with Some l => count < l | None => True end).
  { intros limit st n last count ea Hca Hsa Hl.
    pose proof (gen_loop_emit_cond _ _ _ _ _ _ _ _ _ _ Hl) as [Hrun Hlim].
    apply gen_loop_emit in Hl as (q & e1 & Hq & Hu & [= -> -> ->] & ->).
    assert (Hca' : PrimeCache.consistent (cache ea)) by (by rewrite Hca).
    assert (Hsa' : cache_sound ea) by (unfold cache_sound; by rewrite Hca).
    destruct (next_prime_inv fuel n q ea e1 Hca' Hsa' Hq) as (Hc1 & Hs1 & _).
    pose proof (update_stats_only_stats
                  (match last with None => 0 | Some q0 => q - q0 end)
                  (clock e1 (ticks e1) - st)%float (set_ticks (S (ticks e1)) e1)) as Hos.
    rewrite Hu in Hos. destruct Hos as (Hcache & _). simpl in Hcache.
    pose proof (update_stats_cache_size _ _ _ _ Hu) as [Hsize _]. simpl in Hsize.
    pose proof (update_stats_inv _ _ _ _ Hu) as (Hadd & _). simpl in Hadd.
    pose proof (next_prime_keeps fuel n ea) as Hk. rewrite Hq in Hk.
    destruct Hk as (Htp & _). simpl in Htp.
    split_and!; [by rewrite Hcache | unfold cache_sound; by rewrite Hcache
                | by rewrite Hcache |].
    exists e1. split_and!; try done. by rewrite <- Hsa, <- Htp. }
  destruct g as [start limit | limit st count p0 |].
  - unfold gen_next in Hg. unfold bind at 1, time_time at 1 in Hg.
    pose proof (gen_loop_emit_cond _ _ _ _ _ _ _ _ _ _ Hg) as [_ Hlim].
    destruct (Hloop limit (clock e (ticks e)) start None 0 (set_ticks (S (ticks e)) e))
      as (Hc' & Hs' & Hsz & eb & -> & Hca & Hsa & Hnp & Hadd & Hrun & -> & -> & _);
      [done | done | done |].
    split_and!; [done | done | done |].
    exists limit, (clock e (ticks e)), start, (set_ticks (S (ticks e)) e), eb.
    by split_and!.
  - apply gen_next_suspended_emit in Hg as (e0 & Hc0 & Hst0 & Hg).
    destruct (Hloop limit st (p0 + 1) (Some p0) count e0)
      as (Hc' & Hs' & Hsz & eb & -> & Hca & Hsa & Hnp & Hadd & Hrun & -> & -> & Hlim);
      [done | done | done |].
    split_and!; [done | done | done |].
    exists limit, st, (p0 + 1), e0, eb. by split_and!.
  - discriminate.
Qed.

(** The run of a generator from any of its states: numbering, limit,
    order of the primes. *)
Lemma generate_inv (fuel k : nat) :
  forall (g : generator) (e : t),
  PrimeCache.consistent (cache e) -> cache_sound e ->
  forall i cnt p gap e1,
    generate fuel k g e !! i = Some ((cnt, p, gap), e1) ->
    PrimeCache.consistent (cache e1) /\ cache_sound e1 /\ 2 <= p
    /\ cache_size (stats e1) = PInt (PrimeCache.size (cache e1))
    /\ (forall tp, total_primes (stats e) = PInt tp ->
        total_primes (stats e1) = PInt (tp + Z.of_nat i + 1))
    /\ exists limit start_time,
         generate fuel (k - S i) (GenSuspended limit start_time cnt p) e1
         = drop (S i) (generate fuel k g e)
         /\ match g with
            | GenCreated start limit0 =>
                limit = limit0 /\ cnt = Z.of_nat i + 1
            | GenSuspended limit0 _ count _ =>
                limit = limit0 /\ cnt = count + Z.of_nat i + 1
            | GenDone => False
            end
         /\ match limit with Some l => cnt <= l | None => True end.
Proof.
  induction k as [| k IH]; intros g e Hc Hs i cnt p gap e1; [discriminate |].
  rewrite generate_S.
  destruct (gen_next fuel g e) as [[[[[[c1 p1] g1] |] g'] | x |] e'] eqn:Hg;
    try discriminate.
  destruct (gen_next_inv fuel g g' e e' c1 p1 g1 Hc Hs Hg)
    as (Hc' & Hs' & Hsz & limit & st & n & ea & eb & -> & _ & _ & Hnp & Hadd & _ & Hcase).
  pose proof (next_prime_ge _ _ _ _ _ Hnp) as [_ Hp2].
  destruct i as [| i]; simpl.
  - intros [= -> -> -> ->]. split_and!; [done | done | done | done | |].
    + intros tp Htp. rewrite Htp in Hadd. simpl in Hadd. injection Hadd as <-.
      f_equal. lia.
    + exists limit, st. rewrite Nat.sub_0_r. split; [by rewrite drop_0 |].
      destruct g as [start limit0 | limit0 st0 count p0 |]; [| | done].
      * destruct Hcase as (-> & _ & -> & _ & Hlim). split_and!; [done | lia |].
        destruct limit0; [lia | done].
      * destruct Hcase as (-> & _ & _ & -> & _ & Hlim). split_and!; [done | lia |].
        destruct limit0; [lia | done].
  - intros Hi.
    destruct (IH _ e' Hc' Hs' i cnt p gap e1 Hi)
      as (Hc1 & Hs1 & Hp1 & Hsz1 & Htp1 & limit1 & st1 & Hdrop & [-> ->] & Hlim1).
    split_and!; [done | done | done | done | |].
    + intros tp Htp. rewrite Htp in Hadd. simpl in Hadd. injection Hadd as Hadd.
      rewrite (Htp1 (tp + 1)) by done. f_equal. lia.
    + exists limit, st1. split; [exact Hdrop |].
      destruct g as [start limit0 | limit0 st0 count p0 |]; [| | done].
      * destruct Hcase as (-> & _ & -> & _). split_and!; [done | lia | done].
      * destruct Hcase as (-> & _ & _ & -> & _). split_and!; [done | lia | done].
Qed.

End generator_runs.

Section generator_properties.
Import BinaryPrimeEngine.

(** X13.  A generator numbers its results 1, 2, 3, ... and never yields
    more of them than its limit.  At each result the statistic
    [cache_size] is the number of verdicts the cache holds at that moment
    and, when the run started on fresh statistics, [total_primes] is the
    number of the result. *)
Theorem generator_numbers_results
    (fuel k : nat) (start : Z) (limit : option Z) (e : t) :
  PrimeCache.consistent (cache e) -> cache_sound e ->
  (forall i cnt p gap e1,
     generate fuel k (GenCreated start limit) e !! i = Some ((cnt, p, gap), e1) ->
     cnt = Z.of_nat i + 1
     /\ match limit with Some l => cnt <= l | None => True end
     /\ cache_size (stats e1) = PInt (PrimeCache.size (cache e1))
     /\ (stats e = PrimeStats_default -> total_primes (stats e1) = PInt cnt))
  /\ match limit with
     | Some l => Z.of_nat (length (generate fuel k (GenCreated start limit) e)) <= Z.max l 0
     | None => True
     end.
Proof.
  intros Hc Hs.
  assert (Hall : forall i cnt p gap e1,
     generate fuel k (GenCreated start limit) e !! i = Some ((cnt, p, gap), e1) ->
     cnt = Z.of_nat i + 1
     /\ match limit with Some l => cnt <= l | None => True end
     /\ cache_size (stats e1) = PInt (PrimeCache.size (cache e1))
     /\ (stats e = PrimeStats_default -> total_primes (stats e1) = PInt cnt)).
  { intros i cnt p gap e1 Hi.
    destruct (generate_inv fuel k _ e Hc Hs i cnt p gap e1 Hi)
      as (_ & _ & _ & Hsz & Htp & limit1 & st1 & _ & [-> ->] & Hlim).
    split; [done |]. split; [done |]. split; [done |].
    intros Hfresh. rewrite (Htp 0) by (by rewrite Hfresh). f_equal; lia. }
  split; [exact Hall |].
  destruct limit as [l |]; [| done].
  destruct (length (generate fuel k (GenCreated start (Some l)) e)) as [| m] eqn:Hlen; [lia |].
  destruct (lookup_lt_is_Some_2 (generate fuel k (GenCreated start (Some l)) e) m)
    as [[[[cnt p] gap] e1] Hm]; [lia |].
  destruct (Hall m cnt p gap e1 Hm) as (-> & Hle & _). lia.
Qed.

Lemma generator_numbers_results_witness :
  (forall i cnt p gap e1,
     generate 2 4 (GenCreated 1 (Some 3)) (snd (init None NoFile true (fun _ => 0%float) true))
       !! i = Some ((cnt, p, gap), e1) ->
     cnt = Z.of_nat i + 1
     /\ cnt <= 3
     /\ cache_size (stats e1) = PInt (PrimeCache.size (cache e1))
     /\ (stats (snd (init None NoFile true (fun _ => 0%float) true)) = PrimeStats_default ->
         total_primes (stats e1) = PInt cnt))
  /\ Z.of_nat (length (generate 2 4 (GenCreated 1 (Some 3))
                         (snd (init None NoFile true (fun _ => 0%float) true))))
     <= Z.max 3 0.
Proof.
  apply (generator_numbers_results 2 4 1 (Some 3)
           (snd (init None NoFile true (fun _ => 0%float) true))).
  - apply consistent_init.
  - intros n v H. vm_compute in H. discriminate.
Defined.

(** X14.  Up to one million a generator enumerates the primes in order and
    skips none.  On an engine in order, its first result is 2 when it
    starts below 2, 3 when it starts at 2, and otherwise the least prime
    that is not below its start; every later result is the least prime
    above the result before it. *)
Theorem generator_enumerates_primes
    (fuel k : nat) (start : Z) (limit : option Z) (e : t) :
  PrimeCache.consistent (cache e) -> cache_sound e ->
  (forall cnt p gap e1,
     generate fuel k (GenCreated start limit) e !! 0%nat = Some ((cnt, p, gap), e1) ->
     p <= 10 ^ 6 ->
     (start < 2 /\ p = 2) \/ (start = 2 /\ p = 3)
     \/ (3 <= start <= p /\ ref_prime p /\ forall q, start <= q < p -> ~ ref_prime q))
  /\ (forall i cnt0 p0 gap0 e0 cnt p gap e1,
        generate fuel k (GenCreated start limit) e !! i = Some ((cnt0, p0, gap0), e0) ->
        generate fuel k (GenCreated start limit) e !! S i = Some ((cnt, p, gap), e1) ->
        p <= 10 ^ 6 ->
        p0 < p /\ ref_prime p /\ forall q, p0 < q < p -> ~ ref_prime q).
Proof.
  intros Hc Hs. split.
  - intros cnt p gap e1 H0 Hp. destruct k as [| k]; [discriminate |].
    rewrite generate_S in H0.
    destruct (gen_next fuel (GenCreated start limit) e)
      as [[[[[[c1 p1] g1] |] g'] | x |] e'] eqn:Hg; try discriminate.
    simpl in H0. injection H0 as -> -> -> ->.
    destruct (gen_next_inv fuel _ g' e e1 cnt p gap Hc Hs Hg)
      as (_ & _ & _ & limit1 & st & n & ea & eb & _ & Hca & Hsa & Hnp & _ & _ & Hcase).
    destruct Hcase as (_ & -> & _).
    by apply (next_prime_inv_million fuel start p ea eb).
  - intros i cnt0 p0 gap0 e0 cnt p gap e1 Hi HSi Hp.
    destruct (generate_inv fuel k _ e Hc Hs i cnt0 p0 gap0 e0 Hi)
      as (Hc0 & Hs0 & Hp0 & _ & _ & limit1 & st1 & Hdrop & _ & _).
    assert (H0 : generate fuel (k - S i) (GenSuspended limit1 st1 cnt0 p0) e0 !! 0%nat
                 = Some ((cnt, p, gap), e1)).
    { rewrite Hdrop, lookup_drop. by rewrite Nat.add_0_r. }
    destruct (k - S i)%nat as [| k']; [discriminate |].
    rewrite generate_S in H0.
    destruct (gen_next fuel (GenSuspended limit1 st1 cnt0 p0) e0)
      as [[[[[[c1 p1] g1] |] g'] | x |] e'] eqn:Hg; try discriminate.
    simpl in H0. injection H0 as -> -> -> ->.
    destruct (gen_next_inv fuel _ g' e0 e1 cnt p gap Hc0 Hs0 Hg)
      as (_ & _ & _ & limit2 & st & n & ea & eb & _ & Hca & Hsa & Hnp & _ & _ & Hcase).
    destruct Hcase as (_ & _ & -> & _).
    pose proof (next_prime_ge _ _ _ _ _ Hnp) as [Hge H2].
    destruct (next_prime_inv_million fuel (p0 + 1) p ea eb Hca Hsa Hnp Hp)
      as [[? ->] | [[? ->] | (Hn & Hprime & Hleast)]].
    + lia.
    + lia.
    + split_and!; [lia | done |]. intros q Hq. apply Hleast. lia.
Qed.

Lemma generator_enumerates_primes_witness :
  (forall cnt p gap e1,
     generate 2 4 (GenCreated 1 None) (snd (init None NoFile true (fun _ => 0%float) true))
       !! 0%nat = Some ((cnt, p, gap), e1) ->
     p <= 10 ^ 6 ->
     (1 < 2 /\ p = 2) \/ (1 = 2 /\ p = 3)
     \/ (3 <= 1 <= p /\ ref_prime p /\ forall q, 1 <= q < p -> ~ ref_prime q))
  /\ (forall i cnt0 p0 gap0 e0 cnt p gap e1,
        generate 2 4 (GenCreated 1 None) (snd (init None NoFile true (fun _ => 0%float) true))
          !! i = Some ((cnt0, p0, gap0), e0) ->
        generate 2 4 (GenCreated 1 None) (snd (init None NoFile true (fun _ => 0%float) true))
          !! S i = Some ((cnt, p, gap), e1) ->
        p <= 10 ^ 6 ->
        p0 < p /\ ref_prime p /\ forall q, p0 < q < p -> ~ ref_prime q).
Proof.
  apply (generator_enumerates_primes 2 4 1 None
           (snd (init None NoFile true (fun _ => 0%float) true))).
  - apply consistent_init.
  - intros n v H. vm_compute in H. discriminate.
Defined.



End generator_properties.

Section generator_frame.
Import BinaryPrimeEngine.

Lemma same_config_refl (e : t) : same_config e e.
Proof. by repeat split. Qed.

Lemma same_config_trans (e1 e2 e3 : t) :
  same_config e1 e2 -> same_config e2 e3 -> same_config e1 e3.
Proof. unfold same_config. intros ? ?. split_and!; destruct_and?; congruence. Qed.

Lemma pure_same_config {A : Type} (m : M t A) :
  (forall e, snd (m e) = e) -> preserves same_config m.
Proof. intros H e. rewrite H. apply same_config_refl. Qed.

Lemma with_cache_same_config {A : Type} (m : M PrimeCache.t A) :
  preserves same_config (with_cache m).
Proof. intros e. unfold with_cache. by destruct (m (cache e)). Qed.

Lemma assign_same_config (setter : pyval -> PrimeStats -> PrimeStats) (v : pyval) :
  preserves same_config (assign setter v).
Proof. intros e. by repeat split. Qed.

Lemma code_db_add_same_config (code : string) : preserves same_config (code_db_add code).
Proof.
  intros e. unfold code_db_add, modify. simpl.
  destruct (code_mem code (code_db e)); by repeat split.
Qed.

Lemma time_time_same_config : preserves same_config time_time.
Proof. intros e. by repeat split. Qed.

Lemma save_database_same_config : preserves same_config _save_database.
Proof.
  intros e. destruct (save_database_effect e) as (e' & Hs & _ & _ & _ & Hr & Hw & _).
  rewrite Hs. simpl. rewrite save_database_file in Hs. injection Hs as <-.
  destruct (asdict (stats e)); [| by repeat split..].
  destruct (db_writable e); by repeat split.
Qed.

Ltac same_config_tac :=
  repeat first
    [ apply assign_same_config
    | apply with_cache_same_config
    | apply code_db_add_same_config
    | apply time_time_same_config
    | apply save_database_same_config
    | apply pure_same_config; intros ?; reflexivity
    | apply preserves_bind; [apply same_config_trans | | intros ?]
    | match goal with
      | |- preserves _ (if ?b then _ else _) => destruct b
      | |- preserves _ (match ?x with _ => _ end) => destruct x
      end ].

Lemma is_prime_optimized_same_config (n : Z) : preserves same_config (is_prime_optimized n).
Proof. unfold is_prime_optimized, record_composite. same_config_tac. Qed.

Lemma count_candidate_same_config : preserves same_config count_candidate.
Proof. unfold count_candidate. same_config_tac. Qed.

Lemma next_prime_same_config (fuel : nat) (n : Z) : preserves same_config (next_prime fuel n).
Proof.
  unfold next_prime.
  apply preserves_bind; [apply same_config_trans | apply count_candidate_same_config |].
  intros _. destruct (n <? 2); [same_config_tac |]. destruct (n =? 2); [same_config_tac |].
  generalize (if n mod 2 =? 0 then n + 1 else n). clear n.
  induction fuel as [| fuel IH]; intros n; simpl; [same_config_tac |].
  apply preserves_bind; [apply same_config_trans | apply is_prime_optimized_same_config |].
  intros [|]; [same_config_tac |].
  apply preserves_bind; [apply same_config_trans | apply count_candidate_same_config |].
  intros _. apply IH.
Qed.

Lemma update_stats_same_config (gap : Z) (elapsed : float) :
  preserves same_config (_update_stats gap elapsed).
Proof. unfold _update_stats. same_config_tac. Qed.

Lemma log_progress_same_config : preserves same_config _log_progress.
Proof. intros e. destruct (_log_progress e) as [o e'] eqn:H.
  apply log_progress_state in H as ->. apply same_config_refl. Qed.

Lemma gen_loop_same_config (fuel : nat) (limit : option Z) (start_time : float)
    (n : Z) (last_prime : option Z) (count : Z) :
  preserves same_config (gen_loop fuel limit start_time n last_prime count).
Proof.
  unfold gen_loop.
  apply preserves_bind; [apply same_config_trans | same_config_tac |]. intros e0.
  destruct (running e0 && _); [| same_config_tac].
  apply preserves_bind; [apply same_config_trans | apply next_prime_same_config |]. intros p.
  cbv zeta.
  apply preserves_bind; [apply same_config_trans | apply time_time_same_config |]. intros now.
  apply preserves_bind; [apply same_config_trans | apply update_stats_same_config |]. intros _.
  same_config_tac.
Qed.

Lemma gen_next_same_config (fuel : nat) (g : generator) :
  preserves same_config (gen_next fuel g).
Proof.
  destruct g as [start limit | limit st count p |]; simpl.
  - apply preserves_bind; [apply same_config_trans | apply time_time_same_config |].
    intros now. apply gen_loop_same_config.
  - apply preserves_bind; [apply same_config_trans | same_config_tac |]. intros e0.
    apply preserves_bind; [apply same_config_trans | |].
    { destruct (save_interval e0 =? 0); [same_config_tac |].
      destruct (count mod save_interval e0 =? 0); same_config_tac. }
    intros _.
    apply preserves_bind; [apply same_config_trans | |].
    { destruct (progress_interval e0 =? 0); [same_config_tac |].
      destruct (count mod progress_interval e0 =? 0);
        [apply log_progress_same_config | same_config_tac]. }
    intros _. apply gen_loop_same_config.
  - same_config_tac.
Qed.

(** A step that ends the generator has found the loop flag down or the
    count at the limit. *)
Lemma gen_loop_none (fuel : nat) (limit : option Z) (start_time : float)
    (n : Z) (last_prime : option Z) (count : Z) (e e' : t) (g' : generator) :
  gen_loop fuel limit start_time n last_prime count e = (Ret (None, g'), e') ->
  running e = false \/ exists l, limit = Some l /\ l <= count.
Proof.
  unfold gen_loop. unfold bind at 1. unfold get_state at 1.
  destruct (running e) eqn:Hrun; [| auto]. simpl.
  destruct limit as [l |].
  - destruct (count <? l) eqn:Hl; [| apply Z.ltb_ge in Hl; right; by exists l].
    intros (p & e1 & _ & H)%bind_inv_Ret.
    apply bind_inv_Ret in H as (now & e2 & _ & H).
    apply bind_inv_Ret in H as ([] & e3 & _ & H). discriminate.
  - intros (p & e1 & _ & H)%bind_inv_Ret.
    apply bind_inv_Ret in H as (now & e2 & _ & H).
    apply bind_inv_Ret in H as ([] & e3 & _ & H). discriminate.
Qed.

End generator_frame.

Section to_count.
Import BinaryPrimeEngine.

Lemma consecutive_primes_snoc (l : list Z) (p0 p : Z) :
  consecutive_primes l -> last l = Some p0 ->
  (p <= 10 ^ 6 -> p0 < p /\ ref_prime p /\ forall q, p0 < q < p -> ~ ref_prime q) ->
  consecutive_primes (l ++ [p]).
Proof.
  intros Hl Hlast Hp i a b Ha Hb Hmil.
  destruct (decide (S i < length l)%nat) as [Hlt | Hge].
  - rewrite lookup_app_l in Ha by lia. rewrite lookup_app_l in Hb by lia.
    by apply (Hl i).
  - assert (Hlen : (S i <= length l)%nat).
    { apply lookup_lt_Some in Hb. rewrite length_app in Hb. simpl in Hb. lia. }
    assert (S i = length l) as Hi by lia.
    rewrite lookup_app_r in Hb by lia. rewrite Hi, Nat.sub_diag in Hb. injection Hb as <-.
    rewrite lookup_app_l in Ha by lia.
    rewrite last_lookup in Hlast. rewrite <- Hi in Hlast. simpl in Hlast.
    rewrite Ha in Hlast. injection Hlast as ->. by apply Hp.
Qed.

Lemma gen_next_suspended_none (fuel : nat) (limit : option Z) (start_time : float)
    (count p : Z) (e e' : t) (g' : generator) :
  gen_next fuel (GenSuspended limit start_time count p) e = (Ret (None, g'), e') ->
  running e = false \/ exists l, limit = Some l /\ l <= count.
Proof.
  unfold gen_next. unfold bind at 1. unfold get_state at 1.
  intros ([] & e1 & Hsave & H)%bind_inv_Ret.
  apply bind_inv_Ret in H as ([] & e2 & Hprog & H).
  assert (Hrun : running e2 = running e).
  { assert (H1 : same_config e e1).
    { assert (Hp : preserves same_config
                     (if save_interval e =? 0 then raise ZeroDivisionError
                      else if count mod save_interval e =? 0 then _save_database else ret tt)).
      { destruct (save_interval e =? 0); [by intros ? |].
        destruct (count mod save_interval e =? 0);
          [apply save_database_same_config | by intros ?]. }
      specialize (Hp e). by rewrite Hsave in Hp. }
    assert (H2 : same_config e1 e2).
    { assert (Hp : preserves same_config
                     (if progress_interval e =? 0 then raise ZeroDivisionError
                      else if count mod progress_interval e =? 0 then _log_progress
                           else ret tt)).
      { destruct (progress_interval e =? 0); [by intros ? |].
        destruct (count mod progress_interval e =? 0);
          [apply log_progress_same_config | by intros ?]. }
      specialize (Hp e1). by rewrite Hprog in Hp. }
    destruct H1 as [H1 _], H2 as [H2 _]. congruence. }
  apply gen_loop_none in H. by rewrite Hrun in H.
Qed.

(** The loop of [generate_primes_to_count], from any point of it. *)
Lemma collect_primes_inv (fuel : nat) (target : Z) (steps : nat) :
  forall (g : generator) (primes : list Z) (e e' : t) (l : list Z),
  PrimeCache.consistent (cache e) -> cache_sound e -> running e = true ->
  (g = GenCreated 1 (Some target) /\ primes = [])
  \/ (exists start_time count p,
        g = GenSuspended (Some target) start_time count p
        /\ count = Z.of_nat (length primes) /\ count <= target
        /\ last primes = Some p /\ 2 <= p
        /\ primes !! 0%nat = Some 2 /\ consecutive_primes primes) ->
  collect_primes steps fuel g primes e = (Ret l, e') ->
  Z.of_nat (length l) = Z.max target 0
  /\ (0 < target -> l !! 0%nat = Some 2)
  /\ consecutive_primes l.
Proof.
  induction steps as [| steps IH]; intros g primes e e' l Hc Hs Hrun Hg; simpl;
    [discriminate |].
  intros ([[[[cnt p'] gap] |] g'] & e1 & Hn & H)%bind_inv_Ret.
  - destruct (gen_next_inv fuel g g' e e1 cnt p' gap Hc Hs Hn)
      as (Hc1 & Hs1 & _ & limit & st & n & ea & eb & -> & Hca & Hsa & Hnp & _ & _ & Hcase).
    pose proof (gen_next_same_config fuel g e) as Hcfg. rewrite Hn in Hcfg.
    destruct Hcfg as [Hrun1 _]. simpl in Hrun1. rewrite Hrun in Hrun1.
    pose proof (next_prime_ge _ _ _ _ _ Hnp) as [_ Hp2].
    apply (IH _ _ _ _ _ Hc1 Hs1 Hrun1) in H; [done |]. right.
    destruct Hg as [[-> ->] | (st0 & count & p & -> & Hcount & Hle & Hlast & Hp & Hhead & Hcons)].
    + destruct Hcase as (-> & -> & -> & _ & Hlim). exists st, 1, p'.
      destruct (next_prime_inv fuel 1 p' ea eb Hca Hsa Hnp)
        as (_ & _ & [[_ ->] | [[? _] | ((? & _) & _)]]); [| lia | lia].
      split_and!; [done | done | lia | done | lia | done |].
      intros i a b Ha Hb. destruct i; discriminate.
    + destruct Hcase as (-> & -> & -> & -> & _ & Hlim). exists st0, (count + 1), p'.
      split_and!; [done | | lia | | done | |].
      * rewrite length_app. simpl. lia.
      * by rewrite last_snoc.
      * destruct primes; [discriminate |]. done.
      * apply (consecutive_primes_snoc primes p p'); [done | done |].
        intros Hmil.
        destruct (next_prime_inv_million fuel (p + 1) p' ea eb Hca Hsa Hnp Hmil)
          as [[? _] | [[? _] | (Hn3 & Hprime & Hleast)]]; [lia | lia |].
        split_and!; [lia | done |]. intros q Hq. apply Hleast. lia.
  - injection H as <- <-.
    destruct Hg as [[-> ->] | (st0 & count & p & -> & Hcount & Hle & Hlast & Hp & Hhead & Hcons)].
    + unfold gen_next in Hn. unfold bind at 1, time_time at 1 in Hn.
      apply gen_loop_none in Hn as [Hn | (l & [= <-] & Hl)]; [simpl in Hn; congruence |].
      split_and!; [simpl; lia | lia |]. intros i a b Ha. discriminate.
    + apply gen_next_suspended_none in Hn as [Hn | (l & [= <-] & Hl)]; [congruence |].
      split_and!; [lia | done | done].
Qed.

End to_count.

Section generator_more.
Import BinaryPrimeEngine.

(** X16.  [generate_primes_to_count] returns the first primes.  With a
    [target_count] that is not positive it returns the empty list.  On an
    engine in order whose loop flag is up, a call that returns gives a list
    of [target_count] elements (none when [target_count] is not positive)
    that starts with 2 and in which each later element is the least prime
    above the one before it, as far as one million. *)
Theorem generate_primes_to_count_first_primes
    (steps fuel : nat) (target_count : Z) (e : t) :
  PrimeCache.consistent (cache e) -> cache_sound e -> running e = true ->
  (target_count <= 0 ->
   fst (generate_primes_to_count (S steps) fuel target_count e) = Ret [])
  /\ (forall l e',
        generate_primes_to_count steps fuel target_count e = (Ret l, e') ->
        Z.of_nat (length l) = Z.max target_count 0
        /\ (0 < target_count -> l !! 0%nat = Some 2)
        /\ consecutive_primes l).
Proof.
  intros Hc Hs Hrun. split.
  - intros Ht. unfold generate_primes_to_count. cbn [collect_primes].
    assert (Hg : gen_next fuel (GenCreated 1 (Some target_count)) e
                 = (Ret (None, GenDone),
                    snd (_save_database (set_ticks (S (ticks e)) e)))).
    { unfold gen_next.
      rewrite (bind_Ret time_time _ e _ (clock e (ticks e)) eq_refl).
      apply gen_loop_stop. right. by exists target_count. }
    by rewrite (bind_Ret _ _ _ _ _ Hg).
  - intros l e' H. unfold generate_primes_to_count in H.
    apply (collect_primes_inv fuel target_count steps _ _ _ _ _ Hc Hs Hrun) in H; [done |].
    by left.
Qed.

Lemma generate_primes_to_count_first_primes_witness :
  Z.of_nat (length [2; 3; 5]) = Z.max 3 0
  /\ (0 < 3 -> [2; 3; 5] !! 0%nat = Some 2)
  /\ consecutive_primes [2; 3; 5].
Proof.
  destruct (generate_primes_to_count_first_primes 4 2 3
              (snd (init None NoFile true (fun _ => 0%float) true)))
    as [_ H].
  - apply consistent_init.
  - intros n v H. vm_compute in H. discriminate.
  - reflexivity.
  - apply (H [2; 3; 5]
             (snd (generate_primes_to_count 4 2 3
                     (snd (init None NoFile true (fun _ => 0%float) true))))).
    vm_compute. reflexivity.
Defined.

Lemma load_database_same_config : preserves same_config _load_database.
Proof.
  assert (Hrs : forall items, preserves same_config (restore_stats items)).
  { induction items as [| [k v] items IH]; simpl; [by intros ? |].
    apply preserves_bind; [apply same_config_trans | by intros ? |]. intros e0.
    apply preserves_bind; [apply same_config_trans | by intros ? |]. intros s.
    apply preserves_bind; [apply same_config_trans | by intros ? |]. intros _. apply IH. }
  assert (Hbody : preserves same_config load_body).
  { unfold load_body.
    apply preserves_bind; [apply same_config_trans | by intros ? |]. intros e0.
    destruct (db_file e0) as [| | | data]; try (by intros ?).
    destruct data as [| b | z | f | s | l | d]; try (by intros ?).
    - apply preserves_bind; [apply same_config_trans | by intros ? |]. intros codes.
      by intros ?.
    - apply preserves_bind; [apply same_config_trans | by intros ? |]. intros codes.
      apply preserves_bind; [apply same_config_trans | by intros ? |]. intros _.
      destruct (dict_get "stats" d); [| by intros ?].
      apply preserves_bind; [apply same_config_trans | by intros ? |]. intros items.
      apply Hrs. }
  intros e. unfold _load_database, try_except. specialize (Hbody e).
  destruct (load_body e) as [[[] | x |] e1]; simpl in *; done.
Qed.

(** X17.  Nothing that runs during a generation assigns the loop flag or
    the configuration: whatever their outcome, normal return or
    exception, the primality test, the successor search, a step of the
    generator, the load and the save leave [running], [save_interval],
    [progress_interval] and the access to the file as they found them. *)
Theorem configuration_is_never_assigned (fuel : nat) (n : Z) (g : generator) (e : t) :
  same_config e (snd (is_prime_optimized n e))
  /\ same_config e (snd (next_prime fuel n e))
  /\ same_config e (snd (gen_next fuel g e))
  /\ same_config e (snd (_save_database e))
  /\ same_config e (snd (_load_database e)).
Proof.
  split_and!.
  - apply is_prime_optimized_same_config.
  - apply next_prime_same_config.
  - apply gen_next_same_config.
  - apply save_database_same_config.
  - apply load_database_same_config.
Qed.

(** X18.  The intervals are not checked against 0.  On an engine with
    fresh statistics whose loop flag is up, a generator started below 2
    yields [(1, 2, 0)] whatever the intervals are; if [save_interval] is 0,
    or [progress_interval] is 0, the call after that raises
    [ZeroDivisionError]. *)
Theorem zero_interval_raises
    (fuel : nat) (start : Z) (limit : option Z) (e : t) :
  stats e = PrimeStats_default -> running e = true -> start < 2 ->
  match limit with Some l => 0 < l | None => True end ->
  save_interval e = 0 \/ progress_interval e = 0 ->
  exists e1 start_time,
    gen_next fuel (GenCreated start limit) e
    = (Ret (Some (1, 2, 0), GenSuspended limit start_time 1 2), e1)
    /\ fst (gen_next fuel (GenSuspended limit start_time 1 2) e1) = Raise ZeroDivisionError.
Proof.
  intros Hfresh Hrun Hstart Hlim Hzero.
  set (e0 := set_ticks (S (ticks e)) e).
  set (ea := set_stats (set_total_candidates (PInt (0 + 1)) (stats e0)) e0).
  set (eb := set_ticks (S (ticks ea)) ea).
  assert (Hst : stats eb = set_total_candidates (PInt (0 + 1)) PrimeStats_default)
    by (subst eb ea e0; simpl; by rewrite Hfresh).
  destruct (update_stats_forward 0 (clock ea (ticks ea) - clock e (ticks e))%float eb 0
              ltac:(by rewrite Hst) ltac:(lia) ltac:(lia) ltac:(by left)
              ltac:(rewrite Hst; by eexists) ltac:(rewrite Hst; by eexists)
              ltac:(rewrite Hst; by left) ltac:(rewrite Hst; by eexists))
    as (e1 & Hu & _ & _ & Hsi & Hpi & _).
  exists e1, (clock e (ticks e)). split.
  - unfold gen_next. rewrite (bind_Ret time_time _ e e0 (clock e (ticks e)) eq_refl).
    unfold gen_loop. rewrite (bind_Ret get_state _ e0 e0 e0 eq_refl).
    replace (running e0) with true by done.
    replace (match limit with Some l => 0 <? l | None => true end) with true
      by (destruct limit; [symmetry; by apply Z.ltb_lt | done]).
    cbn [andb].
    rewrite (bind_Ret _ _ _ _ _ (next_prime_below_2 fuel start e0 0 Hstart
                                   ltac:(subst e0; simpl; by rewrite Hfresh))).
    cbv zeta. fold ea.
    rewrite (bind_Ret time_time _ ea eb (clock ea (ticks ea)) eq_refl).
    by rewrite (bind_Ret _ _ _ _ _ Hu).
  - unfold gen_next. rewrite (bind_Ret get_state _ e1 e1 e1 eq_refl).
    assert (Hsi1 : save_interval e1 = save_interval e) by (by rewrite Hsi).
    assert (Hpi1 : progress_interval e1 = progress_interval e) by (by rewrite Hpi).
    rewrite Hsi1, Hpi1.
    destruct (save_interval e =? 0) eqn:Es; [done |].
    apply Z.eqb_neq in Es. destruct Hzero as [? | Hp0]; [done |].
    rewrite Hp0. change (0 =? 0) with true. cbv iota.
    destruct (1 mod save_interval e =? 0).
    + unfold bind at 1. by rewrite save_database_file.
    + done.
Qed.

Lemma zero_interval_raises_witness :
  exists e1 start_time,
    gen_next 1 (GenCreated 1 None)
      (snd (init (Some (mkConfig None None (Some 0) None)) NoFile true (fun _ => 0%float) true))
    = (Ret (Some (1, 2, 0), GenSuspended None start_time 1 2), e1)
    /\ fst (gen_next 1 (GenSuspended None start_time 1 2) e1) = Raise ZeroDivisionError.
Proof.
  apply (zero_interval_raises 1 1 None
           (snd (init (Some (mkConfig None None (Some 0) None)) NoFile true (fun _ => 0%float) true))).
  - reflexivity.
  - reflexivity.
  - lia.
  - done.
  - left. reflexivity.
Defined.

End generator_more.

Section persistence_more.
Import BinaryPrimeEngine.



(** X20.  The statistics of a persisted record are restored unchecked.
    When the [total_candidates] of the record is a string, the load
    returns as for any other record, the field holds the string, and every
    later call of [next_prime] raises [TypeError] at its first statement
    and leaves the engine as it was. *)
Theorem unchecked_statistics_break_next_prime
    (e : t) (d : list (string * pyval)) (codes : list pyval)
    (st : list (string * pyval)) (s : string) :
  db_file e = Content (PDict d) ->
  dict_get "codes" d = Some (PList codes) -> forallb hashable codes = true ->
  dict_get "stats" d = Some (PDict st) ->
  forallb (fun kv => negb (guarded_name (fst kv))) st = true ->
  NoDup st.*1 ->
  dict_get "total_candidates" st = Some (PStr s) ->
  exists e1,
    _load_database e = (Ret tt, e1)
    /\ total_candidates (stats e1) = PStr s
    /\ forall fuel n, next_prime fuel n e1 = (Raise TypeError, e1).
Proof.
  intros Hf Hc Hh Hs Hg Hnd Hv.
  eexists. split; [by apply (load_database_record e d codes st) |].
  destruct (restored_spec st (stats e) Hg Hnd) as [Hfields _].
  assert (Htc : total_candidates (restored st (stats e)) = PStr s).
  { rewrite (Hfields "total_candidates"%string total_candidates), Hv; [done |].
    unfold stats_fields. apply elem_of_cons. right. apply elem_of_cons. by left. }
  split; [done |].
  intros fuel n. unfold next_prime, count_candidate, bind, stat, lift. simpl.
  by rewrite Htc.
Qed.

Lemma unchecked_statistics_break_next_prime_witness :
  exists e1,
    _load_database
      (mk (PrimeCache.init 10000) PrimeStats_default [] true 1000 100
          (Content (PDict [("codes", PList []);
                           ("stats", PDict [("total_candidates", PStr "12")])]%string))
          true (fun _ => 0%float) O)
    = (Ret tt, e1)
    /\ total_candidates (stats e1) = PStr "12"
    /\ forall fuel n, next_prime fuel n e1 = (Raise TypeError, e1).
Proof.
  apply (unchecked_statistics_break_next_prime
           (mk (PrimeCache.init 10000) PrimeStats_default [] true 1000 100
               (Content (PDict [("codes", PList []);
                                ("stats", PDict [("total_candidates", PStr "12")])]%string))
               true (fun _ => 0%float) O)
           [("codes", PList []); ("stats", PDict [("total_candidates", PStr "12")])]%string
           [] [("total_candidates", PStr "12")]%string "12").
  - reflexivity.
  - reflexivity.
  - reflexivity.
  - reflexivity.
  - reflexivity.
  - apply NoDup_singleton.
  - reflexivity.
Defined.



End persistence_more.
